(** * Oat: shared-memory servers, recorder, recorder control, decorator
      and test-position components

    A shallow embedding of the C++ sources of the Oat dataflow runtime,
    one module per translation unit:

    - [Shmem]         : lib/shmem/SMServer.h
    - [TestPosition]  : src/positiontester/TestPosition.h
    - [RecordControl] : src/recorder/RecordControl.cpp
    - [Recorder]      : src/recorder/Recorder.cpp
    - [Decorator]     : src/decorator/Decorator.cpp
    - [Buffer]        : src/buffer/Buffer.h

    Machine integers are [Z] with their wrap-around written out, C++
    containers are stdpp lists and [gmap]s, and code that mutates objects
    is written in state-passing style. *)

From Stdlib Require Import ZArith Ascii String List Lia Sorted.
From stdpp Require Import base option list sorting gmap strings pretty.

#[local] Open Scope string_scope.
#[local] Open Scope list_scope.
#[local] Open Scope Z_scope.

(** Value of a [w]-bit unsigned integer after an arithmetic operation. *)
Definition wrap (w : Z) (x : Z) : Z := x mod 2 ^ w.

Lemma wrap_small w x : 0 <= x < 2 ^ w -> wrap w x = x.
Proof. intros H. unfold wrap. apply Z.mod_small; assumption. Qed.

(* ===================================================================== *)
(** * lib/shmem/SMServer.h *)
(* ===================================================================== *)

Module Shmem.

#[local] Open Scope nat_scope.

Section Server.

(** [T] is the served value type and [Obj] the type [SharedMemType<T>]
    (declared in SyncSharedMemoryObject.h): its default constructor and
    its [set_value] member are taken as parameters. *)
Variable T : Type.
Variable Obj : Type.
Variable obj_default : Obj.
Variable obj_set_value : T -> Obj -> Obj.
(** [sizeof (SharedMemType<T>)] *)
Variable sizeof_obj : N.

(** A managed shared-memory segment: its size and its named objects. *)
Record segment := Segment {
  seg_bytes : N;
  seg_objects : gmap string Obj
}.

(** The operating system's view of shared memory. Names live in one
    global name space and refer to segments; a segment whose name has
    been removed stays mapped in the processes that opened it. *)
Record kernel := Kernel {
  k_names : gmap string nat;
  k_segments : gmap nat segment;
  k_next : nat
}.

(** The members of [SMServer]: [shared_memory] is the handle of the
    mapped segment and [shared_object] the key of the object in it
    ([None] while unset). *)
Record SMServer := Server {
  name : string;
  shmem_name : string;
  shobj_name : string;
  shared_memory : option nat;
  shared_object : option string;
  shared_object_created : bool
}.

(** [SMServer::SMServer(std::string sink_name)] *)
Definition new_SMServer (sink_name : string) : SMServer :=
  {| name := sink_name;
     shmem_name := sink_name +:+ "_sh_mem";
     shobj_name := sink_name +:+ "_sh_obj";
     shared_memory := None;
     shared_object := None;
     shared_object_created := false |}.

(** [bip::shared_memory_object::remove]: unlinks the name. *)
Definition shm_remove (nm : string) (k : kernel) : kernel :=
  {| k_names := delete nm (k_names k);
     k_segments := k_segments k;
     k_next := k_next k |}.

(** [bip::managed_shared_memory(bip::open_or_create, nm, bytes)]: opens
    the segment registered under [nm], or creates and registers a new
    one. Returns the kernel and the handle. *)
Definition open_or_create (nm : string) (bytes : N) (k : kernel)
  : kernel * nat :=
  match k_names k !! nm with
  | Some id => (k, id)
  | None =>
      let id := k_next k in
      ({| k_names := <[nm := id]> (k_names k);
          k_segments := <[id := Segment bytes ∅]> (k_segments k);
          k_next := S id |}, id)
  end.

(** [segment.find_or_construct<Obj>(key)()] on the segment [id]. *)
Definition find_or_construct (id : nat) (key : string) (k : kernel)
  : kernel :=
  match k_segments k !! id with
  | Some sg =>
      match seg_objects sg !! key with
      | Some _ => k
      | None =>
          {| k_names := k_names k;
             k_segments :=
               <[id := Segment (seg_bytes sg)
                         (<[key := obj_default]> (seg_objects sg))]>
                 (k_segments k);
             k_next := k_next k |}
      end
  | None => k
  end.

(** Where, if anywhere, the allocator raises [bip::bad_alloc] inside the
    [try] block; decided by the environment. *)
Inductive alloc_fault := NoFault | FaultOnCreate | FaultOnConstruct.

(** What a call leaves behind: the kernel, the server, the lines written
    to [std::cerr], and the exception that escaped the call, if any. *)
Inductive exn := bad_alloc (what : string) | interprocess_exception.

Record result := Result {
  res_kernel : kernel;
  res_server : SMServer;
  res_cerr : list string;
  res_thrown : option exn
}.

Definition bad_alloc_what : string := "boost::interprocess::bad_alloc".

(** [SMServer::createSharedObject()] *)
Definition createSharedObject (fault : alloc_fault) (k : kernel)
    (s : SMServer) : result :=
  (* Clean up any potential leftovers *)
  let k1 := shm_remove (shmem_name s) k in
  match fault with
  | FaultOnCreate =>
      (* catch (bip::bad_alloc &ex) *)
      Result k1 s [bad_alloc_what] None
  | _ =>
      (* Allocate shared memory *)
      let '(k2, id) :=
        open_or_create (shmem_name s) (sizeof_obj + 1024)%N k1 in
      let s2 := {| name := name s; shmem_name := shmem_name s;
                   shobj_name := shobj_name s;
                   shared_memory := Some id;
                   shared_object := shared_object s;
                   shared_object_created := shared_object_created s |} in
      match fault with
      | FaultOnConstruct => Result k2 s2 [bad_alloc_what] None
      | _ =>
          (* Make the shared object *)
          let k3 := find_or_construct id (shobj_name s) k2 in
          (* Set the ready flag *)
          Result k3
            {| name := name s; shmem_name := shmem_name s;
               shobj_name := shobj_name s;
               shared_memory := Some id;
               shared_object := Some (shobj_name s);
               shared_object_created := true |}
            [] None
      end
  end.


(** The object a server sees through its own mapping. *)
Definition server_object (k : kernel) (s : SMServer) : option Obj :=
  id ← shared_memory s;
  key ← shared_object s;
  sg ← k_segments k !! id;
  seg_objects sg !! key.

(** [SMServer::set_value(T value)]; the lock and the notification do not
    change the stored data. [None] stands for the dereference of an
    unset [shared_object]. *)
Definition set_value (fault : alloc_fault) (v : T) (k : kernel)
    (s : SMServer) : option (kernel * SMServer) :=
  let r := if shared_object_created s
           then Result k s [] None
           else createSharedObject fault k s in
  let k1 := res_kernel r in
  let s1 := res_server r in
  id ← shared_memory s1;
  key ← shared_object s1;
  sg ← k_segments k1 !! id;
  o ← seg_objects sg !! key;
  Some ({| k_names := k_names k1;
           k_segments :=
             <[id := Segment (seg_bytes sg)
                       (<[key := obj_set_value v o]> (seg_objects sg))]>
               (k_segments k1);
           k_next := k_next k1 |}, s1).

(** The address [A] is bound: a region is registered under [A_sh_mem],
    which holds from its server's [createSharedObject] until that
    server's destructor runs. *)
Definition bound (k : kernel) (A : string) : Prop :=
  is_Some (k_names k !! (A +:+ "_sh_mem")).

(** Every registered name refers to a segment id already handed out. *)
Definition kernel_wf (k : kernel) : Prop :=
  ∀ nm id, k_names k !! nm = Some id → id < k_next k.

(** ** Properties *)

Lemma open_or_create_fresh nm bytes k :
  k_names k !! nm = None →
  open_or_create nm bytes k =
    ({| k_names := <[nm := k_next k]> (k_names k);
        k_segments := <[k_next k := Segment bytes ∅]> (k_segments k);
        k_next := S (k_next k) |}, k_next k).
Proof. intros H. unfold open_or_create. by rewrite H. Qed.

Lemma shm_remove_lookup nm k : k_names (shm_remove nm k) !! nm = None.
Proof. apply lookup_delete_eq. Qed.

(** With no allocation fault the call always takes the create branch of
    [open_or_create], because the name has just been removed. *)
Lemma createSharedObject_ok k s :
  createSharedObject NoFault k s =
    Result
      {| k_names := <[shmem_name s := k_next k]> (delete (shmem_name s) (k_names k));
         k_segments :=
           <[k_next k := Segment (sizeof_obj + 1024)%N
                           {[shobj_name s := obj_default]}]> (k_segments k);
         k_next := S (k_next k) |}
      {| name := name s; shmem_name := shmem_name s;
         shobj_name := shobj_name s;
         shared_memory := Some (k_next k);
         shared_object := Some (shobj_name s);
         shared_object_created := true |}
      [] None.
Proof.
  unfold createSharedObject.
  rewrite open_or_create_fresh by apply shm_remove_lookup.
  unfold find_or_construct; simpl.
  rewrite lookup_insert_eq; simpl.
  rewrite lookup_empty, insert_insert_eq. reflexivity.
Qed.

Lemma createSharedObject_wf fault k s :
  kernel_wf k → kernel_wf (res_kernel (createSharedObject fault k s)).
Proof.
  intros Hwf nm id.
  assert (Hdel : ∀ n i, delete (shmem_name s) (k_names k) !! n = Some i
                        → i < k_next k).
  { intros n i Hn. apply lookup_delete_Some in Hn as [_ Hn]. eauto. }
  destruct fault.
  - rewrite createSharedObject_ok; simpl. intros H.
    apply lookup_insert_Some in H as [[_ <-]|[_ H]]; [lia|].
    apply Hdel in H. lia.
  - simpl. apply Hdel.
  - unfold createSharedObject.
    rewrite open_or_create_fresh by apply shm_remove_lookup. simpl.
    intros H. apply lookup_insert_Some in H as [[_ <-]|[_ H]]; [lia|].
    apply Hdel in H. lia.
Qed.

Lemma length_append (a b : string) :
  String.length (a +:+ b) = String.length a + String.length b.
Proof. induction a as [|c a IH]; simpl; [reflexivity | by rewrite IH]. Qed.

Lemma append_suffix_inj (a b sfx : string) :
  a +:+ sfx = b +:+ sfx → a = b.
Proof.
  revert b. induction a as [|c a IH]; intros [|d b] H.
  - reflexivity.
  - apply (f_equal String.length) in H.
    rewrite !length_append in H. simpl in H. lia.
  - apply (f_equal String.length) in H.
    rewrite !length_append in H. simpl in H. lia.
  - simpl in H. injection H as -> H. f_equal. by apply IH.
Qed.

(** ** Names as the operating system sees them *)

(** [std::string::c_str()] read as a C string, which is how Boost reads
    it: the characters before the first NUL. *)
Fixpoint c_str (s : string) : string :=
  match s with
  | EmptyString => EmptyString
  | String c rest =>
      if Ascii.eqb c zero then EmptyString else String c (c_str rest)
  end.

(** Whether the operating system accepts a string as the name of a
    shared memory object ([shm_open]); decided by the environment. *)
Variable os_accepts : string → bool.

(** [SMServer::createSharedObject()] with the names as they reach the
    operating system. Both names are passed as [c_str()]. A name that the
    system refuses is not removed, and the constructor of
    [managed_shared_memory] then throws a [bip::interprocess_exception]
    that is no [bip::bad_alloc]: the [catch] clause does not apply and the
    exception leaves the call. On names without NUL that the system
    accepts this is [createSharedObject]. *)
Definition createSharedObject_os (fault : alloc_fault) (k : kernel)
    (s : SMServer) : result :=
  let shmem := c_str (shmem_name s) in
  let shobj := c_str (shobj_name s) in
  if os_accepts shmem then
    (* Clean up any potential leftovers *)
    let k1 := shm_remove shmem k in
    match fault with
    | FaultOnCreate =>
        (* catch (bip::bad_alloc &ex) *)
        Result k1 s [bad_alloc_what] None
    | _ =>
        (* Allocate shared memory *)
        let '(k2, id) := open_or_create shmem (sizeof_obj + 1024)%N k1 in
        let s2 := {| name := name s; shmem_name := shmem_name s;
                     shobj_name := shobj_name s;
                     shared_memory := Some id;
                     shared_object := shared_object s;
                     shared_object_created := shared_object_created s |} in
        match fault with
        | FaultOnConstruct => Result k2 s2 [bad_alloc_what] None
        | _ =>
            (* Make the shared object *)
            let k3 := find_or_construct id shobj k2 in
            (* Set the ready flag *)
            Result k3
              {| name := name s; shmem_name := shmem_name s;
                 shobj_name := shobj_name s;
                 shared_memory := Some id;
                 shared_object := Some shobj;
                 shared_object_created := true |}
              [] None
        end
    end
  else Result k s [] (Some interprocess_exception).

Lemma c_str_app (a b : string) :
  c_str a = a → c_str (a +:+ b) = a +:+ c_str b.
Proof.
  induction a as [|c a IH]; [done|]. simpl.
  destruct (Ascii.eqb c zero); [done|]. intros [= H]. by rewrite IH.
Qed.

Lemma createSharedObject_os_plain (fault : alloc_fault) (k : kernel)
    (A : string) :
  c_str A = A → os_accepts (A +:+ "_sh_mem") = true →
  createSharedObject_os fault k (new_SMServer A)
  = createSharedObject fault k (new_SMServer A).
Proof.
  intros HA Hos. unfold createSharedObject_os, createSharedObject.
  cbn [shmem_name shobj_name new_SMServer].
  rewrite !(c_str_app A) by done.
  change (c_str "_sh_mem") with "_sh_mem".
  change (c_str "_sh_obj") with "_sh_obj". by rewrite Hos.
Qed.

(** C8 (as amended). The constructor derives exactly two names from the
    address [A], [A ++ "_sh_mem"] for the region and [A ++ "_sh_obj"] for
    the object key, keeps [A] itself unchanged, and distinct addresses
    get distinct names. What reaches the operating system are these
    names cut at their first NUL: [createSharedObject] touches no name of
    the global name space but the region name so cut. When [A] holds no
    NUL and the system accepts [A ++ "_sh_mem"], the region is registered
    under that name and holds the object under [A ++ "_sh_obj"] and under
    no other key. When the system refuses the name, the exception leaves
    the call and nothing is registered or created. *)
Theorem address_reserves_two_suffixed_names (A : string) :
  let s := new_SMServer A in
  name s = A
  ∧ shmem_name s = A +:+ "_sh_mem"
  ∧ shobj_name s = A +:+ "_sh_obj"
  ∧ (∀ B, shmem_name (new_SMServer B) = shmem_name s → B = A)
  ∧ (∀ B, shobj_name (new_SMServer B) = shobj_name s → B = A)
  ∧ (∀ fault k nm, nm ≠ c_str (A +:+ "_sh_mem") →
       k_names (res_kernel (createSharedObject_os fault k s)) !! nm
       = k_names k !! nm)
  ∧ (c_str A = A → os_accepts (A +:+ "_sh_mem") = true →
     ∀ k, ∃ sg,
       res_thrown (createSharedObject_os NoFault k s) = None
       ∧ k_names (res_kernel (createSharedObject_os NoFault k s))
           !! (A +:+ "_sh_mem") = Some (k_next k)
       ∧ k_segments (res_kernel (createSharedObject_os NoFault k s))
           !! k_next k = Some sg
       ∧ dom (seg_objects sg) = {[ A +:+ "_sh_obj" ]})
  ∧ (os_accepts (c_str (A +:+ "_sh_mem")) = false →
     ∀ fault k,
       createSharedObject_os fault k s
       = Result k s [] (Some interprocess_exception)).
Proof.
  cbv zeta. split_and!; try reflexivity.
  - intros B H. by apply append_suffix_inj in H.
  - intros B H. by apply append_suffix_inj in H.
  - intros fault k nm Hne. unfold createSharedObject_os.
    cbn [shmem_name shobj_name new_SMServer].
    destruct (os_accepts (c_str (A +:+ "_sh_mem"))); [|done].
    destruct fault.
    + rewrite open_or_create_fresh by apply shm_remove_lookup.
      unfold find_or_construct. cbn.
      rewrite lookup_insert_eq. cbn. rewrite lookup_empty. cbn.
      rewrite lookup_insert_ne by done. by rewrite lookup_delete_ne.
    + cbn. by rewrite lookup_delete_ne.
    + rewrite open_or_create_fresh by apply shm_remove_lookup. cbn.
      rewrite lookup_insert_ne by done. by rewrite lookup_delete_ne.
  - intros HA Hos k. rewrite createSharedObject_os_plain by done.
    eexists. rewrite createSharedObject_ok; simpl.
    rewrite !lookup_insert_eq. split; [done|]. split; [done|].
    split; [done|]. simpl. by rewrite dom_singleton_L.
  - intros Hos fault k. unfold createSharedObject_os.
    cbn [shmem_name new_SMServer]. by rewrite Hos.
Qed.

(** C1 (as amended). Binding an address that is already bound does not
    fail: [createSharedObject] first removes whatever region is
    registered under [A_sh_mem], owner alive or not, and then creates a
    fresh region under that name with a newly constructed object. No
    exception leaves the call; an allocation fault is only logged to
    [std::cerr] and leaves [shared_object_created] false. *)
Theorem createSharedObject_replaces_bound_region
    (fault : alloc_fault) (k : kernel) (A : string) (old : nat) :
  kernel_wf k →
  k_names k !! (A +:+ "_sh_mem") = Some old →
  let r := createSharedObject fault k (new_SMServer A) in
  res_thrown r = None
  ∧ k_names (res_kernel r) !! (A +:+ "_sh_mem") ≠ Some old
  ∧ k_segments (res_kernel r) !! old = k_segments k !! old
  ∧ match fault with
    | NoFault =>
        shared_object_created (res_server r) = true
        ∧ res_cerr r = []
        ∧ k_names (res_kernel r) !! (A +:+ "_sh_mem") = Some (k_next k)
        ∧ server_object (res_kernel r) (res_server r) = Some obj_default
    | _ =>
        shared_object_created (res_server r) = false
        ∧ res_cerr r = [bad_alloc_what]
    end.
Proof.
  intros Hwf Hold. pose proof (Hwf _ _ Hold) as Hlt. destruct fault.
  - rewrite createSharedObject_ok; simpl.
    rewrite lookup_insert_eq, lookup_insert_ne by lia.
    repeat split; try done.
    + intros [= E]. lia.
    + unfold server_object; simpl.
      rewrite lookup_insert_eq; simpl. by rewrite lookup_singleton_eq.
  - simpl. rewrite lookup_delete_eq. done.
  - unfold createSharedObject.
    rewrite open_or_create_fresh by apply shm_remove_lookup. simpl.
    rewrite lookup_insert_eq, lookup_insert_ne by lia.
    repeat split; try done. intros [= E]. lia.
Qed.

(** ** Further properties of the server *)


(** Binding an address leaves what every server with an existing mapping
    sees through it as it was, also a server of the same address: only
    the name changes hands, the segments already mapped are not touched. *)
Theorem createSharedObject_keeps_existing_mappings
    (fault : alloc_fault) (k : kernel) (A : string) (other : SMServer)
    (id : nat) :
  shared_memory other = Some id → id < k_next k →
  k_segments (res_kernel (createSharedObject fault k (new_SMServer A))) !! id
  = k_segments k !! id
  ∧ server_object (res_kernel (createSharedObject fault k (new_SMServer A)))
      other
    = server_object k other.
Proof.
  intros Hid Hlt.
  assert (Hseg : k_segments
                   (res_kernel (createSharedObject fault k (new_SMServer A)))
                 !! id = k_segments k !! id).
  { destruct fault.
    - rewrite createSharedObject_ok. cbn. by rewrite lookup_insert_ne by lia.
    - reflexivity.
    - unfold createSharedObject.
      rewrite open_or_create_fresh by apply shm_remove_lookup. cbn.
      by rewrite lookup_insert_ne by lia. }
  split; [exact Hseg|]. unfold server_object. rewrite Hid. cbn.
  destruct (shared_object other); cbn; [|done]. by rewrite Hseg.
Qed.



End Server.

(** A concrete world: servers of [nat] whose shared object is the served
    value itself. *)
Definition k0 : kernel nat := Kernel nat ∅ ∅ 0.
Definition first_server : SMServer := new_SMServer "pos".
Definition second_server : SMServer := new_SMServer "pos".

(** The first server binds "pos" and publishes 7. *)
Definition world_after_first : option (kernel nat * SMServer) :=
  set_value nat nat 0 (fun v _ => v) 8 NoFault 7 k0 first_server.

(** C1 (counterexample). The first server has bound "pos", published 7
    and is still alive; a second server binding "pos" completes normally
    with [shared_object_created] set: the name now refers to a new
    segment holding a default object, while the first server keeps writing
    to the segment it mapped. *)
Lemma bind_on_bound_address_succeeds :
  ∃ k s1,
    world_after_first = Some (k, s1)
    ∧ bound nat k "pos"
    ∧ k_names nat k !! "pos_sh_mem" = Some 0
    ∧ server_object nat k s1 = Some 7
    ∧ let r := createSharedObject nat 0 8 NoFault k second_server in
      res_thrown nat r = None
      ∧ res_cerr nat r = []
      ∧ shared_object_created (res_server nat r) = true
      ∧ k_names nat (res_kernel nat r) !! "pos_sh_mem" = Some 1
      ∧ server_object nat (res_kernel nat r) (res_server nat r) = Some 0
      ∧ server_object nat (res_kernel nat r) s1 = Some 7.
Proof.
  eexists _, _. split; [vm_compute; reflexivity|].
  split; [by eexists|].
  repeat split; vm_compute; reflexivity.
Qed.

Lemma createSharedObject_replaces_bound_region_witness :
  kernel_wf nat (Kernel nat {[ "pos_sh_mem" := 0 ]} {[ 0 := Segment nat 1032 {[ "pos_sh_obj" := 7 ]} ]} 1)
  ∧ res_thrown nat
      (createSharedObject nat 0 8 NoFault
         (Kernel nat {[ "pos_sh_mem" := 0 ]} {[ 0 := Segment nat 1032 {[ "pos_sh_obj" := 7 ]} ]} 1)
         (new_SMServer "pos")) = None.
Proof.
  assert (Hwf : kernel_wf nat
    (Kernel nat {[ "pos_sh_mem" := 0 ]} {[ 0 := Segment nat 1032 {[ "pos_sh_obj" := 7 ]} ]} 1)).
  { intros nm id H. simpl in H. apply lookup_singleton_Some in H as [_ <-]. simpl. lia. }
  split; [exact Hwf|].
  exact (proj1 (createSharedObject_replaces_bound_region nat 0 8 NoFault _ "pos" 0
                  Hwf eq_refl)).
Defined.

(** A kernel in which "pos" is bound to segment 0, holding 7, and the
    server that owns that mapping. *)
Definition k_bound : kernel nat :=
  Kernel nat {[ "pos_sh_mem" := 0 ]}
    {[ 0 := Segment nat 1032 {[ "pos_sh_obj" := 7 ]} ]} 1.

Definition owner : SMServer :=
  Server "pos" "pos_sh_mem" "pos_sh_obj" (Some 0) (Some "pos_sh_obj") true.

Lemma createSharedObject_keeps_existing_mappings_witness :
  server_object nat k_bound owner = Some 7
  ∧ server_object nat
      (res_kernel nat (createSharedObject nat 0 8 NoFault k_bound
                         (new_SMServer "pos")))
      owner
    = Some 7.
Proof.
  split; [reflexivity|].
  assert (H0 : shared_memory owner = Some 0) by reflexivity.
  assert (H1 : 0 < k_next nat k_bound) by (simpl; lia).
  exact (proj2 (createSharedObject_keeps_existing_mappings nat 0 8 NoFault
                  k_bound "pos" owner 0 H0 H1)).
Defined.


(** A system that refuses names with a slash in them, as [shm_open] does
    for the name it is handed. *)
Fixpoint has_slash (nm : string) : bool :=
  match nm with
  | EmptyString => false
  | String c rest => Ascii.eqb c "/" || has_slash rest
  end.

Definition posix_accepts (nm : string) : bool := negb (has_slash nm).

(** The address made of "a", a NUL character and "b". *)
Definition cut_address : string := String "a" (String zero "b").

(** C8 (counterexample). For the address "a", NUL, "b" the names kept by
    the server are the address with the two suffixes, but both reach the
    operating system cut at the NUL: the region is registered under "a",
    not under the address with "_sh_mem", and the object is stored under
    the key "a", not under the address with "_sh_obj". For the address
    "a/b" the system refuses the region name: the exception leaves
    [createSharedObject], and no name is registered at all. *)
Lemma address_with_NUL_is_cut :
  let r := createSharedObject_os nat 0 8 posix_accepts NoFault
             (Kernel nat ∅ ∅ 0) (new_SMServer cut_address) in
  let r' := createSharedObject_os nat 0 8 posix_accepts NoFault
              (Kernel nat ∅ ∅ 0) (new_SMServer "a/b") in
  shmem_name (res_server nat r) = cut_address +:+ "_sh_mem"
  ∧ shobj_name (res_server nat r) = cut_address +:+ "_sh_obj"
  ∧ k_names nat (res_kernel nat r) !! (cut_address +:+ "_sh_mem") = None
  ∧ k_names nat (res_kernel nat r) !! "a" = Some 0
  ∧ (k_segments nat (res_kernel nat r) !! 0
       ≫= λ sg, seg_objects nat sg !! (cut_address +:+ "_sh_obj")) = None
  ∧ (k_segments nat (res_kernel nat r) !! 0
       ≫= λ sg, seg_objects nat sg !! "a") = Some 0
  ∧ res_thrown nat r' = Some interprocess_exception
  ∧ k_names nat (res_kernel nat r') !! "a/b_sh_mem" = None
  ∧ shared_object_created (res_server nat r') = false.
Proof. cbv zeta. split_and!; vm_compute; reflexivity. Qed.

End Shmem.

(* ===================================================================== *)
(** * src/positiontester/TestPosition.h *)
(* ===================================================================== *)

Module TestPosition.

Section Tester.

(** [T] is the position type. [generatePosition] is pure virtual: a
    concrete tester supplies it together with its own state [Gen]. *)
Variable T : Type.
Variable Gen : Type.
Variable generatePosition : Gen -> T * Gen.

(** The members of [TestPosition<T>]. [position_sink] is the
    [BufferedSMServer<T>] seen from outside: the objects handed to
    [pushObject], each with the sample number passed along, oldest first.
    [sample] is a [uint32_t]. *)
Record TestPosition := Tester {
  name : string;
  position_sink : list (T * Z);
  sample : Z;
  gen : Gen
}.

(** Modelled from the spec: [BufferedSMServer<T>::pushObject(value,
    sample_number)] (lib/shmem, not among the sources) publishes one
    object with its sample number. *)
Definition pushObject (v : T) (n : Z) (sink : list (T * Z)) : list (T * Z) :=
  sink ++ [(v, n)].

(** [TestPosition(position_sink_name, samples_per_second)] *)
Definition new_TestPosition (position_sink_name : string) (g : Gen)
  : TestPosition :=
  {| name := "testpos[*->" +:+ position_sink_name +:+ "]";
     position_sink := [];
     sample := 0;
     gen := g |}.

(** [bool TestPosition::process(void)] *)
Definition process (tp : TestPosition) : TestPosition * bool :=
  (* Publish simulated position *)
  let '(p, g) := generatePosition (gen tp) in
  let sink := pushObject p (sample tp) (position_sink tp) in
  (* ++sample *)
  ({| name := name tp;
      position_sink := sink;
      sample := wrap 32 (sample tp + 1);
      gen := g |},
   false).

(** [n] successive calls of [process], with the values they return. *)
Fixpoint run (n : nat) (tp : TestPosition) : TestPosition * list bool :=
  match n with
  | O => (tp, [])
  | S m =>
      let '(tp1, b) := process tp in
      let '(tp2, bs) := run m tp1 in
      (tp2, b :: bs)
  end.

(** The first [n] positions produced by the generator from state [g]. *)
Fixpoint generated (n : nat) (g : Gen) : list T :=
  match n with
  | O => []
  | S m => let '(p, g1) := generatePosition g in p :: generated m g1
  end.

(** The sample numbers [s], [s+1], ... of [n] successive publications,
    each reduced to 32 bits. *)
Fixpoint sample_numbers (n : nat) (s : Z) : list Z :=
  match n with
  | O => []
  | S m => s :: sample_numbers m (wrap 32 (s + 1))
  end.

(** ** Properties *)

Lemma generated_length (n : nat) (g : Gen) : length (generated n g) = n.
Proof.
  revert g. induction n as [|n IH]; intros g; simpl; [reflexivity|].
  destruct (generatePosition g) as [p g1]. simpl. by rewrite IH.
Qed.

Lemma sample_numbers_length (n : nat) (s : Z) :
  length (sample_numbers n s) = n.
Proof.
  revert s. induction n as [|n IH]; intros s; simpl; [reflexivity|].
  by rewrite IH.
Qed.

Lemma wrap_succ (x : Z) : wrap 32 (wrap 32 x + 1) = wrap 32 (x + 1).
Proof. unfold wrap. rewrite Z.add_mod_idemp_l by lia. reflexivity. Qed.

Lemma sample_numbers_lookup (n i : nat) (s : Z) :
  (i < n)%nat →
  sample_numbers n (wrap 32 s) !! i = Some (wrap 32 (s + Z.of_nat i)).
Proof.
  revert i s. induction n as [|n IH]; intros i s Hi; [lia|].
  destruct i as [|i]; simpl.
  - by rewrite Z.add_0_r.
  - rewrite wrap_succ, IH by lia. do 2 f_equal. lia.
Qed.

(** What [n] calls do to a tester: they append [n] publications to the
    sink, return [false] each time and advance the counter modulo 2^32. *)
Lemma run_spec (n : nat) (tp : TestPosition) :
  position_sink (fst (run n tp))
    = position_sink tp
        ++ zip (generated n (gen tp)) (sample_numbers n (sample tp))
  ∧ snd (run n tp) = repeat false n
  ∧ sample (fst (run n tp)) = Nat.iter n (λ s, wrap 32 (s + 1)) (sample tp).
Proof.
  revert tp. induction n as [|n IH]; intros tp; simpl.
  - by rewrite app_nil_r.
  - unfold process, pushObject.
    destruct (generatePosition (gen tp)) as [p g1].
    specialize (IH {| name := name tp;
                      position_sink := position_sink tp ++ [(p, sample tp)];
                      sample := wrap 32 (sample tp + 1);
                      gen := g1 |}).
    destruct (run n _) as [tp2 bs]. simpl in *.
    destruct IH as (-> & -> & ->). split_and!.
    + by rewrite <- app_assoc.
    + reflexivity.
    + clear. generalize (sample tp) as s. induction n as [|n IHn]; intros s.
      * reflexivity.
      * simpl. by rewrite IHn.
Qed.

Lemma iter_counter (n : nat) (s : Z) :
  Nat.iter n (λ s, wrap 32 (s + 1)) (wrap 32 s) = wrap 32 (s + Z.of_nat n).
Proof.
  induction n as [|n IH].
  - simpl. by rewrite Z.add_0_r.
  - rewrite Nat.iter_succ, IH, wrap_succ. f_equal. lia.
Qed.

(** C10 (as amended). Every call of [process] publishes exactly one
    generated position and returns [false]; the sample counter is a 32-bit
    unsigned integer, so call number [i+1] publishes sample number
    [i mod 2^32], which is [i] itself as long as [i < 2^32], and after [n]
    calls the counter holds [n mod 2^32]. *)
Theorem process_publishes_one_sample_per_call
    (sink_name : string) (g : Gen) (n i : nat) :
  (i < n)%nat →
  let tp := fst (run n (new_TestPosition sink_name g)) in
  length (position_sink tp) = n
  ∧ snd (run n (new_TestPosition sink_name g)) = repeat false n
  ∧ sample tp = Z.of_nat n mod 2 ^ 32
  ∧ fst <$> position_sink tp !! i = generated n g !! i
  ∧ snd <$> position_sink tp !! i = Some (Z.of_nat i mod 2 ^ 32)
  ∧ (Z.of_nat i < 2 ^ 32 → snd <$> position_sink tp !! i = Some (Z.of_nat i)).
Proof.
  intros Hi tp. subst tp.
  destruct (run_spec n (new_TestPosition sink_name g)) as (Hs & Hr & Hc).
  simpl in Hs, Hc. rewrite Hs, Hr, Hc.
  assert (Hsn : sample_numbers n 0 !! i = Some (Z.of_nat i mod 2 ^ 32)).
  { change 0 with (wrap 32 0) at 1. by rewrite sample_numbers_lookup. }
  destruct (lookup_lt_is_Some_2 (generated n g) i) as [p Hp].
  { by rewrite generated_length. }
  assert (Hz : zip (generated n g) (sample_numbers n 0) !! i
               = Some (p, Z.of_nat i mod 2 ^ 32)).
  { apply lookup_zip_with_Some. eauto. }
  split_and!.
  - rewrite length_zip_with, generated_length, sample_numbers_length. lia.
  - reflexivity.
  - change 0 with (wrap 32 0) at 1. by rewrite iter_counter.
  - by rewrite Hz, Hp.
  - by rewrite Hz.
  - intros Hlt. rewrite Hz. simpl. f_equal. apply Z.mod_small. lia.
Qed.

(** ** Further properties of the tester *)

Lemma run_name (n : nat) (tp : TestPosition) :
  name (fst (run n tp)) = name tp.
Proof.
  revert tp. induction n as [|n IH]; intros tp; [done|].
  simpl. unfold process. destruct (generatePosition (gen tp)) as [p g1].
  specialize (IH {| name := name tp;
                    position_sink := pushObject p (sample tp) (position_sink tp);
                    sample := wrap 32 (sample tp + 1);
                    gen := g1 |}).
  destruct (run n _) as [tp2 bs]. exact IH.
Qed.

(** From any state of a tester whose counter is a 32-bit value, [n] calls
    of [process] only append: what was published before stays in place,
    exactly [n] publications follow it, the [i]-th of them numbered
    [(sample + i) mod 2^32], the name is unchanged and the counter is
    again a 32-bit value. *)
Theorem process_only_appends (n : nat) (tp : TestPosition) :
  0 <= sample tp < 2 ^ 32 →
  let tp' := fst (run n tp) in
  name tp' = name tp
  ∧ take (length (position_sink tp)) (position_sink tp') = position_sink tp
  ∧ length (position_sink tp') = (length (position_sink tp) + n)%nat
  ∧ (∀ i, (i < n)%nat →
       snd <$> position_sink tp' !! (length (position_sink tp) + i)%nat
       = Some ((sample tp + Z.of_nat i) mod 2 ^ 32))
  ∧ sample tp' = (sample tp + Z.of_nat n) mod 2 ^ 32
  ∧ 0 <= sample tp' < 2 ^ 32.
Proof.
  intros Hs tp'. subst tp'.
  destruct (run_spec n tp) as (Hsink & _ & Hc).
  assert (Hw : sample tp = wrap 32 (sample tp)) by (by rewrite wrap_small).
  assert (Hcount : sample (fst (run n tp))
                   = (sample tp + Z.of_nat n) mod 2 ^ 32).
  { rewrite Hc. rewrite Hw at 1. by rewrite iter_counter. }
  split_and!.
  - apply run_name.
  - rewrite Hsink. by rewrite take_app_length.
  - rewrite Hsink, length_app, length_zip_with, generated_length,
      sample_numbers_length. lia.
  - intros i Hi. rewrite Hsink, lookup_app_r by lia.
    replace (length (position_sink tp) + i - length (position_sink tp))%nat
      with i by lia.
    destruct (lookup_lt_is_Some_2 (generated n (gen tp)) i) as [p Hp].
    { by rewrite generated_length. }
    assert (Hn : sample_numbers n (sample tp) !! i
                 = Some ((sample tp + Z.of_nat i) mod 2 ^ 32)).
    { rewrite Hw at 1. by apply sample_numbers_lookup. }
    assert (Hz : zip (generated n (gen tp)) (sample_numbers n (sample tp)) !! i
                 = Some (p, (sample tp + Z.of_nat i) mod 2 ^ 32)).
    { apply lookup_zip_with_Some. eauto. }
    by rewrite Hz.
  - exact Hcount.
  - rewrite Hcount. apply Z.mod_pos_bound. lia.
  - rewrite Hcount. apply Z.mod_pos_bound. lia.
Qed.

End Tester.

(** A concrete tester that generates the positions 0, 1, 2, ... *)
Definition count_gen (g : Z) : Z * Z := (g, g + 1).

Definition counting_tester : TestPosition Z Z :=
  new_TestPosition Z Z "pos" 0.

(** C10 (counterexample). The call number 2^32 + 1 publishes sample number
    0, not 2^32: the counter is a [uint32_t] and has wrapped around. *)
Lemma sample_number_wraps_after_2_32_calls :
  let i := Z.to_nat (2 ^ 32) in
  snd <$> position_sink Z Z (fst (run Z Z count_gen (S i) counting_tester)) !! i
    = Some 0
  ∧ Z.of_nat (S i) - 1 = 4294967296
  ∧ snd <$> position_sink Z Z (fst (run Z Z count_gen (S i) counting_tester)) !! i
    ≠ Some (Z.of_nat (S i) - 1).
Proof.
  intros i.
  assert (Hi : Z.of_nat i = 2 ^ 32) by (apply Z2Nat.id; lia).
  destruct (process_publishes_one_sample_per_call Z Z count_gen "pos" 0
              (S i) i (Nat.lt_succ_diag_r i)) as (_ & _ & _ & _ & H & _).
  fold counting_tester in H. rewrite Hi, Z.mod_same in H by lia.
  split_and!.
  - exact H.
  - rewrite Nat2Z.inj_succ, Hi. reflexivity.
  - rewrite H, Nat2Z.inj_succ, Hi. discriminate.
Qed.

Lemma process_publishes_one_sample_per_call_witness :
  (2 < 3)%nat
  ∧ position_sink Z Z (fst (run Z Z count_gen 3 counting_tester))
    = [(0, 0); (1, 1); (2, 2)]
  ∧ snd <$> position_sink Z Z (fst (run Z Z count_gen 3 counting_tester))
              !! 2%nat = Some 2.
Proof.
  split; [lia|]. split; [reflexivity|].
  exact (proj1 (proj2 (proj2 (proj2 (proj2
    (process_publishes_one_sample_per_call Z Z count_gen "pos" 0 3 2
       (Nat.lt_succ_diag_r 2))))))).
Defined.

(** A tester that has published two positions and whose counter is about
    to wrap. *)
Definition late_tester : TestPosition Z Z :=
  Tester Z Z "testpos[*->pos]" [(7, 4294967293); (8, 4294967294)]
    4294967295 9.

Lemma process_only_appends_witness :
  0 <= sample Z Z late_tester < 2 ^ 32
  ∧ position_sink Z Z (fst (run Z Z count_gen 2 late_tester))
    = [(7, 4294967293); (8, 4294967294); (9, 4294967295); (10, 0)]
  ∧ sample Z Z (fst (run Z Z count_gen 2 late_tester)) = 1.
Proof.
  assert (H : 0 <= sample Z Z late_tester < 2 ^ 32) by (simpl; lia).
  split; [exact H|]. split; [reflexivity|].
  exact (proj1 (proj2 (proj2 (proj2 (proj2
    (process_only_appends Z Z count_gen 2 late_tester H)))))).
Defined.

End TestPosition.

(* ===================================================================== *)
(** * src/recorder/RecordControl.cpp *)
(* ===================================================================== *)

Module RecordControl.

(** The line-feed character and [std::endl]. *)
Definition LF : ascii := ascii_of_nat 10.
Definition endl : string := String LF "".

(** A [std::istream] over a finite input: the characters not yet read and
    the state flags. *)
Record istream := Istream {
  buf : string;
  eofbit : bool;
  failbit : bool
}.

Definition good (i : istream) : bool := negb (eofbit i) && negb (failbit i).

(** The characters up to the first line feed, and what follows the line
    feed ([None] when the input ends before one is found). *)
Fixpoint split_line (s : string) : string * option string :=
  match s with
  | EmptyString => (EmptyString, None)
  | String c rest =>
      if Ascii.eqb c LF then (EmptyString, Some rest)
      else let '(l, r) := split_line rest in (String c l, r)
  end.

(** [std::getline(in, str)]. When the stream is not good the sentry sets
    [failbit] and [str] is left as it was. Otherwise [str] is erased and
    filled up to the line feed, which is consumed; hitting the end of the
    input sets [eofbit], and [failbit] too when nothing was extracted. *)
Definition getline (i : istream) (str : string) : istream * string :=
  if good i then
    match split_line (buf i) with
    | (l, Some rest) => (Istream rest false false, l)
    | (l, None) => (Istream EmptyString true (String.eqb l EmptyString), l)
    end
  else (Istream (buf i) (eofbit i) true, str).

(** [in.clear()] *)
Definition clear (i : istream) : istream := Istream (buf i) false false.

(** [in.ignore(std::numeric_limits<std::streamsize>::max())]: the
    delimiter defaults to end-of-file, so every remaining character is
    discarded and [eofbit] is set. *)
Definition ignore_max (i : istream) : istream :=
  if good i then Istream EmptyString true false
  else Istream (buf i) (eofbit i) true.

(** [cmd_map[cmd]] on a [std::unordered_map<std::string, char>]: a missing
    key is inserted with the value-initialised character. *)
Definition index (m : gmap string ascii) (k : string)
  : gmap string ascii * ascii :=
  match m !! k with
  | Some c => (m, c)
  | None => (<[k := zero]> m, zero)
  end.

(** The command map built at the top of [controlRecorder]. *)
Definition initial_cmd_map : gmap string ascii :=
  <["rename" := "r"%char]>
    (<["new" := "n"%char]>
       (<["stop" := "S"%char]>
          (<["start" := "s"%char]>
             (<["help" := "h"%char]>
                (<["exit" := "e"%char]> ∅))))).

(** The text written by [printInteractiveUsage]. *)
Definition interactive_usage : string :=
  "COMMANDS" +:+ endl +:+
  "CMD         FUNCTION" +:+ endl +:+
  " help       Print this information." +:+ endl +:+
  " start      Start recording. This will append and file if it" +:+ endl +:+
  "            already exists." +:+ endl +:+
  " stop       Pause recording. This will pause" +:+ endl +:+
  "            recording and will not start a new file." +:+ endl +:+
  " exit       Exit the program." +:+ endl.

(** The variables of [controlRecorder]: both streams, the recorder's
    [record_on] flag and the locals [cmd_map], [cmd] and [quit]. *)
Record control := Control {
  c_in : istream;
  c_out : string;
  record_on : bool;
  cmd_map : gmap string ascii;
  cmd : string;
  quit : bool
}.

(** One pass through the body of the [while (!quit)] loop. *)
Definition loop_body (pretty_cmd : bool) (st : control) : control :=
  let out0 := if pretty_cmd then c_out st +:+ ">>> " else c_out st in
  let '(in1, cmd1) := getline (c_in st) (cmd st) in
  let '(map1, c) := index (cmd_map st) cmd1 in
  if Ascii.eqb c "e" then
    Control in1 (out0 +:+ "Received exit signal." +:+ endl)
            (record_on st) map1 cmd1 true
  else if Ascii.eqb c "h" then
    Control in1 (out0 +:+ interactive_usage +:+ endl)
            (record_on st) map1 cmd1 (quit st)
  else if Ascii.eqb c "s" then
    Control in1 (out0 +:+ "Recording ON." +:+ endl)
            true map1 cmd1 (quit st)
  else if Ascii.eqb c "S" then
    Control in1 (out0 +:+ "Recording OFF." +:+ endl)
            false map1 cmd1 (quit st)
  else
    Control (ignore_max (clear in1))
            (out0 +:+ "Invalid command '" +:+ cmd1 +:+ "'" +:+ endl)
            (record_on st) map1 cmd1 (quit st).

(** The [while (!quit)] loop; [None] when [fuel] passes do not reach the
    end of the loop. *)
Fixpoint control_loop (fuel : nat) (pretty_cmd : bool) (st : control)
  : option control :=
  if quit st then Some st
  else match fuel with
       | O => None
       | S n => control_loop n pretty_cmd (loop_body pretty_cmd st)
       end.

(** [int controlRecorder(in, out, recorder, pretty_cmd)]: the exit code
    and the final state, or [None] when the loop is still running after
    [fuel] passes. *)
Definition controlRecorder (fuel : nat) (input : istream) (out : string)
    (recorder_on : bool) (pretty_cmd : bool) : option (Z * control) :=
  match control_loop fuel pretty_cmd
          (Control input out recorder_on initial_cmd_map EmptyString false) with
  | Some st => Some (0, st)
  | None => None
  end.

(** An input stream holding the given text, in good state. *)
Definition stream_of (text : string) : istream := Istream text false false.

(** ** Properties *)

(** The commands the [switch] has a case for. *)
Inductive command := Start | Stop | Help.

Definition command_text (c : command) : string :=
  match c with Start => "start" | Stop => "stop" | Help => "help" end.

Definition command_reply (c : command) : string :=
  match c with
  | Start => "Recording ON." +:+ endl
  | Stop => "Recording OFF." +:+ endl
  | Help => interactive_usage +:+ endl
  end.

Definition command_effect (c : command) (on : bool) : bool :=
  match c with Start => true | Stop => false | Help => on end.

(** A session: one command per line. *)
Fixpoint session (cs : list command) (rest : string) : string :=
  match cs with
  | [] => rest
  | c :: cs' => command_text c +:+ endl +:+ session cs' rest
  end.

Definition prompt (pretty_cmd : bool) : string :=
  if pretty_cmd then ">>> " else "".

Fixpoint session_output (pretty_cmd : bool) (cs : list command) : string :=
  match cs with
  | [] => ""
  | c :: cs' =>
      prompt pretty_cmd +:+ command_reply c +:+ session_output pretty_cmd cs'
  end.

Lemma append_cons (x : ascii) (a b : string) :
  String x a +:+ b = String x (a +:+ b).
Proof. reflexivity. Qed.

Lemma append_nil (b : string) : "" +:+ b = b.
Proof. reflexivity. Qed.

Lemma append_assoc (a b c : string) : (a +:+ b) +:+ c = a +:+ (b +:+ c).
Proof.
  induction a as [|x a IH]; [reflexivity|].
  by rewrite !append_cons, IH.
Qed.

Lemma append_empty_r (a : string) : a +:+ "" = a.
Proof.
  induction a as [|x a IH]; [reflexivity|]. by rewrite append_cons, IH.
Qed.

Lemma prompt_out (pretty_cmd : bool) (out : string) :
  (if pretty_cmd then out +:+ ">>> " else out) = out +:+ prompt pretty_cmd.
Proof. destruct pretty_cmd; [reflexivity | by rewrite append_empty_r]. Qed.

(** One pass over a line that holds a known command. *)
Lemma loop_body_command (p : bool) (c : command) (rest out w : string)
    (on : bool) :
  loop_body p (Control (stream_of (command_text c +:+ endl +:+ rest)) out on
                 initial_cmd_map w false)
  = Control (stream_of rest) (out +:+ prompt p +:+ command_reply c)
      (command_effect c on) initial_cmd_map (command_text c) false.
Proof.
  unfold loop_body. rewrite prompt_out.
  destruct c; simpl; rewrite !append_assoc; reflexivity.
Qed.

(** One pass over a line that holds [exit]. *)
Lemma loop_body_exit (p : bool) (rest out w : string) (on : bool) :
  loop_body p (Control (stream_of ("exit" +:+ endl +:+ rest)) out on
                 initial_cmd_map w false)
  = Control (stream_of rest)
      (out +:+ prompt p +:+ "Received exit signal." +:+ endl)
      on initial_cmd_map "exit" true.
Proof.
  unfold loop_body. rewrite prompt_out. simpl.
  rewrite !append_assoc. reflexivity.
Qed.

(** A session of known commands closed by [exit] runs to completion: each
    [start] and [stop] sets [record_on], [help] prints the help block,
    [exit] ends the loop with exit code 0 and whatever follows is left
    unread. *)
Lemma known_commands_then_exit (p : bool) (cs : list command)
    (rest out w : string) (on : bool) :
  control_loop (S (length cs)) p
    (Control (stream_of (session cs ("exit" +:+ endl +:+ rest))) out on
       initial_cmd_map w false)
  = Some (Control (stream_of rest)
            (out +:+ session_output p cs +:+ prompt p
               +:+ "Received exit signal." +:+ endl)
            (fold_left (λ b c, command_effect c b) cs on)
            initial_cmd_map "exit" true).
Proof.
  revert out w on. induction cs as [|c cs IH]; intros out w on.
  - cbn [length control_loop quit session session_output fold_left].
    rewrite loop_body_exit. reflexivity.
  - cbn [length session session_output fold_left].
    change (control_loop (S (S (length cs))) p ?st)
      with (control_loop (S (length cs)) p (loop_body p st)).
    rewrite loop_body_command, IH. rewrite !append_assoc. reflexivity.
Qed.

(** A session of [start], [stop] and [help] lines closed by an [exit]
    line: given fuel for at least one pass per line, [controlRecorder]
    returns exit code 0; [record_on] is as the last [start] or [stop] left
    it, or as it was if there was none; every line has been answered
    after the prompt, the [exit] line with the exit message; and what
    follows the [exit] line is left unread. *)
Lemma controlRecorder_known_commands (p : bool) (cs : list command)
    (rest out : string) (on : bool) (more : nat) :
  ∃ st, controlRecorder (S (length cs) + more)
          (stream_of (session cs ("exit" +:+ endl +:+ rest))) out on p
        = Some (0, st)
    ∧ record_on st = fold_left (λ b c, command_effect c b) cs on
    ∧ c_in st = stream_of rest
    ∧ c_out st
      = out +:+ session_output p cs +:+ prompt p
          +:+ "Received exit signal." +:+ endl.
Proof.
  unfold controlRecorder.
  assert (Hmore : ∀ n st st', control_loop n p st = Some st' →
                              control_loop (n + more) p st = Some st').
  { induction n as [|n IH]; intros st st' H.
    - simpl in H. destruct (quit st) eqn:Hq; [|done].
      destruct more; simpl; by rewrite Hq.
    - simpl in *. destruct (quit st); [done|]. by apply IH. }
  rewrite (Hmore _ _ _ (known_commands_then_exit p cs rest out "" on)).
  eexists. split; [reflexivity|]. done.
Qed.

(** The loop can no longer make progress: the input is exhausted and the
    last command read is one the [switch] has no case for. *)
Definition spinning (st : control) : Prop :=
  quit st = false
  ∧ c_in st = Istream "" true false
  ∧ ∃ c, cmd_map st !! cmd st = Some c
         ∧ Ascii.eqb c "e" = false ∧ Ascii.eqb c "h" = false
         ∧ Ascii.eqb c "s" = false ∧ Ascii.eqb c "S" = false.

Lemma spinning_step (p : bool) (st : control) :
  spinning st →
  spinning (loop_body p st)
  ∧ record_on (loop_body p st) = record_on st
  ∧ cmd (loop_body p st) = cmd st
  ∧ c_out (loop_body p st)
    = c_out st +:+ prompt p +:+ "Invalid command '" +:+ cmd st +:+ "'" +:+ endl.
Proof.
  intros (Hq & Hin & c & Hc & He & Hh & Hs & HS).
  unfold loop_body. rewrite prompt_out, Hin. simpl.
  unfold index. rewrite Hc, He, Hh, Hs, HS. simpl.
  split_and!; try done.
  - unfold spinning; simpl. split_and!; eauto 10.
  - by rewrite !append_assoc.
Qed.

Lemma spinning_forever (p : bool) (st : control) (fuel : nat) :
  spinning st → control_loop fuel p st = None.
Proof.
  revert st. induction fuel as [|n IH]; intros st Hst.
  - simpl. by rewrite (proj1 Hst).
  - simpl. rewrite (proj1 Hst). apply IH. by apply spinning_step.
Qed.

Fixpoint has_LF (s : string) : bool :=
  match s with
  | EmptyString => false
  | String c rest => Ascii.eqb c LF || has_LF rest
  end.

Lemma split_line_word (w rest : string) :
  has_LF w = false → split_line (w +:+ endl +:+ rest) = (w, Some rest).
Proof.
  induction w as [|c w IH]; intros H.
  - reflexivity.
  - simpl in H. apply orb_false_iff in H as [Hc Hw].
    rewrite append_cons. simpl. rewrite Hc, (IH Hw). reflexivity.
Qed.

Lemma initial_cmd_map_lookup (w : string) (c : ascii) :
  initial_cmd_map !! w = Some c →
  (w = "exit" ∧ c = "e"%char) ∨ (w = "help" ∧ c = "h"%char)
  ∨ (w = "start" ∧ c = "s"%char) ∨ (w = "stop" ∧ c = "S"%char)
  ∨ (w = "new" ∧ c = "n"%char) ∨ (w = "rename" ∧ c = "r"%char).
Proof.
  unfold initial_cmd_map. intros H.
  repeat (apply lookup_insert_Some in H as [[<- <-]|[? H]]; [tauto|]).
  by rewrite lookup_empty in H.
Qed.

(** A line the [switch] has no case for: the rest of the input, not just
    the rest of the line, is discarded, and the loop spins from then on. *)
Lemma unknown_command_spins (p : bool) (w rest out : string) (on : bool) :
  has_LF w = false →
  w ≠ "exit" → w ≠ "help" → w ≠ "start" → w ≠ "stop" →
  spinning (loop_body p (Control (stream_of (w +:+ endl +:+ rest)) out on
                           initial_cmd_map "" false))
  ∧ cmd (loop_body p (Control (stream_of (w +:+ endl +:+ rest)) out on
                           initial_cmd_map "" false)) = w.
Proof.
  intros Hw He Hh Hs HS. unfold loop_body, getline, stream_of.
  cbn [c_in c_out cmd cmd_map good eofbit failbit negb andb buf].
  rewrite (split_line_word _ _ Hw). unfold index.
  destruct (initial_cmd_map !! w) as [c|] eqn:Hc.
  - apply initial_cmd_map_lookup in Hc as Hc'.
    destruct Hc' as [[-> ->]|[[-> ->]|[[-> ->]|[[-> ->]|[[-> ->]|[-> ->]]]]]];
      try done; simpl; (split; [|reflexivity]);
      (split; [reflexivity|]); (split; [reflexivity|]);
      eexists; (split; [exact Hc|]); done.
  - simpl. split; [|reflexivity].
    split; [reflexivity|]. split; [reflexivity|].
    exists zero. simpl. rewrite lookup_insert_eq. done.
Qed.

Lemma unknown_command_never_returns (fuel : nat) (p : bool)
    (w rest out : string) (on : bool) :
  has_LF w = false →
  w ≠ "exit" → w ≠ "help" → w ≠ "start" → w ≠ "stop" →
  controlRecorder fuel (stream_of (w +:+ endl +:+ rest)) out on p = None.
Proof.
  intros Hw He Hh Hs HS. unfold controlRecorder.
  destruct fuel as [|n]; [reflexivity|].
  cbn [control_loop quit].
  rewrite spinning_forever; [reflexivity|].
  by apply unknown_command_spins.
Qed.

(** [n] copies of a text. *)
Fixpoint copies (n : nat) (s : string) : string :=
  match n with O => "" | S m => s +:+ copies m s end.

Lemma copies_snoc (n : nat) (s : string) :
  copies (S n) s = copies n s +:+ s.
Proof.
  induction n as [|n IH]; [by rewrite append_nil; apply append_empty_r|].
  change (copies (S (S n)) s) with (s +:+ copies (S n) s).
  rewrite IH at 1. by rewrite <- append_assoc.
Qed.

Lemma spinning_passes (p : bool) (n : nat) (st : control) :
  spinning st →
  spinning (Nat.iter n (loop_body p) st)
  ∧ cmd (Nat.iter n (loop_body p) st) = cmd st
  ∧ record_on (Nat.iter n (loop_body p) st) = record_on st
  ∧ c_out (Nat.iter n (loop_body p) st)
    = c_out st
      +:+ copies n (prompt p +:+ "Invalid command '" +:+ cmd st +:+ "'" +:+ endl).
Proof.
  intros Hst. induction n as [|n (IH1 & IH2 & IH3 & IH4)].
  - simpl. by rewrite append_empty_r.
  - rewrite Nat.iter_succ.
    destruct (spinning_step p _ IH1) as (H1 & H2 & H3 & H4).
    split_and!; [done|congruence|congruence|].
    rewrite H4, IH4, IH2, copies_snoc. by rewrite !append_assoc.
Qed.

(** The recorder control session "foo", "exit". *)
Definition foo_then_exit : control :=
  Control (stream_of ("foo" +:+ endl +:+ "exit" +:+ endl)) "" false
    initial_cmd_map "" false.

(** C5 (the code at the failing input). On the input lines "foo" and
    "exit" the unknown command "foo" is reported, but the whole rest of
    the input is discarded with it, the "exit" line included; every later
    pass reports "foo" again, and [controlRecorder] never returns. *)
Theorem unknown_command_swallows_exit (fuel : nat) :
  controlRecorder fuel (stream_of ("foo" +:+ endl +:+ "exit" +:+ endl))
    "" false false = None
  ∧ c_in (loop_body false foo_then_exit) = Istream "" true false
  ∧ quit (Nat.iter (S fuel) (loop_body false) foo_then_exit) = false
  ∧ c_out (Nat.iter (S fuel) (loop_body false) foo_then_exit)
    = copies (S fuel) ("Invalid command 'foo'" +:+ endl).
Proof.
  assert (Hsp : spinning (loop_body false foo_then_exit)
                ∧ cmd (loop_body false foo_then_exit) = "foo").
  { apply (unknown_command_spins false "foo" ("exit" +:+ endl)); done. }
  destruct Hsp as [Hsp Hcmd].
  split; [by apply unknown_command_never_returns|].
  split; [reflexivity|].
  rewrite Nat.iter_succ_r.
  destruct (spinning_passes false fuel _ Hsp) as (H1 & _ & _ & H4).
  split; [apply H1|].
  rewrite H4, Hcmd. reflexivity.
Qed.

(** ** Further properties of the control loop *)

(** The first pass over a line the [switch] has no case for: the line is
    reported, [record_on] is kept, and the loop is left spinning. *)
Lemma unknown_command_first_pass (p : bool) (w rest out : string) (on : bool) :
  has_LF w = false →
  w ≠ "exit" → w ≠ "help" → w ≠ "start" → w ≠ "stop" →
  let st := loop_body p (Control (stream_of (w +:+ endl +:+ rest)) out on
                           initial_cmd_map "" false) in
  spinning st ∧ cmd st = w ∧ record_on st = on
  ∧ c_out st = out +:+ prompt p +:+ "Invalid command '" +:+ w +:+ "'" +:+ endl.
Proof.
  intros Hw He Hh Hs HS st.
  destruct (unknown_command_spins p w rest out on Hw He Hh Hs HS) as [H1 H2].
  fold st in H1, H2. split; [done|]. split; [done|].
  subst st. unfold loop_body, getline, stream_of.
  cbn [c_in c_out cmd cmd_map good eofbit failbit negb andb buf record_on quit].
  rewrite (split_line_word _ _ Hw), prompt_out. unfold index.
  destruct (initial_cmd_map !! w) as [c|] eqn:Hc.
  - apply initial_cmd_map_lookup in Hc as Hc'.
    destruct Hc' as [[-> ->]|[[-> ->]|[[-> ->]|[[-> ->]|[[-> ->]|[-> ->]]]]]];
      try done; cbn; by rewrite !append_assoc.
  - cbn. by rewrite !append_assoc.
Qed.

(** Any line other than [exit], [help], [start] and [stop], [new] and
    [rename] included, is reported as invalid and takes the whole rest of
    the input with it, whatever that input is: from then on every pass
    reports the same line again, [record_on] keeps its value and
    [controlRecorder] does not return. *)
Theorem unknown_line_ends_the_session
    (fuel n : nat) (p : bool) (w rest out : string) (on : bool) :
  has_LF w = false →
  w ≠ "exit" → w ≠ "help" → w ≠ "start" → w ≠ "stop" →
  let st0 := Control (stream_of (w +:+ endl +:+ rest)) out on
               initial_cmd_map "" false in
  controlRecorder fuel (stream_of (w +:+ endl +:+ rest)) out on p = None
  ∧ c_in (loop_body p st0) = Istream "" true false
  ∧ quit (Nat.iter (S n) (loop_body p) st0) = false
  ∧ record_on (Nat.iter (S n) (loop_body p) st0) = on
  ∧ c_out (Nat.iter (S n) (loop_body p) st0)
    = out +:+ copies (S n)
                (prompt p +:+ "Invalid command '" +:+ w +:+ "'" +:+ endl).
Proof.
  intros Hw He Hh Hs HS st0.
  destruct (unknown_command_first_pass p w rest out on Hw He Hh Hs HS)
    as (Hsp & Hcmd & Hon & Hout). fold st0 in Hsp, Hcmd, Hon, Hout.
  destruct (spinning_passes p n _ Hsp) as (H1 & _ & H3 & H4).
  rewrite Nat.iter_succ_r. split_and!.
  - unfold controlRecorder. fold st0. destruct fuel as [|m]; [reflexivity|].
    cbn [control_loop quit st0]. by rewrite spinning_forever.
  - apply Hsp.
  - apply H1.
  - by rewrite H3.
  - rewrite H4, Hcmd, Hout. cbn [copies]. by rewrite !append_assoc.
Qed.

(** The passes over a session of known commands, one pass per line. *)
Lemma passes_over_session (p : bool) (cs : list command) (m : nat)
    (rest out w : string) (on : bool) :
  ∃ w', Nat.iter (length cs + m) (loop_body p)
          (Control (stream_of (session cs rest)) out on initial_cmd_map w false)
        = Nat.iter m (loop_body p)
            (Control (stream_of rest) (out +:+ session_output p cs)
               (fold_left (λ b c, command_effect c b) cs on)
               initial_cmd_map w' false).
Proof.
  revert out w on. induction cs as [|c cs IH]; intros out w on.
  - exists w. cbn [length session session_output fold_left Nat.add].
    by rewrite append_empty_r.
  - cbn [length session session_output fold_left Nat.add].
    rewrite Nat.iter_succ_r, loop_body_command.
    destruct (IH (out +:+ prompt p +:+ command_reply c) (command_text c)
                (command_effect c on)) as [w' ->].
    exists w'. by rewrite !append_assoc.
Qed.

(** The pass that finds the input exhausted: the failed read leaves an
    empty command, which is reported as invalid. *)
Lemma loop_body_end_of_input (p : bool) (out w : string) (on : bool) :
  loop_body p (Control (stream_of "") out on initial_cmd_map w false)
  = Control (Istream "" true false)
      (out +:+ prompt p +:+ "Invalid command ''" +:+ endl)
      on (<["" := zero]> initial_cmd_map) "" false.
Proof.
  unfold loop_body. rewrite prompt_out. cbn. by rewrite !append_assoc.
Qed.

(** An input of [start], [stop] and [help] lines, each closed by its
    line feed, and nothing else, the empty input included: once the
    commands have been carried out, every pass reads the empty line at
    the end of the input and reports the invalid command [''], and
    [controlRecorder] does not return. *)
Lemma session_then_nothing_repeats_invalid
    (fuel n : nat) (p : bool) (cs : list command) (out : string) (on : bool) :
  let st0 := Control (stream_of (session cs "")) out on
               initial_cmd_map "" false in
  controlRecorder fuel (stream_of (session cs "")) out on p = None
  ∧ quit (Nat.iter (length cs + S n) (loop_body p) st0) = false
  ∧ record_on (Nat.iter (length cs + S n) (loop_body p) st0)
    = fold_left (λ b c, command_effect c b) cs on
  ∧ c_out (Nat.iter (length cs + S n) (loop_body p) st0)
    = out +:+ session_output p cs
        +:+ copies (S n) (prompt p +:+ "Invalid command ''" +:+ endl).
Proof.
  intros st0.
  assert (Hend : ∀ out' w' on',
            spinning (loop_body p (Control (stream_of "") out' on'
                                     initial_cmd_map w' false))).
  { intros out' w' on'. rewrite loop_body_end_of_input.
    split; [done|]. split; [done|]. exists zero. cbn.
    by rewrite lookup_insert_eq. }
  split.
  - unfold controlRecorder. subst st0.
    generalize "" at 2 as w. revert out on fuel.
    induction cs as [|c cs IH]; intros out on fuel w.
    + destruct fuel as [|m]; [reflexivity|].
      cbn [session control_loop quit]. by rewrite spinning_forever.
    + destruct fuel as [|m]; [reflexivity|].
      cbn [session control_loop quit]. rewrite loop_body_command.
      apply IH.
  - subst st0.
    destruct (passes_over_session p cs (S n) "" out "" on) as [w' ->].
    rewrite Nat.iter_succ_r.
    destruct (spinning_passes p n _ (Hend (out +:+ session_output p cs) w'
                (fold_left (λ b c, command_effect c b) cs on)))
      as (H1 & _ & H3 & H4).
    split; [apply H1|]. split.
    + rewrite H3. by rewrite loop_body_end_of_input.
    + rewrite H4, loop_body_end_of_input. cbn [c_out cmd copies].
      by rewrite !append_assoc.
Qed.

(** The entries of the command map at any time: those put there at the
    start, and unknown lines, which are given the null character. *)
Definition map_grown (m : gmap string ascii) : Prop :=
  ∀ w c, m !! w = Some c → initial_cmd_map !! w = Some c ∨ c = zero.

Lemma index_grown (m : gmap string ascii) (w : string) :
  map_grown m →
  map_grown (fst (index m w))
  ∧ (snd (index m w) = "e"%char → w = "exit").
Proof.
  intros Hm. unfold index. destruct (m !! w) as [c|] eqn:Hc; cbn.
  - split; [done|]. intros ->.
    destruct (Hm _ _ Hc) as [H|H]; [|done].
    apply initial_cmd_map_lookup in H.
    destruct H as [[-> _]|[[_ ?]|[[_ ?]|[[_ ?]|[[_ ?]|[_ ?]]]]]]; done.
  - split; [|done]. intros w' c' H.
    apply lookup_insert_Some in H as [[_ <-]|[_ H]]; [by right|by apply Hm].
Qed.

Lemma loop_body_grown (p : bool) (st : control) :
  map_grown (cmd_map st) → quit st = false →
  map_grown (cmd_map (loop_body p st))
  ∧ (quit (loop_body p st) = true →
     cmd (loop_body p st) = "exit"
     ∧ record_on (loop_body p st) = record_on st
     ∧ c_out (loop_body p st)
       = c_out st +:+ prompt p +:+ "Received exit signal." +:+ endl).
Proof.
  intros Hm Hq. unfold loop_body. rewrite prompt_out.
  destruct (getline (c_in st) (cmd st)) as [in1 cmd1].
  destruct (index_grown (cmd_map st) cmd1 Hm) as [Hm1 He].
  destruct (index (cmd_map st) cmd1) as [map1 c]. cbn in Hm1, He.
  destruct (Ascii.eqb c "e") eqn:E1.
  { apply Ascii.eqb_eq in E1. cbn. split; [done|]. intros _.
    split; [by apply He|]. split; [done|]. by rewrite !append_assoc. }
  destruct (Ascii.eqb c "h"); [cbn; split; [done|congruence]|].
  destruct (Ascii.eqb c "s"); [cbn; split; [done|congruence]|].
  destruct (Ascii.eqb c "S"); [cbn; split; [done|congruence]|].
  cbn. split; [done|congruence].
Qed.

(** The only way out of the loop is a line that reads [exit]: whenever
    [controlRecorder] returns, on any input and from any state of
    [record_on], the exit code is 0, the last line read is [exit] and the
    last thing written is the exit message. *)
Theorem controlRecorder_returns_only_on_exit
    (fuel : nat) (input : istream) (out : string) (on p : bool)
    (code : Z) (st : control) :
  controlRecorder fuel input out on p = Some (code, st) →
  code = 0 ∧ quit st = true ∧ cmd st = "exit"
  ∧ ∃ before, c_out st
              = before +:+ prompt p +:+ "Received exit signal." +:+ endl.
Proof.
  unfold controlRecorder.
  assert (Hloop : ∀ n s s', map_grown (cmd_map s) → quit s = false →
            control_loop n p s = Some s' →
            quit s' = true ∧ cmd s' = "exit"
            ∧ ∃ before, c_out s'
                = before +:+ prompt p +:+ "Received exit signal." +:+ endl).
  { induction n as [|n IH]; intros s s' Hm Hq H.
    - simpl in H. by rewrite Hq in H.
    - simpl in H. rewrite Hq in H.
      destruct (loop_body_grown p s Hm Hq) as [Hm1 Hx].
      destruct (quit (loop_body p s)) eqn:Hq1.
      + destruct n; simpl in H; rewrite Hq1 in H; injection H as <-;
          destruct (Hx eq_refl) as (Hc & _ & Ho); eauto.
      + by apply (IH (loop_body p s)). }
  destruct (control_loop fuel p _) as [s'|] eqn:Hrun; [|done].
  intros [= <- <-]. split; [done|].
  apply (Hloop fuel _ _) in Hrun; [done| |done].
  intros w c H. by left.
Qed.

(** The lines of a text as the successive calls of [getline] take them
    from a good stream: the runs of characters between line feeds, the
    last of which is what follows the last line feed, and is empty when
    the text ends with a line feed or is empty. *)
Fixpoint lines (s : string) : list string :=
  match s with
  | EmptyString => [EmptyString]
  | String c rest =>
      if Ascii.eqb c LF then EmptyString :: lines rest
      else match lines rest with
           | l :: ls => String c l :: ls
           | [] => [String c EmptyString]
           end
  end.

Lemma split_line_lines (s : string) :
  match split_line s with
  | (l, Some rest) => lines s = l :: lines rest
  | (l, None) => lines s = [l]
  end.
Proof.
  induction s as [|c s IH]; [done|]. simpl.
  destruct (Ascii.eqb c LF); [done|].
  destruct (split_line s) as [l [rest|]]; by rewrite IH.
Qed.

(** What the loop cannot leave behind when no line reads [exit]. *)
Definition exit_free (st : control) : Prop :=
  quit st = false ∧ map_grown (cmd_map st) ∧ cmd st ≠ "exit"
  ∧ "exit" ∉ lines (buf (c_in st)).

Lemma getline_exit_free (i : istream) (str : string) :
  str ≠ "exit" → "exit" ∉ lines (buf i) →
  snd (getline i str) ≠ "exit"
  ∧ "exit" ∉ lines (buf (fst (getline i str))).
Proof.
  intros Hstr Hbuf. unfold getline. destruct (good i); [|done].
  pose proof (split_line_lines (buf i)) as Hl.
  destruct (split_line (buf i)) as [l [rest|]]; rewrite Hl in Hbuf; simpl.
  - apply not_elem_of_cons in Hbuf as [H1 H2]. split; [congruence|done].
  - apply not_elem_of_cons in Hbuf as [H1 _]. split; [congruence|].
    intros H%list_elem_of_singleton. done.
Qed.

Lemma loop_body_exit_free (p : bool) (st : control) :
  exit_free st → exit_free (loop_body p st).
Proof.
  intros (Hq & Hm & Hcmd & Hbuf). unfold loop_body.
  destruct (getline_exit_free (c_in st) (cmd st) Hcmd Hbuf) as [Hc1 Hb1].
  destruct (getline (c_in st) (cmd st)) as [in1 cmd1]. simpl in Hc1, Hb1.
  destruct (index_grown (cmd_map st) cmd1 Hm) as [Hm1 He].
  destruct (index (cmd_map st) cmd1) as [map1 c]. cbn in Hm1, He.
  destruct (Ascii.eqb c "e") eqn:E1.
  { apply Ascii.eqb_eq in E1. by destruct Hc1; apply He. }
  destruct (Ascii.eqb c "h"); [by split_and!|].
  destruct (Ascii.eqb c "s"); [by split_and!|].
  destruct (Ascii.eqb c "S"); [by split_and!|].
  split_and!; try done. cbn.
  intros H%list_elem_of_singleton. done.
Qed.

(** No way out without an [exit] line. On an input none of whose lines
    reads [exit], the last line with or without its line feed,
    [controlRecorder] does not return, whatever the lines are and
    however many passes the loop is given. *)
Theorem input_without_exit_line_never_returns
    (fuel : nat) (p : bool) (input out : string) (on : bool) :
  "exit" ∉ lines input →
  controlRecorder fuel (stream_of input) out on p = None.
Proof.
  intros Hfree. unfold controlRecorder.
  assert (Hloop : ∀ n st, exit_free st → control_loop n p st = None).
  { induction n as [|n IH]; intros st Hst.
    - destruct Hst as (Hq & _). simpl. by rewrite Hq.
    - pose proof Hst as (Hq & _). simpl. rewrite Hq.
      apply IH. by apply loop_body_exit_free. }
  rewrite Hloop; [done|]. split_and!; try done. intros w c H. by left.
Qed.

(** [start] without its line feed: the end of the input does not end the
    loop, the command is carried out again on every pass. *)
Example unterminated_start_repeats :
  c_out (Nat.iter 3 (loop_body false)
           (Control (stream_of "start") "" false initial_cmd_map "" false))
  = "Recording ON." +:+ endl +:+ "Recording ON." +:+ endl
      +:+ "Recording ON." +:+ endl.
Proof. vm_compute. reflexivity. Qed.

Lemma input_without_exit_line_never_returns_witness :
  ("exit" ∉ lines "start")
  ∧ controlRecorder 7 (stream_of "start") "" false false = None.
Proof.
  assert (H : "exit" ∉ lines "start").
  { change (lines "start") with ["start"].
    intros H%list_elem_of_singleton. discriminate. }
  split; [exact H|].
  exact (input_without_exit_line_never_returns 7 false "start" "" false H).
Defined.

Lemma unknown_line_ends_the_session_witness :
  has_LF "new" = false
  ∧ controlRecorder 5 (stream_of ("new" +:+ endl +:+ "exit" +:+ endl))
      "" true false = None.
Proof.
  split; [reflexivity|].
  assert (H1 : "new" ≠ "exit") by discriminate.
  assert (H2 : "new" ≠ "help") by discriminate.
  assert (H3 : "new" ≠ "start") by discriminate.
  assert (H4 : "new" ≠ "stop") by discriminate.
  exact (proj1 (unknown_line_ends_the_session 5 0 false "new"
                  ("exit" +:+ endl) "" true eq_refl H1 H2 H3 H4)).
Defined.

Lemma controlRecorder_returns_only_on_exit_witness :
  ∃ st, controlRecorder 3 (stream_of ("stop" +:+ endl +:+ "exit" +:+ endl))
          "" true false = Some (0, st)
        ∧ record_on st = false
        ∧ cmd st = "exit".
Proof.
  eexists. split; [reflexivity|]. split; [reflexivity|].
  exact (proj1 (proj2 (proj2
    (controlRecorder_returns_only_on_exit 3
       (stream_of ("stop" +:+ endl +:+ "exit" +:+ endl)) "" true false 0 _
       eq_refl)))).
Defined.

End RecordControl.

(* ===================================================================== *)
(** * src/recorder/Recorder.cpp *)
(* ===================================================================== *)

Module Recorder.

#[local] Open Scope nat_scope.

Section Recorder.

(** [Mat] is [cv::Mat] and [Position] is [oat::Position2D]; both are
    opaque to the recorder. [empty_mat] and [default_position] are their
    default-constructed values. [frame_write_buffer_size] is the capacity
    of the frame queues (a constant of Recorder.h). *)
Variable Mat : Type.
Variable Position : Type.
Variable empty_mat : Mat.
Variable default_position : Position.
Variable frame_write_buffer_size : nat.

(** ** Collaborators *)

(** Modelled from the spec: [oat::MatClient] (lib/shmem, not among the
    sources), a frame SOURCE as the recorder sees it: what its node will
    deliver to the successive calls of [getSharedMat], [Some f] for a
    sample and [None] for a call that returns [false]. *)
Record MatClient := MatSource {
  m_name : string;
  m_pending : list (option Mat)
}.

(** Modelled from the spec: [MatClient::getSharedMat(cv::Mat &)] takes
    the next delivery; [Some f] when the call returns [true] and has
    stored [f] in its argument. *)
Definition getSharedMat (c : MatClient) : MatClient * option Mat :=
  match m_pending c with
  | [] => (c, None)
  | d :: rest => (MatSource (m_name c) rest, d)
  end.

(** Modelled from the spec: [oat::SMClient<oat::Position2D>] (lib/shmem,
    not among the sources), a position SOURCE: the pending deliveries,
    each a position with the sample number it was published with, and the
    time stamp of the last object read ([get_current_time_stamp]). *)
Record SMClient := PosSource {
  p_name : string;
  p_pending : list (option (Position * Z));
  current_time_stamp : Z
}.

(** Modelled from the spec: [SMClient::getSharedObject(T &)] takes the
    next delivery; [Some v] when the call returns [true] and has stored
    [v] in its argument. *)
Definition getSharedObject (c : SMClient) : SMClient * option Position :=
  match p_pending c with
  | [] => (c, None)
  | None :: rest => (PosSource (p_name c) rest (current_time_stamp c), None)
  | Some (v, stamp) :: rest => (PosSource (p_name c) rest stamp, Some v)
  end.

(** [boost::lockfree::spsc_queue<cv::Mat, capacity<N>>], oldest element
    first. [push] does not block: on a full queue it stores nothing and
    returns [false]. *)
Definition spsc_queue := list Mat.

Definition push (q : spsc_queue) (x : Mat) : spsc_queue * bool :=
  if length q <? frame_write_buffer_size then (q ++ [x], true)
  else (q, false).

(** [cv::VideoWriter]: whether the container could be opened at all
    (decided by the environment), whether it is open, and the frames
    written so far. *)
Record VideoWriter := Video {
  vw_can_open : bool;
  isOpened : bool;
  vw_frames : list Mat
}.

(** [Recorder::initializeWriter]: [writer.open(...)] *)
Definition initializeWriter (w : VideoWriter) (image : Mat) : VideoWriter :=
  Video (vw_can_open w) (vw_can_open w) (vw_frames w).

(** [cv::VideoWriter::write]: nothing is written unless the writer is
    open. *)
Definition write (w : VideoWriter) (image : Mat) : VideoWriter :=
  if isOpened w then Video (vw_can_open w) true (vw_frames w ++ [image])
  else w.

(** The calls made on the [rapidjson] writer of the position file.
    [Serialized label pos] stands for the object written by
    [Position2D::Serialize(writer, label)] (lib/datatypes, not among the
    sources). *)
Inductive token :=
| StartArray
| EndArray
| Uint (n : Z)
| Serialized (label : string) (pos : Position).

(** ** The recorder *)

Record Recorder := Rec {
  running : bool;
  frame_client_idx : nat;
  position_client_idx : nat;
  frame_read_success : bool;
  position_labels : list string;
  position_sources : list SMClient;
  source_positions : list Position;
  position_fp : bool;
  json_writer : list token;
  frame_sources : list MatClient;
  frame_write_buffers : list spsc_queue;
  video_writers : list VideoWriter;
  current_frame : Mat
}.

Definition set_running (v : bool) (r : Recorder) : Recorder :=
  Rec v (frame_client_idx r) (position_client_idx r) (frame_read_success r)
    (position_labels r) (position_sources r) (source_positions r)
    (position_fp r) (json_writer r) (frame_sources r)
    (frame_write_buffers r) (video_writers r) (current_frame r).

Definition set_client_idx (fi pi : nat) (r : Recorder) : Recorder :=
  Rec (running r) fi pi (frame_read_success r)
    (position_labels r) (position_sources r) (source_positions r)
    (position_fp r) (json_writer r) (frame_sources r)
    (frame_write_buffers r) (video_writers r) (current_frame r).

(** The outcome of one [getSharedMat] on frame source [i]. *)
Definition set_frame_read (i : nat) (c : MatClient) (d : option Mat)
    (r : Recorder) : Recorder :=
  Rec (running r) (frame_client_idx r) (position_client_idx r)
    (bool_decide (is_Some d))
    (position_labels r) (position_sources r) (source_positions r)
    (position_fp r) (json_writer r)
    (<[i := c]> (frame_sources r))
    (frame_write_buffers r) (video_writers r)
    (default (current_frame r) d).

Definition set_frame_write_buffers (b : list spsc_queue) (r : Recorder)
  : Recorder :=
  Rec (running r) (frame_client_idx r) (position_client_idx r)
    (frame_read_success r)
    (position_labels r) (position_sources r) (source_positions r)
    (position_fp r) (json_writer r) (frame_sources r)
    b (video_writers r) (current_frame r).

Definition set_video_writers (w : list VideoWriter) (r : Recorder)
  : Recorder :=
  Rec (running r) (frame_client_idx r) (position_client_idx r)
    (frame_read_success r)
    (position_labels r) (position_sources r) (source_positions r)
    (position_fp r) (json_writer r) (frame_sources r)
    (frame_write_buffers r) w (current_frame r).

(** The outcome of one [getSharedObject] on position source [j]. *)
Definition set_position_read (j : nat) (c : SMClient) (d : option Position)
    (r : Recorder) : Recorder :=
  Rec (running r) (frame_client_idx r) (position_client_idx r)
    (frame_read_success r)
    (position_labels r) (<[j := c]> (position_sources r))
    (match d with
     | Some v => <[j := v]> (source_positions r)
     | None => source_positions r
     end)
    (position_fp r) (json_writer r) (frame_sources r)
    (frame_write_buffers r) (video_writers r) (current_frame r).

Definition set_json_writer (t : list token) (r : Recorder) : Recorder :=
  Rec (running r) (frame_client_idx r) (position_client_idx r)
    (frame_read_success r)
    (position_labels r) (position_sources r) (source_positions r)
    (position_fp r) t (frame_sources r)
    (frame_write_buffers r) (video_writers r) (current_frame r).

(** [Recorder::Recorder]. The environment supplies what each named node
    is going to deliver and whether the position file and the video
    containers can be opened; [None] is [exit(EXIT_FAILURE)] after a
    failed [fopen]. The computation of the file names is left out. *)
Definition new_Recorder (position_source_names frame_source_names : list string)
    (position_feed : string → list (option (Position * Z)))
    (frame_feed : string → list (option Mat))
    (fopen_ok codec_ok : bool) : option Recorder :=
  let has_positions := negb (bool_decide (position_source_names = [])) in
  if has_positions && negb fopen_ok then None
  else Some
    {| running := true;
       frame_client_idx := 0;
       position_client_idx := 0;
       frame_read_success := bool_decide (frame_source_names = []);
       position_labels := position_source_names;
       position_sources :=
         map (λ nm, PosSource nm (position_feed nm) 0) position_source_names;
       source_positions := map (λ _, default_position) position_source_names;
       position_fp := has_positions;
       (* json_writer.StartArray() *)
       json_writer := if has_positions then [StartArray] else [];
       frame_sources :=
         map (λ nm, MatSource nm (frame_feed nm)) frame_source_names;
       frame_write_buffers := map (λ _, []) frame_source_names;
       video_writers := map (λ _, Video codec_ok false []) frame_source_names;
       current_frame := empty_mat |}.

(** The first loop of [writeStreams]; [fuel] bounds the number of passes.
    A failed read leaves the loop with [frame_read_success] false. *)
Fixpoint read_frames (fuel : nat) (r : Recorder) : Recorder :=
  match fuel with
  | O => r
  | S n =>
      let i := frame_client_idx r in
      (* while (frame_client_idx < frame_sources.size()) *)
      match frame_sources r !! i with
      | None => r
      | Some src =>
          let '(src1, d) := getSharedMat src in
          let r1 := set_frame_read i src1 d r in
          match d with
          | None => r1 (* break *)
          | Some _ =>
              (* Push newest frame into client N's queue *)
              let r2 :=
                set_frame_write_buffers
                  (alter (λ q, fst (push q (current_frame r1))) i
                     (frame_write_buffers r1)) r1 in
              read_frames n
                (set_client_idx (S i) (position_client_idx r2) r2)
          end
      end
  end.

(** The second loop of [writeStreams]. The flag tells whether the loop ran
    to its end ([true]) or left the function on a failed read. *)
Fixpoint read_positions (fuel : nat) (r : Recorder) : Recorder * bool :=
  match fuel with
  | O => (r, bool_decide (length (position_sources r) ≤ position_client_idx r))
  | S n =>
      let j := position_client_idx r in
      (* while (position_client_idx < position_sources.size()) *)
      match position_sources r !! j with
      | None => (r, true)
      | Some src =>
          let '(src1, d) := getSharedObject src in
          let r1 := set_position_read j src1 d r in
          match d with
          | None => (r1, false) (* return *)
          | Some _ =>
              read_positions n (set_client_idx (frame_client_idx r1) (S j) r1)
          end
      end
  end.

(** The loop of [writePositionsToFile] over [source_positions]; [idx]
    selects the label. *)
Fixpoint serialize_positions (idx : nat) (labels : list string)
    (ps : list Position) : list token :=
  match ps with
  | [] => []
  | pos :: rest =>
      Serialized (default "" (labels !! idx)) pos
        :: serialize_positions (S idx) labels rest
  end.

(** [Recorder::writePositionsToFile] *)
Definition writePositionsToFile (r : Recorder) : Recorder :=
  if position_fp r then
    let stamp :=
      match position_sources r !! 0 with
      | Some src => current_time_stamp src
      | None => 0%Z
      end in
    set_json_writer
      (json_writer r
         ++ [StartArray; Uint stamp; StartArray]
         ++ serialize_positions 0 (position_labels r) (source_positions r)
         ++ [EndArray; EndArray]) r
  else r.

(** How a call of [writeStreams] ended: at the [return] of the position
    loop, at the [return] that follows a failed frame read, or at its last
    line, after the tick has been fully processed. *)
Inductive outcome := PositionMissing | FrameMissing | TickDone.

(** [Recorder::writeStreams] *)
Definition writeStreams (r : Recorder) : Recorder * outcome :=
  let r1 :=
    read_frames (length (frame_sources r) - frame_client_idx r) r in
  (* Get current positions *)
  let '(r2, complete) :=
    read_positions (length (position_sources r1) - position_client_idx r1)
      r1 in
  if negb complete then (r2, PositionMissing)
  else if negb (frame_read_success r2) then (r2, FrameMissing)
  else
    (* Reset the position client read counter *)
    (writePositionsToFile (set_client_idx 0 0 r2), TickDone).

(** One pass through the body of the loop of
    [writeFramesToFileFromBuffer]; the timed wait changes nothing. *)
Definition writer_pass (writer_idx : nat) (r : Recorder) : Recorder :=
  match frame_write_buffers r !! writer_idx,
        video_writers r !! writer_idx with
  | Some (front :: rest), Some w =>
      (* read_available() is not zero *)
      let w1 := if isOpened w then w else initializeWriter w front in
      set_frame_write_buffers
        (<[writer_idx := rest]> (frame_write_buffers r))
        (set_video_writers
           (<[writer_idx := write w1 front]> (video_writers r)) r)
  | _, _ => r
  end.

(** The last lines of [Recorder::~Recorder], run once every writer thread
    has been joined. *)
Definition close_position_file (r : Recorder) : Recorder :=
  if position_fp r then set_json_writer (json_writer r ++ [EndArray]) r
  else r.

(** ** The recorder and its writer threads *)

(** The recorder together with, for each writer thread, whether it has
    returned from [writeFramesToFileFromBuffer]. *)
Record system := Sys {
  recorder : Recorder;
  exited : list bool
}.

(** [Recorder::writeFramesToFileFromBuffer], one turn of the thread: the
    test [while (running)] and, if it holds, one pass through the body.
    [None] when the test fails and the thread returns. *)
Definition writeFramesToFileFromBuffer (writer_idx : nat) (r : Recorder)
  : option Recorder :=
  if running r then Some (writer_pass writer_idx r) else None.

(** What can happen next: the coordinator calls [writeStreams]; writer
    thread [i], if it has not returned yet, takes a turn; the destructor
    clears [running]. *)
Inductive event := Tick | Pass (i : nat) | Stop.

Definition step (s : system) (e : event) : system :=
  match e with
  | Tick => Sys (fst (writeStreams (recorder s))) (exited s)
  | Stop => Sys (set_running false (recorder s)) (exited s)
  | Pass i =>
      match exited s !! i with
      | Some false =>
          match writeFramesToFileFromBuffer i (recorder s) with
          | Some r => Sys r (exited s)
          | None => Sys (recorder s) (<[i := true]> (exited s))
          end
      | _ => s
      end
  end.

Definition exec (s : system) (tr : list event) : system :=
  fold_left step tr s.

(** The system right after construction: every writer thread started. *)
Definition start (r : Recorder) : system :=
  Sys r (map (λ _, false) (frame_sources r)).


(** ** The destructor *)

(** When the destructor clears [running], a writer thread that has not
    returned is either about to test [running], and returns, or it has
    passed the test already ([in_pass]): it then completes its pass,
    timed wait, write and pop, before it tests [running] again and
    returns. The threads work on different queues and writers, so their
    last passes are taken in the order of the threads. *)
Definition last_passes (in_pass : nat → bool) (ex : list bool)
    (r : Recorder) : Recorder :=
  fold_left
    (λ r i, if negb (default true (ex !! i)) && in_pass i
            then writer_pass i r else r)
    (seq 0 (length ex)) r.

(** [running = false] and the loop of [join]s: the state in which every
    writer thread has returned. *)
Definition join_threads (in_pass : nat → bool) (s : system) : system :=
  Sys (last_passes in_pass (exited s) (set_running false (recorder s)))
      (map (λ _, true) (exited s)).

(** How the destructor ends: it runs to its last line, or it reaches a
    [delete] whose behaviour is undefined, in the state given. *)
Inductive destroyed :=
| Destroyed (s : system)
| Undefined (s : system).

(** [Recorder::~Recorder]. After the joins, the loops over
    [frame_write_threads], [frame_write_mutexes] and
    [frame_write_condition_variables] apply [delete] to [&value], the
    address of an element of the vector, which no [new] has returned:
    with an element in these vectors, one per writer thread, the
    behaviour is undefined from there on, before the position file is
    closed. The other [delete] statements release what the constructor
    allocated. *)
Definition destructor (in_pass : nat → bool) (s : system) : destroyed :=
  let s1 := join_threads in_pass s in
  match exited s1 with
  | [] => Destroyed (Sys (close_position_file (recorder s1)) [])
  | _ :: _ => Undefined s1
  end.

(** ** Properties of the frame loop *)

(** The frame a source holds ready for the next call, if any. *)
Definition ready (c : MatClient) : option Mat :=
  match m_pending c with
  | Some f :: _ => Some f
  | _ => None
  end.

(** The members the position loop and the position file work on. *)
Definition position_state (r : Recorder) :=
  (position_client_idx r, position_labels r, position_sources r,
   source_positions r, position_fp r, json_writer r).

(** The members the frame loop and the writer threads work on. *)
Definition frame_state (r : Recorder) :=
  (frame_client_idx r, frame_read_success r, frame_sources r,
   frame_write_buffers r, video_writers r, current_frame r).

Lemma read_frames_position_state (fuel : nat) (r : Recorder) :
  position_state (read_frames fuel r) = position_state r
  ∧ running (read_frames fuel r) = running r
  ∧ video_writers (read_frames fuel r) = video_writers r
  ∧ length (frame_sources (read_frames fuel r)) = length (frame_sources r)
  ∧ length (frame_write_buffers (read_frames fuel r))
    = length (frame_write_buffers r).
Proof.
  revert r. induction fuel as [|n IH]; intros r; [done|].
  simpl. destruct (frame_sources r !! frame_client_idx r) as [src|]; [|done].
  destruct (getSharedMat src) as [src1 [f|]].
  - destruct (IH (set_client_idx (S (frame_client_idx r))
                    (position_client_idx r)
                    (set_frame_write_buffers
                       (alter (λ q, fst (push q f)) (frame_client_idx r)
                          (frame_write_buffers r))
                       (set_frame_read (frame_client_idx r) src1 (Some f) r))))
      as (H1 & H2 & H3 & H4 & H5).
    simpl in *. rewrite H1, H2, H3, H4, H5.
    by rewrite length_insert, length_alter.
  - simpl. by rewrite length_insert.
Qed.

Lemma read_positions_frame_state (fuel : nat) (r : Recorder) :
  frame_state (fst (read_positions fuel r)) = frame_state r
  ∧ running (fst (read_positions fuel r)) = running r.
Proof.
  revert r. induction fuel as [|n IH]; intros r; [done|].
  simpl. destruct (position_sources r !! position_client_idx r) as [src|];
    [|done].
  destruct (getSharedObject src) as [src1 [v|]]; [|done].
  destruct (IH (set_client_idx (frame_client_idx r)
                  (S (position_client_idx r))
                  (set_position_read (position_client_idx r) src1 (Some v) r)))
    as [H1 H2].
  simpl in *. by rewrite H1, H2.
Qed.

(** [length (frame_sources r) - frame_client_idx r] passes are enough for
    the frame loop: it ends because its condition fails or at its
    [break]. *)
Lemma read_frames_exits (fuel : nat) (r : Recorder) :
  length (frame_sources r) - frame_client_idx r ≤ fuel →
  frame_sources (read_frames fuel r) !! frame_client_idx (read_frames fuel r)
    = None
  ∨ frame_read_success (read_frames fuel r) = false.
Proof.
  revert r. induction fuel as [|n IH]; intros r Hfuel.
  - left. simpl. apply lookup_ge_None. lia.
  - simpl.
    destruct (frame_sources r !! frame_client_idx r) as [src|] eqn:Hsrc;
      [|by left].
    destruct (getSharedMat src) as [src1 [f|]].
    + apply IH. simpl. rewrite length_insert. lia.
    + by right.
Qed.

(** Likewise for the position loop: when it reports that it ran to its
    end, its condition fails. *)
Lemma read_positions_exits (fuel : nat) (r : Recorder) :
  snd (read_positions fuel r) = true →
  position_sources (fst (read_positions fuel r))
    !! position_client_idx (fst (read_positions fuel r)) = None.
Proof.
  revert r. induction fuel as [|n IH]; intros r.
  - simpl. intros H. apply bool_decide_eq_true in H. by apply lookup_ge_None.
  - simpl.
    destruct (position_sources r !! position_client_idx r) as [src|] eqn:Hsrc;
      [|done].
    destruct (getSharedObject src) as [src1 [v|]]; [|done].
    apply IH.
Qed.

(** The frame members after a whole call of [writeStreams] are those the
    frame loop left behind. *)
Lemma writeStreams_frames (r : Recorder) :
  let r1 := read_frames (length (frame_sources r) - frame_client_idx r) r in
  frame_sources (fst (writeStreams r)) = frame_sources r1
  ∧ frame_write_buffers (fst (writeStreams r)) = frame_write_buffers r1
  ∧ video_writers (fst (writeStreams r)) = video_writers r
  ∧ running (fst (writeStreams r)) = running r.
Proof.
  intros r1. unfold writeStreams. fold r1.
  destruct (read_positions_frame_state
              (length (position_sources r1) - position_client_idx r1) r1)
    as [Hf Hr].
  destruct (read_frames_position_state
              (length (frame_sources r) - frame_client_idx r) r)
    as (_ & Hr1 & Hv1 & _).
  fold r1 in Hr1, Hv1.
  destruct (read_positions _ r1) as [r2 complete]. simpl in Hf, Hr.
  injection Hf as _ _ Hs Hb Hv _.
  assert (Hw : ∀ x, frame_sources (writePositionsToFile x) = frame_sources x
                    ∧ frame_write_buffers (writePositionsToFile x)
                      = frame_write_buffers x
                    ∧ video_writers (writePositionsToFile x) = video_writers x
                    ∧ running (writePositionsToFile x) = running x).
  { intros x. unfold writePositionsToFile. by destruct (position_fp x). }
  destruct complete; simpl; [|by rewrite Hs, Hb, Hv, Hr, Hv1, Hr1].
  destruct (frame_read_success r2); simpl;
    [|by rewrite Hs, Hb, Hv, Hr, Hv1, Hr1].
  destruct (Hw (set_client_idx 0 0 r2)) as (-> & -> & -> & ->). simpl.
  by rewrite Hs, Hb, Hv, Hr, Hv1, Hr1.
Qed.

(** What [getSharedMat] does to a source and what it delivers. *)
Lemma getSharedMat_spec (c : MatClient) :
  getSharedMat c = (MatSource (m_name c) (tail (m_pending c)), ready c).
Proof.
  unfold getSharedMat, ready. destruct c as [nm [|[f|] rest]]; reflexivity.
Qed.

(** The frame loop in general: it reads the sources from
    [frame_client_idx] up to the first one, number [k], that has no frame
    ready; each frame read goes through one [push] on the queue of its
    stream, and no other queue is touched. *)
Lemma read_frames_pushes (fuel : nat) (r : Recorder) :
  length (frame_sources r) - frame_client_idx r ≤ fuel →
  ∃ k,
    frame_client_idx r ≤ k
    ∧ (∀ j, frame_client_idx r ≤ j < k →
         is_Some (frame_sources r !! j ≫= ready))
    ∧ frame_sources r !! k ≫= ready = None
    ∧ (∀ i (q : spsc_queue), frame_write_buffers r !! i = Some q →
         frame_write_buffers (read_frames fuel r) !! i
         = Some (if decide (frame_client_idx r ≤ i < k)
                 then match frame_sources r !! i ≫= ready with
                      | Some f =>
                          if length q <? frame_write_buffer_size
                          then q ++ [f] else q
                      | None => q
                      end
                 else q))
    ∧ (∀ i src, frame_sources r !! i = Some src →
         frame_sources (read_frames fuel r) !! i
         = Some (if decide (frame_client_idx r ≤ i ≤ k)
                 then MatSource (m_name src) (tail (m_pending src))
                 else src)).
Proof.
  revert r. induction fuel as [|n IH]; intros r Hfuel.
  - exists (frame_client_idx r). simpl.
    assert (Hnone : frame_sources r !! frame_client_idx r = None)
      by (apply lookup_ge_None; lia).
    split_and!; [lia|intros j Hj; lia|by rewrite Hnone| |].
    + intros i q Hi. rewrite decide_False by lia. exact Hi.
    + intros i src Hsrc. rewrite Hsrc.
      rewrite decide_False; [done|]. intros [? ?].
      assert (i = frame_client_idx r) as -> by lia. congruence.
  - cbn [read_frames].
    destruct (frame_sources r !! frame_client_idx r) as [src0|] eqn:Hsrc0.
    2: { exists (frame_client_idx r).
         split_and!; [lia|intros j Hj; lia|by rewrite Hsrc0| |].
         - intros i q Hi. rewrite decide_False by lia. exact Hi.
         - intros i src Hsrc. rewrite Hsrc.
           rewrite decide_False; [done|]. intros [? ?].
           assert (i = frame_client_idx r) as -> by lia. congruence. }
    pose proof (lookup_lt_Some _ _ _ Hsrc0) as Hlt.
    rewrite getSharedMat_spec. destruct (ready src0) as [f|] eqn:Hf.
    + set (r3 := set_client_idx _ _ _).
      destruct (IH r3) as (k & Hk & Hready & Hstop & Hq & Hs).
      { subst r3; simpl. rewrite length_insert. lia. }
      assert (Hidx : frame_client_idx r3 = S (frame_client_idx r))
        by reflexivity.
      assert (Hsrcs : ∀ j, j ≠ frame_client_idx r →
                frame_sources r3 !! j = frame_sources r !! j).
      { intros j Hj. subst r3; simpl. by rewrite list_lookup_insert_ne. }
      rewrite Hidx in Hk, Hready, Hq, Hs.
      exists k. split_and!.
      * lia.
      * intros j Hj. destruct (decide (j = frame_client_idx r)) as [->|Hne].
        -- rewrite Hsrc0. simpl. rewrite Hf. by eexists.
        -- rewrite <- Hsrcs by done. apply Hready. lia.
      * rewrite <- Hsrcs by lia. exact Hstop.
      * intros i q Hi.
        destruct (decide (i = frame_client_idx r)) as [->|Hne].
        -- etrans; [apply (Hq _ (fst (push q f)))|].
           { subst r3; simpl. rewrite list_lookup_alter_eq.
             apply fmap_Some. exists q. split; [exact Hi|done]. }
           rewrite decide_False by lia. rewrite decide_True by lia.
           rewrite Hsrc0. simpl. rewrite Hf. unfold push.
           by destruct (length q <? frame_write_buffer_size).
        -- etrans; [apply (Hq _ q)|].
           { subst r3; simpl. rewrite list_lookup_alter_ne by done.
             exact Hi. }
           rewrite Hsrcs by done.
           destruct (decide (S (frame_client_idx r) ≤ i < k)).
           ++ by rewrite decide_True by lia.
           ++ by rewrite decide_False by lia.
      * intros i src Hi.
        destruct (decide (i = frame_client_idx r)) as [->|Hne].
        -- rewrite (Hs _ (MatSource (m_name src0) (tail (m_pending src0)))).
           2: { subst r3; simpl. by rewrite list_lookup_insert_eq. }
           rewrite decide_False by lia. rewrite decide_True by lia.
           congruence.
        -- rewrite (Hs _ src) by (by rewrite Hsrcs).
           destruct (decide (S (frame_client_idx r) ≤ i ≤ k)).
           ++ by rewrite decide_True by lia.
           ++ by rewrite decide_False by lia.
    + exists (frame_client_idx r).
      split_and!; [lia|intros j Hj; lia| | |].
      * rewrite Hsrc0. exact Hf.
      * intros i q Hi. simpl. rewrite decide_False by lia. exact Hi.
      * intros i src Hi. simpl.
        destruct (decide (i = frame_client_idx r)) as [->|Hne].
        -- rewrite list_lookup_insert_eq by done.
           rewrite decide_True by lia. congruence.
        -- rewrite list_lookup_insert_ne by done. rewrite Hi.
           by rewrite decide_False by lia.
Qed.

(** The recorder without its frame queues. *)
Definition without_queues (r : Recorder) : Recorder :=
  set_frame_write_buffers [] r.

(** What is in the frame queues has no influence on anything else the
    frame loop does. *)
Lemma read_frames_queues (fuel : nat) (r : Recorder)
    (b : list spsc_queue) :
  without_queues (read_frames fuel (set_frame_write_buffers b r))
  = without_queues (read_frames fuel r).
Proof.
  revert r b. induction fuel as [|n IH]; intros r b; [done|].
  cbn [read_frames].
  change (frame_client_idx (set_frame_write_buffers b r))
    with (frame_client_idx r).
  change (frame_sources (set_frame_write_buffers b r))
    with (frame_sources r).
  destruct (frame_sources r !! frame_client_idx r) as [src|]; [|done].
  destruct (getSharedMat src) as [src1 [f|]]; [|done].
  set (r2 := set_client_idx (S (frame_client_idx r)) (position_client_idx r)
               (set_frame_read (frame_client_idx r) src1 (Some f) r)).
  etrans; [apply (IH r2
    (alter (λ q, fst (push q f)) (frame_client_idx r) b))|].
  symmetry.
  apply (IH r2 (alter (λ q, fst (push q f)) (frame_client_idx r)
                  (frame_write_buffers r))).
Qed.

Lemma read_positions_queues (fuel : nat) (r : Recorder)
    (b : list spsc_queue) :
  read_positions fuel (set_frame_write_buffers b r)
  = (set_frame_write_buffers b (fst (read_positions fuel r)),
     snd (read_positions fuel r)).
Proof.
  revert r. induction fuel as [|n IH]; intros r; [done|].
  cbn [read_positions].
  change (position_client_idx (set_frame_write_buffers b r))
    with (position_client_idx r).
  change (position_sources (set_frame_write_buffers b r))
    with (position_sources r).
  destruct (position_sources r !! position_client_idx r) as [src|]; [|done].
  destruct (getSharedObject src) as [src1 [v|]]; [|done].
  apply (IH (set_client_idx (frame_client_idx r) (S (position_client_idx r))
               (set_position_read (position_client_idx r) src1 (Some v) r))).
Qed.

(** How a call of [writeStreams] ends does not depend on the queues. *)
Lemma writeStreams_outcome_queues (r : Recorder) (b : list spsc_queue) :
  snd (writeStreams (set_frame_write_buffers b r)) = snd (writeStreams r).
Proof.
  unfold writeStreams.
  change (frame_client_idx (set_frame_write_buffers b r))
    with (frame_client_idx r).
  change (frame_sources (set_frame_write_buffers b r))
    with (frame_sources r).
  pose proof (read_frames_queues
                (length (frame_sources r) - frame_client_idx r) r b) as Hq.
  set (r1 := read_frames _ (set_frame_write_buffers b r)) in *.
  set (r1' := read_frames _ r) in *.
  assert (Hr1 : r1 = set_frame_write_buffers (frame_write_buffers r1) r1').
  { destruct r1, r1'. unfold without_queues in Hq. cbn in Hq.
    injection Hq as -> -> -> -> -> -> -> -> -> -> -> ->. done. }
  rewrite Hr1.
  change (position_client_idx (set_frame_write_buffers _ r1'))
    with (position_client_idx r1').
  change (position_sources (set_frame_write_buffers _ r1'))
    with (position_sources r1').
  rewrite read_positions_queues.
  destruct (read_positions _ r1') as [r2 complete]. cbn [fst snd].
  destruct complete; [|done]. cbn [negb].
  change (frame_read_success (set_frame_write_buffers _ r2))
    with (frame_read_success r2).
  by destruct (frame_read_success r2).
Qed.

(** C2 (as amended). The coordinator never waits on a frame queue. On
    every call of [writeStreams], from any state, the frame loop reads
    the sources from [frame_client_idx] up to the first one, number [k],
    that has no frame ready. Each frame read is taken from its source
    and goes through one [push], which does not block: the frame is
    appended to the queue of its stream when that queue holds fewer than
    [frame_write_buffer_size] frames, and the queue is left as it was
    when it is full. The queue of every other stream is left alone, and
    only the sources up to number [k] are read. What the queues hold,
    and so whether a push has stored its frame, has no influence on how
    the call ends. *)
Theorem writeStreams_pushes_without_waiting (r : Recorder) :
  (∀ b, snd (writeStreams (set_frame_write_buffers b r))
        = snd (writeStreams r))
  ∧ ∃ k,
    frame_client_idx r ≤ k
    ∧ (∀ j, frame_client_idx r ≤ j < k →
         is_Some (frame_sources r !! j ≫= ready))
    ∧ frame_sources r !! k ≫= ready = None
    ∧ (∀ i (q : spsc_queue), frame_write_buffers r !! i = Some q →
         frame_write_buffers (fst (writeStreams r)) !! i
         = Some (if decide (frame_client_idx r ≤ i < k)
                 then match frame_sources r !! i ≫= ready with
                      | Some f =>
                          if length q <? frame_write_buffer_size
                          then q ++ [f] else q
                      | None => q
                      end
                 else q))
    ∧ (∀ i src, frame_sources r !! i = Some src →
         frame_sources (fst (writeStreams r)) !! i
         = Some (if decide (frame_client_idx r ≤ i ≤ k)
                 then MatSource (m_name src) (tail (m_pending src))
                 else src)).
Proof.
  split; [intros b; apply writeStreams_outcome_queues|].
  destruct (writeStreams_frames r) as (-> & -> & _).
  by apply read_frames_pushes.
Qed.

(** ** Properties of the writer threads *)

(** A thread that has returned has seen [running] false, and [running]
    never becomes true again. *)
Definition exits_justified (s : system) : Prop :=
  ∀ i, exited s !! i = Some true → running (recorder s) = false.

Lemma writer_pass_running (i : nat) (r : Recorder) :
  running (writer_pass i r) = running r.
Proof.
  unfold writer_pass.
  destruct (frame_write_buffers r !! i) as [[|front rest]|]; try done.
  by destruct (video_writers r !! i).
Qed.

Lemma step_exits_justified (s : system) (e : event) :
  exits_justified s → exits_justified (step s e).
Proof.
  intros Hs i. destruct e as [|j|]; simpl.
  - destruct (writeStreams_frames (recorder s)) as (_ & _ & _ & ->). apply Hs.
  - destruct (exited s !! j) as [[|]|] eqn:Hj; try apply Hs.
    unfold writeFramesToFileFromBuffer.
    destruct (running (recorder s)) eqn:Hr; simpl.
    + rewrite writer_pass_running, Hr. intros H. rewrite <- Hr. by eapply Hs.
    + done.
  - done.
Qed.

Lemma exec_exits_justified (s : system) (tr : list event) :
  exits_justified s → exits_justified (exec s tr).
Proof.
  revert s. induction tr as [|e tr IH]; intros s Hs; [done|].
  simpl. apply IH. by apply step_exits_justified.
Qed.

(** C3 (as amended). A writer thread leaves its loop when, and only when,
    it finds [running] false at the head of the loop, whatever its queue
    holds: the frames still queued then stay unwritten, and the thread
    does nothing afterwards. While [running] holds, a pass over a
    non-empty queue pops the front frame, after writing it to the video
    file when the writer is open or can be opened on this pass; when the
    container cannot be opened the frame is popped and written nowhere.
    A pass over an empty queue does nothing. *)
Theorem writer_thread_exits_on_running_false
    (r0 : Recorder) (tr : list event) (i : nat) :
  let s := exec (start r0) tr in
  (exited s !! i = Some true →
     running (recorder s) = false ∧ step s (Pass i) = s)
  ∧ (exited s !! i = Some false → running (recorder s) = false →
       writeFramesToFileFromBuffer i (recorder s) = None
       ∧ step s (Pass i) = Sys (recorder s) (<[i := true]> (exited s)))
  ∧ (exited s !! i = Some false → running (recorder s) = true →
       exited (step s (Pass i)) = exited s
       ∧ (frame_write_buffers (recorder s) !! i = Some [] →
            recorder (step s (Pass i)) = recorder s)
       ∧ (∀ front rest w,
            frame_write_buffers (recorder s) !! i = Some (front :: rest) →
            video_writers (recorder s) !! i = Some w →
            frame_write_buffers (recorder (step s (Pass i))) !! i = Some rest
            ∧ vw_frames <$> video_writers (recorder (step s (Pass i))) !! i
              = Some (if isOpened w || vw_can_open w
                      then vw_frames w ++ [front]
                      else vw_frames w))).
Proof.
  intros s. split_and!.
  - intros He. split; [|by simpl; rewrite He].
    revert He. apply exec_exits_justified. intros j Hj.
    unfold start in Hj; simpl in Hj.
    apply list_lookup_fmap_Some in Hj as (? & ? & ?). done.
  - intros He Hr. unfold step, writeFramesToFileFromBuffer.
    by rewrite He, Hr.
  - intros He Hr. unfold step, writeFramesToFileFromBuffer.
    rewrite He, Hr. simpl. split_and!.
    + reflexivity.
    + intros Hq. unfold writer_pass. by rewrite Hq.
    + intros front rest w Hq Hw. unfold writer_pass. rewrite Hq, Hw.
      simpl. pose proof (lookup_lt_Some _ _ _ Hq) as Hlq.
      pose proof (lookup_lt_Some _ _ _ Hw) as Hlw.
      rewrite !list_lookup_insert_eq by done. split; [done|].
      simpl. unfold write, initializeWriter.
      destruct (isOpened w) eqn:Ho; simpl.
      * by rewrite Ho.
      * by destruct (vw_can_open w).
Qed.

(** ** Properties of the position file *)

(** The objects a position source delivers, in order, each with its
    sample number. *)
Definition deliveries (c : SMClient) : list (Position * Z) :=
  omap id (p_pending c).

(** The position and the sample number of delivery number [t]. *)
Definition position_at (c0 : SMClient) (t : nat) : Position :=
  default default_position (fst <$> deliveries c0 !! t).

Definition stamp_at (orig : list SMClient) (t : nat) : Z :=
  default 0%Z (orig !! 0 ≫= λ c0, snd <$> deliveries c0 !! t).

(** The writer calls made for tick number [t]. *)
Definition tick_tokens (orig : list SMClient) (labels : list string)
    (t : nat) : list token :=
  [StartArray; Uint (stamp_at orig t); StartArray]
    ++ serialize_positions 0 labels (map (λ c0, position_at c0 t) orig)
    ++ [EndArray; EndArray].

(** The state of the position side after [T] fully processed ticks, for
    sources that started out as [orig]: source [j] has handed over its
    first [T] deliveries, and one more if the position loop is already
    past it, in which case [source_positions] holds that delivery. *)
Record position_inv (orig : list SMClient) (labels : list string)
    (T : nat) (r : Recorder) : Prop := PositionInv {
  pi_nonempty : 0 < length orig;
  pi_sources : length (position_sources r) = length orig;
  pi_positions : length (source_positions r) = length orig;
  pi_labels : position_labels r = labels;
  pi_fp : position_fp r = true;
  pi_idx : position_client_idx r ≤ length orig;
  pi_taken : ∀ j c0 c,
    orig !! j = Some c0 → position_sources r !! j = Some c →
    deliveries c
    = drop (if decide (j < position_client_idx r) then S T else T)
        (deliveries c0)
    ∧ (j < position_client_idx r →
       ∃ v, deliveries c0 !! T = Some (v, current_time_stamp c)
            ∧ source_positions r !! j = Some v);
  pi_ticks : ∀ j c0, orig !! j = Some c0 → T ≤ length (deliveries c0);
  pi_json :
    json_writer r = StartArray :: concat (map (tick_tokens orig labels) (seq 0 T))
}.

Lemma position_inv_state orig labels T (r r' : Recorder) :
  position_state r' = position_state r →
  position_inv orig labels T r → position_inv orig labels T r'.
Proof.
  intros [= H1 H2 H3 H4 H5 H6] [].
  constructor; rewrite ?H1, ?H2, ?H3, ?H4, ?H5, ?H6; done.
Qed.

Lemma getSharedObject_deliveries (c : SMClient) :
  match getSharedObject c with
  | (c1, Some v) =>
      deliveries c = (v, current_time_stamp c1) :: deliveries c1
  | (c1, None) =>
      deliveries c1 = deliveries c
      ∧ current_time_stamp c1 = current_time_stamp c
  end.
Proof.
  unfold getSharedObject, deliveries.
  destruct c as [nm [|[[v ts]|] rest] st]; simpl; done.
Qed.

Lemma drop_cons_inv {A} (n : nat) (l l' : list A) (x : A) :
  drop n l = x :: l' → l !! n = Some x ∧ drop (S n) l = l'.
Proof.
  intros H.
  assert (Hx : l !! n = Some x).
  { rewrite <- (Nat.add_0_r n), <- lookup_drop, H. done. }
  split; [done|]. rewrite (drop_S _ _ _ Hx) in H. by injection H.
Qed.

(** The position loop keeps the invariant, and runs to its end unless a
    read fails. *)
Lemma read_positions_inv orig labels T (fuel : nat) (r : Recorder) :
  fuel = length (position_sources r) - position_client_idx r →
  position_inv orig labels T r →
  position_inv orig labels T (fst (read_positions fuel r))
  ∧ (snd (read_positions fuel r) = true →
     position_client_idx (fst (read_positions fuel r)) = length orig).
Proof.
  revert r. induction fuel as [|n IH]; intros r Hfuel Hinv.
  - simpl. split; [done|]. intros H. apply bool_decide_eq_true in H.
    destruct Hinv. lia.
  - simpl.
    destruct (position_sources r !! position_client_idx r) as [src|] eqn:Hsrc.
    2: { apply lookup_ge_None in Hsrc. lia. }
    pose proof (lookup_lt_Some _ _ _ Hsrc) as Hlt.
    pose proof (getSharedObject_deliveries src) as Hget.
    destruct (getSharedObject src) as [src1 [v|]].
    + set (r2 := set_client_idx _ _ _). apply IH.
      { subst r2; simpl. rewrite length_insert. lia. }
      destruct Hinv. subst r2. constructor; simpl;
        rewrite ?length_insert; try done; try lia.
      intros j c0 c Hc0 Hc.
      destruct (decide (j = position_client_idx r)) as [->|Hne].
      * rewrite list_lookup_insert_eq in Hc by done. injection Hc as <-.
        destruct (pi_taken0 _ _ _ Hc0 Hsrc) as [Hd _].
        rewrite decide_False in Hd by lia. rewrite Hget in Hd.
        symmetry in Hd. apply drop_cons_inv in Hd as [Hd1 Hd2].
        rewrite decide_True by lia. split; [done|]. intros _.
        exists v. split; [done|].
        rewrite list_lookup_insert_eq by lia. done.
      * rewrite list_lookup_insert_ne in Hc by done.
        destruct (pi_taken0 _ _ _ Hc0 Hc) as [Hd Hv].
        rewrite list_lookup_insert_ne by done.
        destruct (decide (j < position_client_idx r)).
        -- rewrite decide_True by lia. split; [done|]. intros _. by apply Hv.
        -- rewrite decide_False by lia. split; [done|]. lia.
    + simpl. split; [|done].
      destruct Hget as [Hd Hs]. destruct Hinv.
      constructor; simpl; rewrite ?length_insert; try done.
      intros j c0 c Hc0 Hc.
      destruct (decide (j = position_client_idx r)) as [->|Hne].
      * rewrite list_lookup_insert_eq in Hc by done. injection Hc as <-.
        destruct (pi_taken0 _ _ _ Hc0 Hsrc) as [Hd' _].
        rewrite Hd. split; [done|]. lia.
      * rewrite list_lookup_insert_ne in Hc by done. by apply pi_taken0.
Qed.

(** What [writePositionsToFile] appends once the position loop has run
    to its end is the record of tick number [T]. *)
Lemma writePositionsToFile_tick orig labels T (r : Recorder) :
  position_inv orig labels T r →
  position_client_idx r = length orig →
  json_writer (writePositionsToFile (set_client_idx 0 0 r))
  = json_writer r ++ tick_tokens orig labels T.
Proof.
  intros [] Hidx.
  assert (Hstamp : match position_sources r !! 0 with
                   | Some src => current_time_stamp src
                   | None => 0%Z
                   end = stamp_at orig T).
  { destruct (lookup_lt_is_Some_2 orig 0 pi_nonempty0) as [c0 Hc0].
    destruct (lookup_lt_is_Some_2 (position_sources r) 0) as [c Hc]; [lia|].
    destruct (pi_taken0 _ _ _ Hc0 Hc) as [_ Hv].
    destruct Hv as (v & Hv & _); [lia|].
    unfold stamp_at. rewrite Hc, Hc0; simpl. by rewrite Hv. }
  assert (Hpos : source_positions r = map (λ c0, position_at c0 T) orig).
  { apply list_eq. intros j. rewrite list_lookup_fmap.
    destruct (orig !! j) as [c0|] eqn:Hc0; simpl.
    + pose proof (lookup_lt_Some _ _ _ Hc0) as Hj.
      destruct (lookup_lt_is_Some_2 (position_sources r) j) as [c Hc]; [lia|].
      destruct (pi_taken0 _ _ _ Hc0 Hc) as [_ Hv].
      destruct Hv as (v & Hv & Hp); [lia|].
      unfold position_at. by rewrite Hv, Hp.
    + apply lookup_ge_None in Hc0. apply lookup_ge_None. lia. }
  unfold writePositionsToFile; simpl. rewrite pi_fp0; simpl.
  unfold tick_tokens. by rewrite Hstamp, Hpos, pi_labels0.
Qed.

(** A call of [writeStreams] keeps the invariant, and adds one tick
    exactly when it runs to its last line. *)
Lemma writeStreams_inv orig labels T (r : Recorder) :
  position_inv orig labels T r →
  position_inv orig labels
    (match snd (writeStreams r) with TickDone => S T | _ => T end)
    (fst (writeStreams r)).
Proof.
  intros Hinv. unfold writeStreams.
  set (r1 := read_frames _ r).
  assert (Hinv1 : position_inv orig labels T r1).
  { eapply position_inv_state; [|exact Hinv].
    apply read_frames_position_state. }
  destruct (read_positions_inv orig labels T _ r1 eq_refl Hinv1) as [Hinv2 Hc].
  destruct (read_positions _ r1) as [r2 complete]. simpl in Hinv2, Hc.
  destruct complete; simpl; [|done].
  destruct (frame_read_success r2); simpl; [|done].
  specialize (Hc eq_refl).
  pose proof (writePositionsToFile_tick _ _ _ _ Hinv2 Hc) as Hjson.
  assert (Hst : ∀ x,
            (position_client_idx (writePositionsToFile x),
             position_labels (writePositionsToFile x),
             position_sources (writePositionsToFile x),
             source_positions (writePositionsToFile x),
             position_fp (writePositionsToFile x))
            = (position_client_idx x, position_labels x, position_sources x,
               source_positions x, position_fp x)).
  { intros x. unfold writePositionsToFile.
    destruct (position_fp x) eqn:E; simpl; by rewrite ?E. }
  destruct Hinv2.
  specialize (Hst (set_client_idx 0 0 r2)).
  injection Hst as H1 H2 H3 H4 H5. simpl in H1, H2, H3, H4, H5.
  constructor; rewrite ?H1, ?H2, ?H3, ?H4, ?H5; try done; try lia.
  - intros j c0 c Hc0 Hcj. rewrite decide_False by lia.
    destruct (pi_taken0 _ _ _ Hc0 Hcj) as [Hd _].
    pose proof (lookup_lt_Some _ _ _ Hc0). rewrite decide_True in Hd by lia.
    split; [done|]. lia.
  - intros j c0 Hc0. pose proof (lookup_lt_Some _ _ _ Hc0) as Hj.
    destruct (lookup_lt_is_Some_2 (position_sources r2) j) as [c Hcj]; [lia|].
    destruct (pi_taken0 _ _ _ Hc0 Hcj) as [_ Hv].
    destruct Hv as (v & Hv & _); [lia|].
    apply lookup_lt_Some in Hv. lia.
  - rewrite Hjson, pi_json0, seq_S, map_app, concat_app. simpl.
    by rewrite app_nil_r.
Qed.

(** The number of calls of [writeStreams] in a run that processed their
    tick fully. *)
Fixpoint ticks_done (s : system) (tr : list event) : nat :=
  match tr with
  | [] => 0
  | e :: tr' =>
      match e, snd (writeStreams (recorder s)) with
      | Tick, TickDone => S (ticks_done (step s e) tr')
      | _, _ => ticks_done (step s e) tr'
      end
  end.

Lemma writer_pass_position_state (i : nat) (r : Recorder) :
  position_state (writer_pass i r) = position_state r.
Proof.
  unfold writer_pass.
  destruct (frame_write_buffers r !! i) as [[|front rest]|]; try done.
  by destruct (video_writers r !! i).
Qed.

Lemma step_inv orig labels T (s : system) (e : event) :
  position_inv orig labels T (recorder s) →
  position_inv orig labels
    (match e, snd (writeStreams (recorder s)) with
     | Tick, TickDone => S T
     | _, _ => T
     end)
    (recorder (step s e)).
Proof.
  intros Hinv. destruct e as [|i|]; simpl.
  - pose proof (writeStreams_inv _ _ _ _ Hinv) as H.
    by destruct (snd (writeStreams (recorder s))).
  - destruct (exited s !! i) as [[|]|]; try done.
    unfold writeFramesToFileFromBuffer.
    destruct (running (recorder s)); [|done].
    eapply position_inv_state; [|exact Hinv]. apply writer_pass_position_state.
  - eapply position_inv_state; [|exact Hinv]. done.
Qed.

Lemma exec_inv orig labels T (s : system) (tr : list event) :
  position_inv orig labels T (recorder s) →
  position_inv orig labels (T + ticks_done s tr) (recorder (exec s tr)).
Proof.
  revert s T. induction tr as [|e tr IH]; intros s T Hinv.
  - simpl. by rewrite Nat.add_0_r.
  - pose proof (step_inv _ _ _ _ e Hinv) as Hstep.
    apply IH in Hstep. simpl.
    destruct e; try (by simpl in *).
    destruct (snd (writeStreams (recorder s))); simpl in *; try done.
    by rewrite Nat.add_succ_r.
Qed.

Lemma ticks_done_passes (s : system) (l : list nat) :
  ticks_done s (map Pass l) = 0.
Proof.
  revert s. induction l as [|i l IH]; intros s; [done|]. simpl. apply IH.
Qed.

#[local] Set Warnings "-register-all".

(** The documents the position file can hold, and the writer calls that
    produce them. *)
Inductive json :=
| JUint (n : Z)
| JPosition (label : string) (pos : Position)
| JArray (items : list json).

Fixpoint render (v : json) : list token :=
  match v with
  | JUint n => [Uint n]
  | JPosition label pos => [Serialized label pos]
  | JArray items =>
      StartArray
        :: (fix all (l : list json) : list token :=
              match l with
              | [] => []
              | x :: l' => render x ++ all l'
              end) items
        ++ [EndArray]
  end.

(** The element of the position file for tick number [t]: the sample
    number of source 0 and one record per source. *)
Definition tick_json (orig : list SMClient) (labels : list string)
    (t : nat) : json :=
  JArray [JUint (stamp_at orig t);
          JArray (zip_with JPosition labels
                    (map (λ c0, position_at c0 t) orig))].

Lemma render_array (items : list json) :
  render (JArray items) = StartArray :: concat (map render items) ++ [EndArray].
Proof.
  simpl. do 2 f_equal. induction items as [|x l IH]; [done|].
  simpl. by rewrite IH.
Qed.

Lemma serialize_positions_zip (idx : nat) (labels : list string)
    (ps : list Position) :
  length ps + idx ≤ length labels →
  serialize_positions idx labels ps
  = concat (map render (zip_with JPosition (drop idx labels) ps)).
Proof.
  revert idx. induction ps as [|pos ps IH]; intros idx Hlen.
  - by destruct (drop idx labels).
  - simpl in Hlen.
    destruct (lookup_lt_is_Some_2 labels idx) as [lbl Hlbl]; [lia|].
    rewrite (drop_S _ _ _ Hlbl). simpl. rewrite Hlbl, IH by lia. done.
Qed.

Lemma render_tick (orig : list SMClient) (labels : list string) (t : nat) :
  length labels = length orig →
  render (tick_json orig labels t) = tick_tokens orig labels t.
Proof.
  intros Hlen. unfold tick_json, tick_tokens.
  rewrite render_array. cbn [map concat]. rewrite render_array, app_nil_r.
  rewrite serialize_positions_zip by (rewrite length_map; lia).
  rewrite drop_0. simpl. by rewrite <- app_assoc.
Qed.

Lemma lookups_take {A} (l : list A) (d : nat) (dflt : A) :
  d ≤ length l → map (λ t, default dflt (l !! t)) (seq 0 d) = take d l.
Proof.
  intros Hd. apply list_eq. intros i. rewrite list_lookup_fmap.
  destruct (decide (i < d)) as [Hi|Hi].
  - rewrite lookup_seq_lt, lookup_take_lt by done. simpl.
    destruct (lookup_lt_is_Some_2 l i) as [x Hx]; [lia|]. by rewrite Hx.
  - rewrite lookup_seq_ge, lookup_take_ge by lia. done.
Qed.

(** The recorder right after construction satisfies the invariant. *)
Lemma new_Recorder_inv names fnames pfeed ffeed codec_ok (r0 : Recorder) :
  names ≠ [] →
  new_Recorder names fnames pfeed ffeed true codec_ok = Some r0 →
  position_inv (position_sources r0) names 0 r0
  ∧ length names = length (position_sources r0).
Proof.
  intros Hne. unfold new_Recorder.
  rewrite (bool_decide_eq_false_2 _ Hne). simpl. intros [= <-]. simpl.
  split; [|by rewrite length_map].
  constructor; simpl; rewrite ?length_map; try done; try lia.
  - destruct names; [done|simpl; lia].
  - intros j c0 c H0 H1. rewrite H0 in H1. injection H1 as <-. split; [done|lia].
Qed.

(** ** Further properties: the frame side of the barrier *)

(** The frames a frame source delivers, in order. *)
Definition frame_deliveries (c : MatClient) : list Mat :=
  omap id (m_pending c).

(** The number of samples source number [i] has handed over after [T]
    fully processed ticks, when the read counter stands at [idx]: one per
    tick, and one more if the tick in progress has already read it. *)
Definition taken (T idx i : nat) : nat :=
  if decide (i < idx) then S T else T.

(** The state of the frame side after [T] fully processed ticks, for
    sources that started out as [orig] and writers whose container can be
    opened or not as [codec] tells. Whatever went into the video file or
    waits in the queue of stream [i] is a selection, in order, of the
    frames source [i] has handed over, and all of them when the
    container can be opened and the source delivers no more frames than
    fit into the queue. *)
Record frame_inv (orig : list MatClient) (codec : bool) (T : nat)
    (r : Recorder) : Prop := FrameInv {
  fi_sources : length (frame_sources r) = length orig;
  fi_buffers : length (frame_write_buffers r) = length orig;
  fi_writers : length (video_writers r) = length orig;
  fi_idx : frame_client_idx r ≤ length orig;
  fi_success :
    frame_client_idx r = length orig → frame_read_success r = true;
  fi_codec : ∀ i w, video_writers r !! i = Some w → vw_can_open w = codec;
  fi_taken : ∀ i c0 c,
    orig !! i = Some c0 → frame_sources r !! i = Some c →
    frame_deliveries c
    = drop (taken T (frame_client_idx r) i) (frame_deliveries c0)
    ∧ taken T (frame_client_idx r) i ≤ length (frame_deliveries c0);
  fi_fifo : ∀ i c0 q w,
    orig !! i = Some c0 → frame_write_buffers r !! i = Some q →
    video_writers r !! i = Some w →
    (vw_frames w ++ q)
      `sublist_of` take (taken T (frame_client_idx r) i) (frame_deliveries c0)
    ∧ (codec = true →
       length (frame_deliveries c0) ≤ frame_write_buffer_size →
       vw_frames w ++ q
       = take (taken T (frame_client_idx r) i) (frame_deliveries c0))
}.

Lemma getSharedMat_deliveries (c : MatClient) :
  match getSharedMat c with
  | (c1, Some f) => frame_deliveries c = f :: frame_deliveries c1
  | (c1, None) => frame_deliveries c1 = frame_deliveries c
  end.
Proof.
  unfold getSharedMat, frame_deliveries.
  destruct c as [nm [|[f|] rest]]; simpl; done.
Qed.

Lemma frame_inv_state orig codec T (r r' : Recorder) :
  frame_state r' = frame_state r →
  frame_inv orig codec T r → frame_inv orig codec T r'.
Proof.
  intros [= H1 H2 H3 H4 H5 H6] [].
  constructor; rewrite ?H1, ?H2, ?H3, ?H4, ?H5, ?H6; done.
Qed.

(** The frame loop keeps the invariant, and leaves [frame_read_success]
    set only when every source has been read. *)
Lemma read_frames_inv orig codec T (fuel : nat) (r : Recorder) :
  fuel = length (frame_sources r) - frame_client_idx r →
  frame_inv orig codec T r →
  frame_inv orig codec T (read_frames fuel r)
  ∧ (frame_read_success (read_frames fuel r) = true →
     frame_client_idx (read_frames fuel r) = length orig).
Proof.
  revert r. induction fuel as [|n IH]; intros r Hfuel Hinv.
  - simpl. split; [done|]. intros _. destruct Hinv. lia.
  - simpl.
    destruct (frame_sources r !! frame_client_idx r) as [src|] eqn:Hsrc.
    2: { apply lookup_ge_None in Hsrc. lia. }
    pose proof (lookup_lt_Some _ _ _ Hsrc) as Hlt.
    pose proof (getSharedMat_deliveries src) as Hget.
    destruct (getSharedMat src) as [src1 [f|]].
    + set (r3 := set_client_idx _ _ _). apply IH.
      { subst r3; simpl. rewrite length_insert. lia. }
      destruct Hinv. subst r3. constructor; simpl;
        rewrite ?length_insert, ?length_alter; try done; try lia.
      * intros i c0 c Hc0 Hc. unfold taken in *.
        destruct (decide (i = frame_client_idx r)) as [->|Hne].
        -- rewrite list_lookup_insert_eq in Hc by done. injection Hc as <-.
           destruct (fi_taken0 _ _ _ Hc0 Hsrc) as [Hd Hle].
           rewrite decide_False in Hd by lia. rewrite Hget in Hd.
           symmetry in Hd. apply drop_cons_inv in Hd as [Hd1 Hd2].
           rewrite decide_True by lia. split; [done|].
           apply lookup_lt_Some in Hd1. lia.
        -- rewrite list_lookup_insert_ne in Hc by done.
           destruct (fi_taken0 _ _ _ Hc0 Hc) as [Hd Hle].
           destruct (decide (i < frame_client_idx r)).
           ++ rewrite decide_True by lia. done.
           ++ rewrite decide_False by lia. done.
      * intros i c0 q w Hc0 Hq Hw. unfold taken in *.
        destruct (decide (i = frame_client_idx r)) as [->|Hne].
        -- rewrite list_lookup_alter_eq in Hq.
           apply fmap_Some in Hq as (q0 & Hq0 & ->).
           destruct (fi_taken0 _ _ _ Hc0 Hsrc) as [Hd Hle].
           rewrite decide_False in Hd, Hle by lia. rewrite Hget in Hd.
           symmetry in Hd. apply drop_cons_inv in Hd as [Hd1 _].
           destruct (fi_fifo0 _ _ _ _ Hc0 Hq0 Hw) as [Hsub Heq].
           rewrite decide_False in Hsub, Heq by lia.
           rewrite decide_True by lia.
           rewrite (take_S_r _ _ _ Hd1). unfold push.
           destruct (Nat.ltb_spec (length q0) frame_write_buffer_size)
             as [Hroom|Hfull]; simpl.
           ++ rewrite app_assoc. split.
              ** by apply sublist_app.
              ** intros Hcodec Hcap. by rewrite Heq.
           ++ split.
              ** by apply sublist_inserts_r.
              ** intros Hcodec Hcap. exfalso.
                 specialize (Heq Hcodec Hcap).
                 apply (f_equal length) in Heq.
                 rewrite length_app, length_take in Heq.
                 apply lookup_lt_Some in Hd1. lia.
        -- rewrite list_lookup_alter_ne in Hq by done.
           destruct (fi_fifo0 _ _ _ _ Hc0 Hq Hw) as [Hsub Heq].
           destruct (decide (i < frame_client_idx r)).
           ++ rewrite decide_True by lia. done.
           ++ rewrite decide_False by lia. done.
    + simpl. split; [|done]. destruct Hinv.
      constructor; simpl; rewrite ?length_insert; try done; try lia.
      intros i c0 c Hc0 Hc.
      destruct (decide (i = frame_client_idx r)) as [->|Hne].
      * rewrite list_lookup_insert_eq in Hc by done. injection Hc as <-.
        rewrite Hget. by apply fi_taken0.
      * rewrite list_lookup_insert_ne in Hc by done. by apply fi_taken0.
Qed.

Lemma writePositionsToFile_frame_state (r : Recorder) :
  frame_state (writePositionsToFile r) = frame_state r.
Proof. unfold writePositionsToFile. by destruct (position_fp r). Qed.

(** A call of [writeStreams] keeps the invariant of the frame side, and
    counts one tick more exactly when it runs to its last line. *)
Lemma writeStreams_frame_inv orig codec T (r : Recorder) :
  frame_inv orig codec T r →
  frame_inv orig codec
    (match snd (writeStreams r) with TickDone => S T | _ => T end)
    (fst (writeStreams r)).
Proof.
  intros Hinv. unfold writeStreams.
  set (r1 := read_frames _ r).
  destruct (read_frames_inv orig codec T _ r eq_refl Hinv) as [Hinv1 Hall].
  fold r1 in Hinv1, Hall.
  destruct (read_positions_frame_state
              (length (position_sources r1) - position_client_idx r1) r1)
    as [Hfs _].
  destruct (read_positions _ r1) as [r2 complete]. simpl in Hfs.
  assert (Hinv2 : frame_inv orig codec T r2)
    by (by eapply frame_inv_state).
  destruct complete; simpl; [|done].
  destruct (frame_read_success r2) eqn:Hok; simpl; [|done].
  injection Hfs as Hi Hs _ _ _ _. pose proof Hok as Hok1.
  rewrite Hs in Hok1. specialize (Hall Hok1). rewrite <- Hi in Hall.
  apply (frame_inv_state _ _ _ (set_client_idx 0 0 r2));
    [apply writePositionsToFile_frame_state|].
  destruct Hinv2. constructor; simpl; try done; try lia.
  - intros i c0 c Hc0 Hc. destruct (fi_taken0 _ _ _ Hc0 Hc) as [Hd Hle].
    pose proof (lookup_lt_Some _ _ _ Hc0). unfold taken in *.
    rewrite decide_True in Hd, Hle by lia. by rewrite decide_False by lia.
  - intros i c0 q w Hc0 Hq Hw.
    destruct (fi_fifo0 _ _ _ _ Hc0 Hq Hw) as [Hsub Heq].
    pose proof (lookup_lt_Some _ _ _ Hc0). unfold taken in *.
    rewrite decide_True in Hsub, Heq by lia. by rewrite decide_False by lia.
Qed.

(** A pass of a writer thread keeps it too: the frame it takes from the
    queue goes to the end of the video file, or is lost when the
    container cannot be opened. *)
Lemma writer_pass_frame_inv orig codec T (i : nat) (r : Recorder) :
  frame_inv orig codec T r → frame_inv orig codec T (writer_pass i r).
Proof.
  intros Hinv. unfold writer_pass.
  destruct (frame_write_buffers r !! i) as [[|front rest]|] eqn:Hq; try done.
  destruct (video_writers r !! i) as [w|] eqn:Hw; [|done].
  pose proof (lookup_lt_Some _ _ _ Hq) as Hlq.
  pose proof (lookup_lt_Some _ _ _ Hw) as Hlw.
  set (w1 := if isOpened w then w else initializeWriter w front).
  assert (Hcan : vw_can_open (write w1 front) = vw_can_open w).
  { subst w1. unfold write, initializeWriter.
    destruct (isOpened w) eqn:Ho; simpl; [by rewrite Ho|].
    by destruct (vw_can_open w). }
  assert (Hfile : ∃ kept, vw_frames (write w1 front) = vw_frames w ++ kept
                   ∧ kept `sublist_of` [front]
                   ∧ (vw_can_open w = true → kept = [front])).
  { subst w1. unfold write, initializeWriter.
    destruct (isOpened w) eqn:Ho; simpl.
    - rewrite Ho. by exists [front].
    - destruct (vw_can_open w); simpl.
      + by exists [front].
      + exists []. rewrite app_nil_r. split; [done|]. split; [|done].
        apply sublist_nil_l. }
  destruct Hinv. constructor; simpl; rewrite ?length_insert; try done.
  - intros j w' Hw'.
    destruct (decide (j = i)) as [->|Hne].
    + rewrite list_lookup_insert_eq in Hw' by done. injection Hw' as <-.
      rewrite Hcan. by eapply fi_codec0.
    + rewrite list_lookup_insert_ne in Hw' by done. by eapply fi_codec0.
  - intros j c0 q w' Hc0 Hq' Hw'.
    destruct (decide (j = i)) as [->|Hne].
    + rewrite list_lookup_insert_eq in Hq' by done.
      rewrite list_lookup_insert_eq in Hw' by done.
      injection Hq' as <-. injection Hw' as <-.
      destruct Hfile as (kept & -> & Hkept & Hall).
      destruct (fi_fifo0 _ _ _ _ Hc0 Hq Hw) as [Hsub Heq].
      rewrite <- app_assoc. split.
      * etrans; [|exact Hsub]. apply sublist_app; [done|].
        by apply (sublist_app kept [front] rest rest).
      * intros Hcodec Hcap. rewrite <- (Heq Hcodec Hcap).
        rewrite Hall; [done|]. rewrite <- Hcodec. by eapply fi_codec0.
    + rewrite list_lookup_insert_ne in Hq' by done.
      rewrite list_lookup_insert_ne in Hw' by done.
      by apply fi_fifo0.
Qed.

Lemma step_frame_inv orig codec T (s : system) (e : event) :
  frame_inv orig codec T (recorder s) →
  frame_inv orig codec
    (match e, snd (writeStreams (recorder s)) with
     | Tick, TickDone => S T
     | _, _ => T
     end)
    (recorder (step s e)).
Proof.
  intros Hinv. destruct e as [|i|]; simpl.
  - pose proof (writeStreams_frame_inv _ _ _ _ Hinv) as H.
    by destruct (snd (writeStreams (recorder s))).
  - destruct (exited s !! i) as [[|]|]; try done.
    unfold writeFramesToFileFromBuffer.
    destruct (running (recorder s)); [|done].
    by apply writer_pass_frame_inv.
  - eapply frame_inv_state; [|exact Hinv]. done.
Qed.

Lemma exec_frame_inv orig codec T (s : system) (tr : list event) :
  frame_inv orig codec T (recorder s) →
  frame_inv orig codec (T + ticks_done s tr) (recorder (exec s tr)).
Proof.
  revert s T. induction tr as [|e tr IH]; intros s T Hinv.
  - simpl. by rewrite Nat.add_0_r.
  - pose proof (step_frame_inv _ _ _ _ e Hinv) as Hstep.
    apply IH in Hstep. simpl.
    destruct e; try (by simpl in *).
    destruct (snd (writeStreams (recorder s))); simpl in *; try done.
    by rewrite Nat.add_succ_r.
Qed.

Lemma new_Recorder_frame_inv names fnames pfeed ffeed fopen_ok codec_ok
    (r0 : Recorder) :
  new_Recorder names fnames pfeed ffeed fopen_ok codec_ok = Some r0 →
  frame_inv (frame_sources r0) codec_ok 0 r0.
Proof.
  unfold new_Recorder. destruct (_ && _); [done|]. intros [= <-].
  constructor; simpl; rewrite ?length_map; try done; try lia.
  - intros H. apply bool_decide_eq_true. by destruct fnames.
  - intros i w Hw. apply list_lookup_fmap_Some in Hw as (? & -> & ?). done.
  - intros i c0 c H0 H1. rewrite H0 in H1. injection H1 as <-.
    unfold taken. rewrite decide_False by lia. split; [done|lia].
  - intros i c0 q w _ Hq Hw.
    apply list_lookup_fmap_Some in Hq as (? & -> & ?).
    apply list_lookup_fmap_Some in Hw as (? & -> & ?).
    unfold taken. rewrite decide_False by lia. simpl. split; [|done].
    apply sublist_nil_l.
Qed.

(** The barrier. After any run of a recorder, every frame source and every
    position source has handed over exactly one sample for each fully
    processed tick, and one more if the tick in progress has already read
    it; no source is ever read ahead of, or behind, the others by more
    than that, however the reads fail and are retried. *)
Theorem sources_are_read_in_lockstep
    (names fnames : list string) pfeed ffeed (fopen_ok codec_ok : bool)
    (r0 : Recorder) (tr : list event) :
  new_Recorder names fnames pfeed ffeed fopen_ok codec_ok = Some r0 →
  let r := recorder (exec (start r0) tr) in
  let d := ticks_done (start r0) tr in
  (∀ i c0 c,
     frame_sources r0 !! i = Some c0 → frame_sources r !! i = Some c →
     frame_deliveries c
     = drop (taken d (frame_client_idx r) i) (frame_deliveries c0)
     ∧ taken d (frame_client_idx r) i ≤ length (frame_deliveries c0))
  ∧ (∀ j c0 c,
       position_sources r0 !! j = Some c0 → position_sources r !! j = Some c →
       deliveries c
       = drop (taken d (position_client_idx r) j) (deliveries c0)
       ∧ taken d (position_client_idx r) j ≤ length (deliveries c0)).
Proof.
  intros Hnew r d. split.
  - pose proof (new_Recorder_frame_inv _ _ _ _ _ _ _ Hnew) as Hinv.
    apply (exec_frame_inv _ _ _ (start r0) tr) in Hinv. simpl in Hinv.
    fold r d in Hinv. destruct Hinv. exact fi_taken0.
  - destruct (decide (names = [])) as [->|Hne].
    + intros j c0 c Hc0. exfalso. revert Hnew Hc0. unfold new_Recorder.
      simpl. intros [= <-]. done.
    + assert (fopen_ok = true) as ->.
      { revert Hnew. unfold new_Recorder.
        rewrite (bool_decide_eq_false_2 _ Hne). by destruct fopen_ok. }
      destruct (new_Recorder_inv _ _ _ _ _ _ Hne Hnew) as [Hinv _].
      apply (exec_inv _ _ _ (start r0) tr) in Hinv. simpl in Hinv.
      fold r d in Hinv. destruct Hinv.
      intros j c0 c Hc0 Hc. destruct (pi_taken0 _ _ _ Hc0 Hc) as [Hd Hv].
      unfold taken. split; [exact Hd|].
      destruct (decide (j < position_client_idx r)) as [Hlt|Hge].
      * destruct (Hv Hlt) as (v & Hv' & _). apply lookup_lt_Some in Hv'. lia.
      * by eapply pi_ticks0.
Qed.

(** What reaches the video file. After any run, the frames written to the
    video file of a stream, followed by the frames waiting in its queue,
    are a selection of the frames its source has handed over, in the
    order of delivery: no frame is written twice or out of order. When
    the container can be opened and the source delivers no more frames
    than the queue can hold, none is missing either. *)
Theorem video_file_keeps_delivery_order
    (names fnames : list string) pfeed ffeed (fopen_ok codec_ok : bool)
    (r0 : Recorder) (tr : list event) (i : nat) (c0 : MatClient)
    (q : spsc_queue) (w : VideoWriter) :
  new_Recorder names fnames pfeed ffeed fopen_ok codec_ok = Some r0 →
  let r := recorder (exec (start r0) tr) in
  let d := ticks_done (start r0) tr in
  frame_sources r0 !! i = Some c0 →
  frame_write_buffers r !! i = Some q →
  video_writers r !! i = Some w →
  (vw_frames w ++ q)
    `sublist_of` take (taken d (frame_client_idx r) i) (frame_deliveries c0)
  ∧ (codec_ok = true →
     length (frame_deliveries c0) ≤ frame_write_buffer_size →
     vw_frames w ++ q
     = take (taken d (frame_client_idx r) i) (frame_deliveries c0)).
Proof.
  intros Hnew r d Hc0 Hq Hw.
  pose proof (new_Recorder_frame_inv _ _ _ _ _ _ _ Hnew) as Hinv.
  apply (exec_frame_inv _ _ _ (start r0) tr) in Hinv. simpl in Hinv.
  fold r d in Hinv. destruct Hinv. by apply fi_fifo0.
Qed.

(** ** Further properties: sizes, the destructor, the position file *)

Lemma read_positions_shape (fuel : nat) (r : Recorder) :
  length (position_sources (fst (read_positions fuel r)))
  = length (position_sources r)
  ∧ length (source_positions (fst (read_positions fuel r)))
    = length (source_positions r)
  ∧ position_labels (fst (read_positions fuel r)) = position_labels r
  ∧ position_fp (fst (read_positions fuel r)) = position_fp r
  ∧ json_writer (fst (read_positions fuel r)) = json_writer r
  ∧ (position_client_idx r ≤ length (position_sources r) →
     position_client_idx (fst (read_positions fuel r))
     ≤ length (position_sources r)).
Proof.
  revert r. induction fuel as [|n IH]; intros r; [done|].
  simpl.
  destruct (position_sources r !! position_client_idx r) as [src|] eqn:Hsrc;
    [|done].
  pose proof (lookup_lt_Some _ _ _ Hsrc) as Hlt.
  destruct (getSharedObject src) as [src1 [v|]].
  - set (r2 := set_client_idx _ _ _).
    destruct (IH r2) as (H1 & H2 & H3 & H4 & H5 & H6).
    subst r2. simpl in *. rewrite !length_insert in *.
    rewrite H1, H2, H3, H4, H5. split_and!; try done. intros _. apply H6. lia.
  - simpl. by rewrite length_insert.
Qed.

(** The sizes of the vectors on the position side and the range of its
    read counter. *)
Definition position_shape (names : list string) (r : Recorder) : Prop :=
  length (position_sources r) = length names
  ∧ length (source_positions r) = length names
  ∧ position_labels r = names
  ∧ position_client_idx r ≤ length names.

Lemma writeStreams_position_shape (names : list string) (r : Recorder) :
  position_shape names r → position_shape names (fst (writeStreams r)).
Proof.
  intros (H1 & H2 & H3 & H4). unfold writeStreams.
  set (r1 := read_frames _ r).
  destruct (read_frames_position_state
              (length (frame_sources r) - frame_client_idx r) r)
    as (Hps & _). fold r1 in Hps. injection Hps as Hi Hl Hs Hp _ _.
  destruct (read_positions_shape
              (length (position_sources r1) - position_client_idx r1) r1)
    as (G1 & G2 & G3 & _ & _ & G6).
  rewrite Hs, Hp, Hl, Hi in *.
  destruct (read_positions _ r1) as [r2 complete]. simpl in *.
  assert (Hshape : position_shape names r2).
  { unfold position_shape. rewrite G1, G2, G3, H1, H2, H3.
    split_and!; try done. rewrite <- H1. apply G6. lia. }
  destruct complete; simpl; [|done].
  destruct (frame_read_success r2); simpl; [|done].
  destruct Hshape as (S1 & S2 & S3 & S4).
  unfold position_shape, writePositionsToFile.
  destruct (position_fp (set_client_idx 0 0 r2)); simpl;
    split_and!; try done; lia.
Qed.

Lemma step_position_shape (names : list string) (s : system) (e : event) :
  position_shape names (recorder s) →
  position_shape names (recorder (step s e))
  ∧ length (exited (step s e)) = length (exited s).
Proof.
  intros Hs. destruct e as [|i|]; simpl.
  - split; [by apply writeStreams_position_shape|done].
  - destruct (exited s !! i) as [[|]|]; try done.
    unfold writeFramesToFileFromBuffer.
    destruct (running (recorder s)); simpl.
    + split; [|done]. pose proof (writer_pass_position_state i (recorder s)) as H.
      injection H as H1 H2 H3 H4 _ _. unfold position_shape.
      by rewrite H1, H2, H3, H4.
    + by rewrite length_insert.
  - done.
Qed.

Lemma exec_position_shape (names : list string) (s : system)
    (tr : list event) :
  position_shape names (recorder s) →
  position_shape names (recorder (exec s tr))
  ∧ length (exited (exec s tr)) = length (exited s).
Proof.
  revert s. induction tr as [|e tr IH]; intros s Hs; [done|].
  simpl. destruct (step_position_shape names s e Hs) as [H1 H2].
  destruct (IH _ H1) as [H3 H4]. split; [done|]. congruence.
Qed.

(** Every index stays in range. After any run of a recorder the vectors it
    indexes still have one entry per frame source, or one per position
    source, as the constructor made them, and the two read counters have
    not passed their ends: no [operator[]] of [writeStreams],
    [writePositionsToFile] or a writer thread reaches outside its
    vector. *)
Theorem vector_accesses_stay_in_range
    (names fnames : list string) pfeed ffeed (fopen_ok codec_ok : bool)
    (r0 : Recorder) (tr : list event) :
  new_Recorder names fnames pfeed ffeed fopen_ok codec_ok = Some r0 →
  let s := exec (start r0) tr in
  length (frame_sources (recorder s)) = length fnames
  ∧ length (frame_write_buffers (recorder s)) = length fnames
  ∧ length (video_writers (recorder s)) = length fnames
  ∧ length (exited s) = length fnames
  ∧ frame_client_idx (recorder s) ≤ length fnames
  ∧ length (position_sources (recorder s)) = length names
  ∧ length (source_positions (recorder s)) = length names
  ∧ position_labels (recorder s) = names
  ∧ position_client_idx (recorder s) ≤ length names.
Proof.
  intros Hnew s.
  pose proof (new_Recorder_frame_inv _ _ _ _ _ _ _ Hnew) as Hinv.
  apply (exec_frame_inv _ _ _ (start r0) tr) in Hinv. simpl in Hinv.
  fold s in Hinv.
  assert (Hshape0 : position_shape names r0
                    ∧ length (frame_sources r0) = length fnames).
  { revert Hnew. unfold new_Recorder. destruct (_ && _); [done|].
    intros [= <-]. unfold position_shape. simpl. rewrite !length_map.
    split_and!; try done. lia. }
  destruct Hshape0 as [Hshape0 Hlen].
  destruct (exec_position_shape names (start r0) tr Hshape0)
    as [(H1 & H2 & H3 & H4) H5]. fold s in H1, H2, H3, H4, H5.
  destruct Hinv. rewrite Hlen in *.
  split_and!; try done.
  rewrite H5. unfold start. simpl. by rewrite length_map.
Qed.



(** ** The destructor *)

(** Apart from index [i] of the queues and of the writers, a pass of
    writer thread [i] changes nothing. *)
Lemma writer_pass_other (i j : nat) (r : Recorder) :
  j ≠ i →
  frame_write_buffers (writer_pass i r) !! j = frame_write_buffers r !! j
  ∧ video_writers (writer_pass i r) !! j = video_writers r !! j.
Proof.
  intros Hne. unfold writer_pass.
  destruct (frame_write_buffers r !! i) as [[|front rest]|]; try done.
  destruct (video_writers r !! i); [|done]. simpl.
  by rewrite !list_lookup_insert_ne by done.
Qed.

(** What a pass of writer thread [i] does to its queue and its writer. *)
Lemma writer_pass_at (i : nat) (r : Recorder) (q : spsc_queue)
    (w : VideoWriter) :
  frame_write_buffers r !! i = Some q →
  video_writers r !! i = Some w →
  frame_write_buffers (writer_pass i r) !! i = Some (tail q)
  ∧ ∃ w', video_writers (writer_pass i r) !! i = Some w'
      ∧ vw_can_open w' = vw_can_open w
      ∧ vw_frames w'
        = match q with
          | front :: _ =>
              if isOpened w || vw_can_open w then vw_frames w ++ [front]
              else vw_frames w
          | [] => vw_frames w
          end.
Proof.
  intros Hq Hw. unfold writer_pass.
  pose proof (lookup_lt_Some _ _ _ Hq) as Hlq.
  pose proof (lookup_lt_Some _ _ _ Hw) as Hlw.
  assert (Hq' : frame_write_buffers r !! i = Some q) by exact Hq.
  destruct q as [|front rest].
  - destruct (frame_write_buffers r !! i) as [[|? ?]|] eqn:E;
      try done. split; [done|]. by exists w.
  - destruct (frame_write_buffers r !! i) as [[|f0 r0]|] eqn:E; try done.
    injection Hq' as -> ->. rewrite Hw. simpl.
    rewrite !list_lookup_insert_eq by done. split; [done|].
    eexists. split; [done|]. unfold write, initializeWriter.
    destruct (isOpened w) eqn:Ho; simpl.
    + by rewrite Ho.
    + by destruct (vw_can_open w).
Qed.

(** The last passes change neither [running] nor the position side. *)
Lemma last_passes_position_state (in_pass : nat → bool) (ex : list bool)
    (r : Recorder) :
  position_state (last_passes in_pass ex r) = position_state r
  ∧ running (last_passes in_pass ex r) = running r.
Proof.
  unfold last_passes. generalize (seq 0 (length ex)). intros l.
  revert r. induction l as [|i l IH]; intros r; [done|].
  cbn [fold_left].
  destruct (negb (default true (ex !! i)) && in_pass i).
  - destruct (IH (writer_pass i r)) as [-> ->].
    by rewrite writer_pass_position_state, writer_pass_running.
  - apply IH.
Qed.

(** The last passes, stream by stream: the thread that had passed the
    test of [running] takes the front frame off its queue, if there is
    one, and every other queue and writer is as it was. *)
Lemma last_passes_at (in_pass : nat → bool) (ex : list bool)
    (r : Recorder) (i : nat) (q : spsc_queue) (w : VideoWriter) :
  frame_write_buffers r !! i = Some q →
  video_writers r !! i = Some w →
  if negb (default true (ex !! i)) && in_pass i
  then frame_write_buffers (last_passes in_pass ex r) !! i = Some (tail q)
       ∧ ∃ w', video_writers (last_passes in_pass ex r) !! i = Some w'
           ∧ vw_frames w'
             = match q with
               | front :: _ =>
                   if isOpened w || vw_can_open w
                   then vw_frames w ++ [front] else vw_frames w
               | [] => vw_frames w
               end
  else frame_write_buffers (last_passes in_pass ex r) !! i = Some q
       ∧ video_writers (last_passes in_pass ex r) !! i = Some w.
Proof.
  unfold last_passes.
  set (late := λ j, negb (default true (ex !! j)) && in_pass j).
  assert (Hgen : ∀ l r0 (q0 : spsc_queue) w0, NoDup l →
            frame_write_buffers r0 !! i = Some q0 →
            video_writers r0 !! i = Some w0 →
            let r1 := fold_left
                        (λ r i, if late i then writer_pass i r else r) l r0 in
            (i ∉ l ∨ late i = false →
               frame_write_buffers r1 !! i = Some q0
               ∧ video_writers r1 !! i = Some w0)
            ∧ (i ∈ l → late i = true →
               frame_write_buffers r1 !! i = Some (tail q0)
               ∧ ∃ w', video_writers r1 !! i = Some w'
                   ∧ vw_frames w'
                     = match q0 with
                       | front :: _ =>
                           if isOpened w0 || vw_can_open w0
                           then vw_frames w0 ++ [front] else vw_frames w0
                       | [] => vw_frames w0
                       end)).
  { induction l as [|j l IH]; intros r0 q0 w0 Hnd Hq0 Hw0.
    - cbn. split; [done|]. intros H. by apply elem_of_nil in H.
    - apply NoDup_cons in Hnd as [Hj Hnd]. cbn [fold_left]. cbv zeta.
      destruct (decide (j = i)) as [->|Hne].
      + destruct (late i) eqn:Hlate.
        * destruct (writer_pass_at i r0 q0 w0 Hq0 Hw0)
            as (G1 & w' & G2 & _ & G3).
          destruct (IH (writer_pass i r0) (tail q0) w' Hnd G1 G2)
            as [H1 _].
          split.
          -- intros [Hnin|?]; [|done]. exfalso. apply Hnin.
             apply elem_of_cons. by left.
          -- intros _ _. destruct H1 as [E1 E2]; [by left|].
             split; [exact E1|]. by exists w'.
        * destruct (IH r0 q0 w0 Hnd Hq0 Hw0) as [H1 _].
          split; [|done]. intros _. apply H1. by left.
      + assert (Hq1 : frame_write_buffers
                        (if late j then writer_pass j r0 else r0) !! i
                      = Some q0).
        { destruct (late j); [|done].
          etrans; [apply (writer_pass_other j i r0); congruence|done]. }
        assert (Hw1 : video_writers
                        (if late j then writer_pass j r0 else r0) !! i
                      = Some w0).
        { destruct (late j); [|done].
          etrans; [apply (writer_pass_other j i r0); congruence|done]. }
        destruct (IH _ q0 w0 Hnd Hq1 Hw1) as [H1 H2].
        split.
        * intros [Hnin|Hl]; apply H1; [left|by right].
          intros Hin. apply Hnin. apply elem_of_cons. by right.
        * intros Hin Hl. apply H2; [|done].
          apply elem_of_cons in Hin as [->|Hin]; done. }
  intros Hq Hw.
  destruct (Hgen (seq 0 (length ex)) r q w (NoDup_seq _ _) Hq Hw)
    as [H1 H2].
  fold (late i). destruct (late i) eqn:Hlate.
  - apply H2; [|done].
    apply elem_of_seq. split; [lia|]. simpl.
    destruct (ex !! i) as [b|] eqn:E.
    + by apply lookup_lt_Some in E.
    + subst late. simpl in Hlate. by rewrite E in Hlate.
  - apply H1. by right.
Qed.

(** The joins. When the destructor has joined the writer threads,
    [running] is false, every writer thread has returned and the position
    file is as it was. A thread that stood at the head of its loop has
    left its queue and its video file alone. A thread that had passed the
    test of [running] has completed that pass: it has popped the front
    frame of its queue, if there was one, and written it when its writer
    is open or could be opened. So a queue loses at most one frame once
    the destructor has begun; the frames behind it are never written. *)
Theorem destructor_drains_at_most_one_frame
    (in_pass : nat → bool) (s : system) :
  let s' := join_threads in_pass s in
  running (recorder s') = false
  ∧ exited s' = map (λ _, true) (exited s)
  ∧ json_writer (recorder s') = json_writer (recorder s)
  ∧ (∀ i (q : spsc_queue) w,
       frame_write_buffers (recorder s) !! i = Some q →
       video_writers (recorder s) !! i = Some w →
       if negb (default true (exited s !! i)) && in_pass i
       then frame_write_buffers (recorder s') !! i = Some (tail q)
            ∧ ∃ w', video_writers (recorder s') !! i = Some w'
                ∧ vw_frames w'
                  = match q with
                    | front :: _ =>
                        if isOpened w || vw_can_open w
                        then vw_frames w ++ [front] else vw_frames w
                    | [] => vw_frames w
                    end
       else frame_write_buffers (recorder s') !! i = Some q
            ∧ video_writers (recorder s') !! i = Some w).
Proof.
  cbv zeta. unfold join_threads. cbn [recorder exited].
  destruct (last_passes_position_state in_pass (exited s)
              (set_running false (recorder s))) as [Hps Hrun].
  injection Hps as _ _ _ _ _ Hjson.
  split_and!; [by rewrite Hrun|done|by rewrite Hjson|].
  intros i q w Hq Hw.
  apply (last_passes_at in_pass (exited s) (set_running false (recorder s))
           i q w); [exact Hq|exact Hw].
Qed.

(** C4 (as amended). For a recorder with at least one position source,
    after any run of calls of [writeStreams], interleaved in any way with
    the writer threads, what has been written to the position file is
    the opening of one array followed by one element per fully processed
    tick: with the closing [EndArray] added it is the rendering of that
    array. Element number [t] is the two-element array of the sample
    number that position source 0 delivered on tick [t] and the array of
    the records that the sources delivered on that tick, so the sample
    numbers appear in the order in which source 0 delivered them. When
    the recorder has no frame source, the destructor runs to its end and
    closes the array. *)
Theorem position_file_is_one_array_of_ticks
    (names fnames : list string) pfeed ffeed (codec_ok : bool)
    (r0 : Recorder) (tr : list event) (first : SMClient) :
  names ≠ [] →
  new_Recorder names fnames pfeed ffeed true codec_ok = Some r0 →
  position_sources r0 !! 0 = Some first →
  let orig := position_sources r0 in
  let s := exec (start r0) tr in
  let d := ticks_done (start r0) tr in
  json_writer (recorder s) ++ [EndArray]
  = render (JArray (map (tick_json orig names) (seq 0 d)))
  ∧ (∀ t j c0, t < d → orig !! j = Some c0 → is_Some (deliveries c0 !! t))
  ∧ map (stamp_at orig) (seq 0 d) = take d (map snd (deliveries first))
  ∧ (fnames = [] →
     ∀ in_pass, ∃ s',
       destructor in_pass s = Destroyed s'
       ∧ json_writer (recorder s')
         = render (JArray (map (tick_json orig names) (seq 0 d)))).
Proof.
  intros Hne Hnew Hfirst orig s d.
  destruct (new_Recorder_inv _ _ _ _ _ _ Hne Hnew) as [Hinv Hlen].
  pose proof (exec_inv _ _ _ (start r0) tr Hinv) as Hrun.
  simpl in Hrun. fold d orig s in Hrun.
  assert (Hjson : json_writer (recorder s) ++ [EndArray]
                  = render (JArray (map (tick_json orig names) (seq 0 d)))).
  { destruct Hrun. rewrite pi_json0, render_array. simpl. do 3 f_equal.
    rewrite map_map. apply map_ext. intros t. symmetry. by apply render_tick. }
  split_and!.
  - exact Hjson.
  - intros t j c0 Ht Hc0. destruct Hrun.
    apply lookup_lt_is_Some_2. specialize (pi_ticks0 _ _ Hc0). lia.
  - rewrite <- (lookups_take _ _ 0%Z).
    + apply map_ext. intros t. unfold stamp_at. subst orig. rewrite Hfirst.
      simpl. by rewrite list_lookup_fmap.
    + rewrite length_map. destruct Hrun. by eapply pi_ticks0.
  - intros -> in_pass.
    assert (Hex : exited s = []).
    { assert (Hshape : position_shape names r0).
      { revert Hnew. unfold new_Recorder. destruct (_ && _); [done|].
        intros [= <-]. unfold position_shape. simpl. rewrite !length_map.
        split_and!; try done. lia. }
      destruct (exec_position_shape names (start r0) tr Hshape) as [_ H].
      fold s in H. apply nil_length_inv. rewrite H.
      revert Hnew. unfold new_Recorder. destruct (_ && _); [done|].
      by intros [= <-]. }
    unfold destructor, join_threads. cbn [exited recorder]. rewrite Hex.
    cbn [map]. eexists. split; [reflexivity|]. cbn [recorder].
    unfold last_passes. cbn [length seq fold_left].
    unfold close_position_file. cbn [position_fp set_running].
    destruct Hrun. rewrite pi_fp0. cbn [json_writer set_json_writer].
    exact Hjson.
Qed.

(** The slip in the destructor. For a recorder with at least one frame
    source the destructor, once it has joined the writer threads, reaches
    the [delete] of the address of a vector element: its behaviour is
    undefined from there on, and the position file, if there is one, is
    still without its closing [EndArray]. *)
Theorem destructor_undefined_before_closing
    (names fnames : list string) pfeed ffeed (fopen_ok codec_ok : bool)
    (r0 : Recorder) (tr : list event) (in_pass : nat → bool) :
  fnames ≠ [] →
  new_Recorder names fnames pfeed ffeed fopen_ok codec_ok = Some r0 →
  let s := exec (start r0) tr in
  destructor in_pass s = Undefined (join_threads in_pass s)
  ∧ json_writer (recorder (join_threads in_pass s)) = json_writer (recorder s)
  ∧ (names ≠ [] →
     json_writer (recorder s) ++ [EndArray]
     = render (JArray (map (tick_json (position_sources r0) names)
                         (seq 0 (ticks_done (start r0) tr))))).
Proof.
  intros Hne Hnew s.
  assert (Hshape : position_shape names r0
                   ∧ length (frame_sources r0) = length fnames).
  { revert Hnew. unfold new_Recorder. destruct (_ && _); [done|].
    intros [= <-]. unfold position_shape. simpl. rewrite !length_map.
    split_and!; try done. lia. }
  destruct Hshape as [Hshape Hlen].
  destruct (exec_position_shape names (start r0) tr Hshape) as [_ Hex].
  fold s in Hex. unfold start in Hex. simpl in Hex.
  rewrite length_map, Hlen in Hex.
  split_and!.
  - unfold destructor. unfold join_threads at 1. cbn [exited].
    destruct (exited s) as [|b ex]; [|done].
    destruct fnames; [done|]. simpl in Hex. lia.
  - unfold join_threads. cbn [recorder].
    destruct (last_passes_position_state in_pass (exited s)
                (set_running false (recorder s))) as [Hps _].
    by injection Hps as _ _ _ _ _ ->.
  - intros Hnames.
    assert (fopen_ok = true) as ->.
    { revert Hnew. unfold new_Recorder.
      rewrite (bool_decide_eq_false_2 _ Hnames). by destruct fopen_ok. }
    destruct (new_Recorder_inv _ _ _ _ _ _ Hnames Hnew) as [Hinv Hl].
    pose proof (exec_inv _ _ _ (start r0) tr Hinv) as Hrun.
    simpl in Hrun. fold s in Hrun. destruct Hrun.
    rewrite pi_json0, render_array. simpl. do 3 f_equal.
    rewrite map_map. apply map_ext. intros t. symmetry. by apply render_tick.
Qed.




End Recorder.

(** ** Concrete runs: frames and positions are numbers *)

(** One camera that delivers the frames 0, 1, ..., 128 and no position
    source; the frame queue holds 128 frames. *)
Definition camera_feed (nm : string) : list (option Z) :=
  map (λ n, Some (Z.of_nat n)) (seq 0 129).

Definition no_positions (nm : string) : list (option (Z * Z)) := [].

Definition camera_recorder : option (Recorder Z Z) :=
  new_Recorder Z Z 0%Z 0%Z [] ["cam"] no_positions camera_feed true true.

(** C2 (counterexample). The writer thread has fallen behind: after 128
    ticks the queue is full and frame 128 is ready at the source. The next
    call of [writeStreams] reads that frame and runs to its last line with
    no pass of the writer in between, so the coordinator has not waited
    for space; the queue is unchanged, the source is empty, and frame 128
    is in no queue. *)
Lemma full_queue_drops_frame :
  ∃ r0, camera_recorder = Some r0
  ∧ let s := exec Z Z 128 (start Z Z r0) (repeat Tick 128) in
    frame_write_buffers Z Z (recorder Z Z s) = [map Z.of_nat (seq 0 128)]
    ∧ frame_sources Z Z (recorder Z Z s) = [MatSource Z "cam" [Some 128%Z]]
    ∧ exited Z Z s = [false]
    ∧ snd (writeStreams Z Z 128 (recorder Z Z s)) = TickDone
    ∧ frame_sources Z Z (fst (writeStreams Z Z 128 (recorder Z Z s)))
      = [MatSource Z "cam" []]
    ∧ current_frame Z Z (fst (writeStreams Z Z 128 (recorder Z Z s))) = 128%Z
    ∧ frame_write_buffers Z Z (fst (writeStreams Z Z 128 (recorder Z Z s)))
      = [map Z.of_nat (seq 0 128)]
    ∧ 128%Z ∉ map Z.of_nat (seq 0 128).
Proof.
  eexists. split; [reflexivity|].
  cbv zeta. split_and!; try (vm_compute; reflexivity).
  intros H. apply list_elem_of_fmap in H as (n & Hn & Hin).
  apply elem_of_seq in Hin. lia.
Qed.

(** Two cameras, the second of which has nothing new: the frame of the
    first is read and queued although the call ends at the failed read. *)
Definition two_cameras : Recorder Z Z :=
  Rec Z Z true 0 0 false [] [] [] false []
    [MatSource Z "camA" [Some 1%Z]; MatSource Z "camB" [None]]
    [[]; []] [Video Z true false []; Video Z true false []] 0%Z.

Example writeStreams_pushes_before_failed_read :
  frame_write_buffers Z Z (fst (writeStreams Z Z 2 two_cameras))
  = [[1%Z]; []]
  ∧ frame_client_idx Z Z (fst (writeStreams Z Z 2 two_cameras)) = 1
  ∧ frame_read_success Z Z (fst (writeStreams Z Z 2 two_cameras)) = false
  ∧ snd (writeStreams Z Z 2 two_cameras) = FrameMissing.
Proof. split_and!; reflexivity. Qed.

(** One camera that delivers the frames 1, 2 and 3. *)
Definition three_frames (nm : string) : list (option Z) :=
  [Some 1%Z; Some 2%Z; Some 3%Z].

(** C3 (counterexample). Three frames are queued and the writer has
    written the first one when the destructor clears [running]; at its
    next test of [running] the writer thread returns, with frames 2 and 3
    still in its queue, and the video file holds frame 1 only, also when
    the destructor has joined the threads. *)
Lemma writer_exits_with_frames_queued :
  ∃ r0, new_Recorder Z Z 0%Z 0%Z [] ["cam"] no_positions three_frames true true
        = Some r0
  ∧ let s := exec Z Z 128 (start Z Z r0)
               [Tick; Pass 0; Tick; Tick; Stop; Pass 0] in
    exited Z Z s = [true]
    ∧ running Z Z (recorder Z Z s) = false
    ∧ frame_write_buffers Z Z (recorder Z Z s) = [[2%Z; 3%Z]]
    ∧ map (vw_frames Z) (video_writers Z Z (recorder Z Z s)) = [[1%Z]]
    ∧ (∀ in_pass,
         frame_write_buffers Z Z (recorder Z Z (join_threads Z Z in_pass s))
         = [[2%Z; 3%Z]]
         ∧ map (vw_frames Z)
             (video_writers Z Z (recorder Z Z (join_threads Z Z in_pass s)))
           = [[1%Z]]).
Proof.
  eexists. split; [reflexivity|]. cbv zeta.
  split_and!; try (vm_compute; reflexivity).
  intros in_pass. split; reflexivity.
Qed.

(** One position source "p" whose second read finds nothing new, and one
    camera. *)
Definition p_feed (nm : string) : list (option (Z * Z)) :=
  [Some (10, 0); None; Some (11, 1)]%Z.

Definition two_frames (nm : string) : list (option Z) :=
  [Some 100%Z; Some 101%Z].

Definition position_recorder : Recorder Z Z :=
  Rec Z Z true 0 0 false ["p"] [PosSource Z "p" (p_feed "p") 0%Z] [0%Z]
    true [StartArray Z]
    [MatSource Z "cam" (two_frames "cam")] [[]] [Video Z true false []] 0%Z.

(** The position source "p" alone, with no camera. *)
Definition no_frames (nm : string) : list (option Z) := [].

Definition position_only : Recorder Z Z :=
  Rec Z Z true 0 0 true ["p"] [PosSource Z "p" (p_feed "p") 0%Z] [0%Z]
    true [StartArray Z] [] [] [] 0%Z.

Lemma position_file_is_one_array_of_ticks_witness :
  new_Recorder Z Z 0%Z 0%Z ["p"] [] p_feed no_frames true true
  = Some position_only
  ∧ ticks_done Z Z 128 (start Z Z position_only) [Tick; Tick; Tick] = 2
  ∧ ∃ s', destructor Z Z (λ _, false)
            (exec Z Z 128 (start Z Z position_only) [Tick; Tick; Tick])
          = Destroyed Z Z s'
      ∧ json_writer Z Z (recorder Z Z s')
        = [StartArray Z;
           StartArray Z; Uint Z 0; StartArray Z; Serialized Z "p" 10%Z;
           EndArray Z; EndArray Z;
           StartArray Z; Uint Z 1; StartArray Z; Serialized Z "p" 11%Z;
           EndArray Z; EndArray Z;
           EndArray Z].
Proof.
  split; [reflexivity|]. split; [reflexivity|].
  assert (Hne : ["p"] ≠ @nil string) by discriminate.
  exact (proj2 (proj2 (proj2
           (position_file_is_one_array_of_ticks Z Z 0%Z 0%Z 128
              ["p"] [] p_feed no_frames true position_only
              [Tick; Tick; Tick] (PosSource Z "p" (p_feed "p") 0%Z)
              Hne eq_refl eq_refl))) eq_refl (λ _, false)).
Defined.

(** A position source whose sample counter, a 32-bit number, wraps
    between its two deliveries. *)
Definition wrapping_feed (nm : string) : list (option (Z * Z)) :=
  [Some (10, 4294967295); Some (11, 0)]%Z.

(** C4 (counterexample). The sample indices of the elements are whatever
    position source 0 delivers: with a source whose sample counter wraps,
    two ticks leave a closed array whose elements carry the sample
    indices 4294967295 and 0, in that order, which is not increasing. *)
Lemma sample_indices_follow_the_source :
  ∃ r0 s',
    new_Recorder Z Z 0%Z 0%Z ["p"] [] wrapping_feed no_frames true true
    = Some r0
    ∧ ticks_done Z Z 128 (start Z Z r0) [Tick; Tick] = 2
    ∧ destructor Z Z (λ _, false) (exec Z Z 128 (start Z Z r0) [Tick; Tick])
      = Destroyed Z Z s'
    ∧ json_writer Z Z (recorder Z Z s')
      = [StartArray Z;
         StartArray Z; Uint Z 4294967295; StartArray Z;
         Serialized Z "p" 10%Z; EndArray Z; EndArray Z;
         StartArray Z; Uint Z 0; StartArray Z;
         Serialized Z "p" 11%Z; EndArray Z; EndArray Z;
         EndArray Z]
    ∧ ¬ StronglySorted Z.lt [4294967295; 0]%Z.
Proof.
  eexists. eexists. split; [reflexivity|]. split; [reflexivity|].
  split; [reflexivity|]. split; [reflexivity|].
  intros H. apply StronglySorted_inv in H as [_ H].
  apply Forall_inv in H. lia.
Qed.

(** The recorder of "p" and one camera: its destructor does not get to
    the closing bracket. *)
Lemma destructor_undefined_before_closing_witness :
  destructor Z Z (λ _, false)
    (exec Z Z 128 (start Z Z position_recorder) [Tick; Pass 0; Tick; Tick])
  = Undefined Z Z
      (join_threads Z Z (λ _, false)
         (exec Z Z 128 (start Z Z position_recorder)
            [Tick; Pass 0; Tick; Tick])).
Proof.
  assert (Hne : ["cam"] ≠ @nil string) by discriminate.
  exact (proj1 (destructor_undefined_before_closing Z Z 0%Z 0%Z 128
                  ["p"] ["cam"] p_feed two_frames true true
                  position_recorder [Tick; Pass 0; Tick; Tick]
                  (λ _, false) Hne eq_refl)).
Defined.

(** The run used below: the camera's first frame is queued and written, a
    second tick finds nothing new at "p", a third one completes. *)
Definition retry_run : list event := [Tick; Pass 0; Tick; Tick].

Lemma sources_are_read_in_lockstep_witness :
  ticks_done Z Z 128 (start Z Z position_recorder) retry_run = 2
  ∧ frame_deliveries Z (MatSource Z "cam" [])
    = drop 2 (frame_deliveries Z (MatSource Z "cam" (two_frames "cam")))
  ∧ deliveries Z (PosSource Z "p" [] 1%Z)
    = drop 2 (deliveries Z (PosSource Z "p" (p_feed "p") 0%Z)).
Proof.
  split; [reflexivity|].
  pose proof (sources_are_read_in_lockstep Z Z 0%Z 0%Z 128
                ["p"] ["cam"] p_feed two_frames true true position_recorder
                retry_run eq_refl) as [Hf Hp].
  split.
  - exact (proj1 (Hf 0 (MatSource Z "cam" (two_frames "cam"))
                    (MatSource Z "cam" []) eq_refl eq_refl)).
  - exact (proj1 (Hp 0 (PosSource Z "p" (p_feed "p") 0%Z)
                    (PosSource Z "p" [] 1%Z) eq_refl eq_refl)).
Defined.

Lemma video_file_keeps_delivery_order_witness :
  [100%Z] ++ [101%Z]
  = take 2 (frame_deliveries Z (MatSource Z "cam" (two_frames "cam"))).
Proof.
  refine (proj2 (video_file_keeps_delivery_order Z Z 0%Z 0%Z 128
                   ["p"] ["cam"] p_feed two_frames true true
                   position_recorder retry_run 0
                   (MatSource Z "cam" (two_frames "cam"))
                   [101%Z] (Video Z true true [100%Z])
                   eq_refl eq_refl eq_refl eq_refl) eq_refl _).
  simpl. lia.
Defined.

Lemma vector_accesses_stay_in_range_witness :
  length (frame_write_buffers Z Z
            (recorder Z Z (exec Z Z 128 (start Z Z position_recorder)
                             retry_run))) = 1
  ∧ position_client_idx Z Z
      (recorder Z Z (exec Z Z 128 (start Z Z position_recorder) retry_run))
    ≤ 1.
Proof.
  pose proof (vector_accesses_stay_in_range Z Z 0%Z 0%Z 128
                ["p"] ["cam"] p_feed two_frames true true position_recorder
                retry_run eq_refl) as (_ & H2 & _ & _ & _ & _ & _ & _ & H9).
  exact (conj H2 H9).
Defined.

(** ** checkFile *)

Section Files.

#[local] Open Scope Z_scope.

Definition newline : string := String (ascii_of_nat 10) "".

(** [exists_] is [bfs::exists] on the file system at the time of the
    call; [parent_path], [stem] and [extension] are the parts that
    [boost::filesystem::path] makes of a file name. *)
Variable exists_ : string → bool.
Variables parent_path stem extension : string → string.

(** The file name recreated in pass [i] of the loop. *)
Definition renamed (original_file : string) (i : Z) : string :=
  let append := "_" +:+ pretty i in
  ((parent_path original_file +:+ "/")
     +:+ (stem original_file +:+ append))
    +:+ extension original_file.

(** [while (bfs::exists(file.c_str()))] with [int i]. [None]: the loop is
    still running after [fuel] passes, or [++i] would overflow. *)
Fixpoint checkFile_loop (fuel : nat) (original_file file : string) (i : Z)
  : option (string * Z) :=
  if exists_ file
  then
    match fuel with
    | O => None
    | S n =>
        if i =? 2 ^ 31 - 1 then None
        else
          let i := i + 1 in
          checkFile_loop n original_file (renamed original_file i) i
    end
  else Some (file, i).

(** [bool Recorder::checkFile(std::string& file)]: the file name on
    return, the value returned and what is written to [std::cout]. *)
Definition checkFile (fuel : nat) (file : string)
  : option (string * bool * string) :=
  let original_file := file in
  match checkFile_loop fuel original_file file 0 with
  | None => None
  | Some (file, i) =>
      if negb (i =? 0)
      then
        Some (file, true,
              ("Warning: " +:+ original_file +:+ " exists." +:+ newline)
                +:+ ("File renamed to: " +:+ file +:+ "." +:+ newline))
      else Some (file, false, "")
  end.

(** The names tried, in order: the name asked for, then the numbered
    ones. *)
Definition name_at (file : string) (k : nat) : string :=
  match k with
  | O => file
  | S _ => renamed file (Z.of_nat k)
  end.

Lemma checkFile_loop_first_free (original_file : string) (k : nat)
    (d i fuel : nat) :
  k = (i + d)%nat →
  (∀ j, (i ≤ j < k)%nat → exists_ (name_at original_file j) = true) →
  exists_ (name_at original_file k) = false →
  Z.of_nat k < 2 ^ 31 →
  (d ≤ fuel)%nat →
  checkFile_loop fuel original_file (name_at original_file i) (Z.of_nat i)
  = Some (name_at original_file k, Z.of_nat k).
Proof.
  revert i fuel. induction d as [|d IH]; intros i fuel -> Hbefore Hfree Hk Hf.
  - rewrite Nat.add_0_r in *. destruct fuel; simpl; by rewrite Hfree.
  - destruct fuel as [|fuel]; [lia|]. cbn [checkFile_loop].
    rewrite Hbefore by lia.
    destruct (Z.eqb_spec (Z.of_nat i) (2 ^ 31 - 1)) as [He|_]; [lia|].
    cbv zeta. replace (Z.of_nat i + 1)%Z with (Z.of_nat (S i)) by lia.
    change (renamed original_file (Z.of_nat (S i)))
      with (name_at original_file (S i)).
    apply IH; [lia| |done|done|lia].
    intros j Hj. apply Hbefore. lia.
Qed.

Lemma checkFile_loop_sound (fuel : nat) (original_file file file' : string)
    (i i' : Z) :
  checkFile_loop fuel original_file file i = Some (file', i') →
  exists_ file' = false
  ∧ i <= i'
  ∧ (i' = i → file' = file)
  ∧ (i' = i ↔ exists_ file = false).
Proof.
  revert file i. induction fuel as [|fuel IH]; intros file i; simpl.
  - destruct (exists_ file) eqn:E; [done|]. intros [= <- <-].
    split_and!; try done; try lia.
  - destruct (exists_ file) eqn:E.
    + destruct (Z.eqb_spec i (2 ^ 31 - 1)); [done|].
      intros H. apply IH in H as (H1 & H2 & _ & _).
      split_and!; [done|lia|lia|]. split; [lia|done].
    + intros [= <- <-]. split_and!; try done; try lia.
Qed.

(** The first free name. When the name asked for and its first [k - 1]
    numbered variants exist and the next one does not, [checkFile] ends
    with that one, numbered from the name asked for, and reports a
    renaming exactly when the name asked for was taken. *)
Theorem checkFile_first_free_name (fuel : nat) (file : string) (k : nat) :
  (∀ j, (j < k)%nat → exists_ (name_at file j) = true) →
  exists_ (name_at file k) = false →
  Z.of_nat k < 2 ^ 31 →
  (k ≤ fuel)%nat →
  checkFile fuel file
  = Some (name_at file k, bool_decide (k ≠ 0%nat),
          if bool_decide (k ≠ 0%nat)
          then ("Warning: " +:+ file +:+ " exists." +:+ newline)
                 +:+ ("File renamed to: " +:+ name_at file k +:+ "."
                      +:+ newline)
          else "").
Proof.
  intros Hbefore Hfree Hk Hf. unfold checkFile.
  change file with (name_at file 0) at 2. change 0 with (Z.of_nat 0).
  rewrite (checkFile_loop_first_free file k k 0 fuel); try done.
  - destruct k as [|k]; [done|].
    rewrite (bool_decide_eq_true_2 (S k ≠ 0%nat)) by done.
    by destruct (Z.eqb_spec (Z.of_nat (S k)) (Z.of_nat 0)); [lia|].
  - intros j Hj. apply Hbefore. lia.
Qed.

(** Whatever [checkFile] ends with is a name that does not exist; it
    returns [true] exactly when the name asked for exists, and otherwise
    leaves the name alone and prints nothing. *)
Theorem checkFile_result_is_free (fuel : nat) (file file' : string)
    (file_exists : bool) (out : string) :
  checkFile fuel file = Some (file', file_exists, out) →
  exists_ file' = false
  ∧ file_exists = exists_ file
  ∧ (file_exists = false → file' = file ∧ out = "").
Proof.
  unfold checkFile.
  destruct (checkFile_loop fuel file file 0) as [[f i]|] eqn:Hloop; [|done].
  apply checkFile_loop_sound in Hloop as (H1 & H2 & H3 & H4).
  destruct (Z.eqb_spec i 0) as [->|Hne]; simpl.
  - intros [= <- <- <-]. rewrite (H3 eq_refl).
    split_and!; [by rewrite <- (H3 eq_refl)|symmetry; by apply H4|done].
  - intros [= <- <- <-]. split_and!; [done| |done].
    destruct (exists_ file) eqn:E; [done|].
    destruct Hne. by apply H4.
Qed.

End Files.

(** A directory in which "cam.avi" and "cam_1.avi" exist. *)
Definition disk (f : string) : bool :=
  bool_decide (f ∈ ["/data/cam.avi"; "/data/cam_1.avi"]).

Definition parts (part : string) (f : string) : string :=
  if decide (f = "/data/cam.avi") then part else "".

Lemma checkFile_first_free_name_witness :
  checkFile disk (parts "/data") (parts "cam") (parts ".avi") 5
    "/data/cam.avi"
  = Some ("/data/cam_2.avi", true,
          ("Warning: /data/cam.avi exists." +:+ newline)
            +:+ ("File renamed to: /data/cam_2.avi." +:+ newline)).
Proof.
  refine (checkFile_first_free_name disk (parts "/data") (parts "cam")
            (parts ".avi") 5 "/data/cam.avi" 2 _ _ _ _).
  - intros [|[|j]] Hj; [reflexivity|reflexivity|lia].
  - reflexivity.
  - reflexivity.
  - lia.
Defined.

Lemma checkFile_result_is_free_witness :
  disk "/data/cam_2.avi" = false ∧ true = disk "/data/cam.avi".
Proof.
  pose proof (checkFile_result_is_free disk (parts "/data") (parts "cam")
                (parts ".avi") 5 "/data/cam.avi" "/data/cam_2.avi" true
                (("Warning: /data/cam.avi exists." +:+ newline)
                   +:+ ("File renamed to: /data/cam_2.avi." +:+ newline))
                eq_refl) as (H1 & H2 & _).
  exact (conj H1 H2).
Defined.

End Recorder.

(* ===================================================================== *)
(** * src/decorator/Decorator.cpp *)
(* ===================================================================== *)

Module Decorator.

Section Decorator.

(** [Point2d] is [cv::Point2d] and [Scalar] is [double]; their arithmetic
    is floating point and is taken as given. *)
Variable Point2d : Type.
Variable Scalar : Type.
Variable point_add : Point2d → Point2d → Point2d.
Variable point_scale : Scalar → Point2d → Point2d.

(** The fields of [oat::Position2D] read by the drawing code. *)
Record Position2D := Pos2D {
  label : string;
  position_valid : bool;
  position : Point2d;
  velocity_valid : bool;
  velocity : Point2d
}.

(** What a frame SOURCE node advertises
    ([Source<SharedFrameHeader>::ConnectionParameters]). *)
Record ConnectionParameters := Params {
  bytes : Z;
  rows : Z;
  cols : Z;
  type : Z
}.

(** The members of [Decorator] used below. An entry of [position_sources_]
    is the tuple of the address, the last position read and the position
    SOURCE; the SOURCE is identified by the index of its entry. *)
Record Decorator := Deco {
  frame_source_address_ : string;
  frame_sink_address_ : string;
  position_sources_ : list (string * Position2D);
  position_circle_radius_ : Z;
  line_thickness_ : Z;
  velocity_scale_factor_ : Scalar
}.

(** ** connectToNodes *)

(** The endpoints of a decorator and the calls made on them. *)
Inductive endpoint := frame_source_ | position_source (i : nat) | frame_sink_.

Inductive call :=
| touch (ep : endpoint) (address : string)
| connect (ep : endpoint)
| parameters (ep : endpoint)
| bind (ep : endpoint) (address : string) (nbytes : Z)
| retrieve (ep : endpoint) (nrows ncols ntype : Z).

(** Code that calls endpoints: a computation that appends to the log of
    the calls made so far. *)
Definition io (A : Type) : Type := list call → A * list call.

#[local] Instance io_ret : MRet io := λ A x log, (x, log).

#[local] Instance io_bind : MBind io :=
  λ A B k m log, let '(x, log1) := m log in k x log1.

Definition emit (c : call) : io unit := λ log, (tt, log ++ [c]).

(** [for (auto &pos : position_sources_) body], with the index of the
    entry. *)
Fixpoint for_each {A} (i : nat) (l : list A) (body : nat → A → io unit)
  : io unit :=
  match l with
  | [] => mret tt
  | x :: rest => body i x ;; for_each (S i) rest body
  end.

(** [Decorator::connectToNodes]; [node] is what the frame source node
    advertises. *)
Definition connectToNodes (d : Decorator) (node : ConnectionParameters)
  : io unit :=
  (* Establish our a slot in the node *)
  emit (touch frame_source_ (frame_source_address_ d)) ;;
  (* Wait for synchronous start with sink when it binds the node *)
  emit (connect frame_source_) ;;
  (* Get frame meta data to format sink *)
  param ← (emit (parameters frame_source_) ;; mret node) ;
  (* Connect to position source nodes *)
  for_each 0 (position_sources_ d)
    (λ i pos, emit (touch (position_source i) (fst pos))) ;;
  (* Verify connections to position source nodes *)
  for_each 0 (position_sources_ d)
    (λ i pos, emit (connect (position_source i))) ;;
  (* Bind to sink sink node and create a shared cv::Mat *)
  emit (bind frame_sink_ (frame_sink_address_ d) (bytes param)) ;;
  emit (retrieve frame_sink_ (rows param) (cols param) (type param)).

(** The calls made by a computation started with an empty log. *)
Definition calls {A} (m : io A) : list call := snd (m []).

(** ** drawPosition and drawVelocity *)

(** The drawing primitives applied to [internal_frame_]; [color] is the
    index into [pos_colors_]. *)
Inductive drawing :=
| circle (center : Point2d) (radius : Z) (color : Z) (thickness : Z)
| line (from to : Point2d) (color : Z) (thickness : Z).

(** [(i > position_sources_.size() - 1) ? i = 0 : i++] on [size_t]. *)
Definition next_color_index (size i : Z) : Z :=
  if i >? wrap 64 (size - 1) then 0 else wrap 64 (i + 1).

(** The range-based [for] loop of [drawPosition] and [drawVelocity]: each
    entry is visited with the current value of the counter [i]. *)
Fixpoint color_loop {A} (size i : Z) (l : list A) : list (Z * A) :=
  match l with
  | [] => []
  | x :: rest => (i, x) :: color_loop size (next_color_index size i) rest
  end.

(** [Decorator::drawPosition] *)
Definition drawPosition (d : Decorator) : list drawing :=
  let size := Z.of_nat (length (position_sources_ d)) in
  flat_map
    (λ '(i, pos),
       if position_valid (snd pos)
       then [circle (position (snd pos)) (position_circle_radius_ d) i
               (line_thickness_ d)]
       else [])
    (color_loop size 0 (position_sources_ d)).

(** [Decorator::drawVelocity] *)
Definition drawVelocity (d : Decorator) : list drawing :=
  let size := Z.of_nat (length (position_sources_ d)) in
  flat_map
    (λ '(i, pos),
       if velocity_valid (snd pos) && position_valid (snd pos)
       then
         let end_ :=
           point_add (position (snd pos))
             (point_scale (velocity_scale_factor_ d) (velocity (snd pos))) in
         [line (position (snd pos)) end_ i (line_thickness_ d)]
       else [])
    (color_loop size 0 (position_sources_ d)).

(** ** Properties of connectToNodes *)

#[local] Open Scope nat_scope.

Definition endpoint_of (c : call) : endpoint :=
  match c with
  | touch ep _ | connect ep | parameters ep | bind ep _ _
  | retrieve ep _ _ _ => ep
  end.

(** The reader side of the decorator: its frame source and its position
    sources. *)
Definition is_source (ep : endpoint) : bool :=
  match ep with frame_sink_ => false | _ => true end.

Lemma for_each_emit {A} (f : nat → A → call) (l : list A) (i : nat)
    (log : list call) :
  for_each i l (λ k x log', (tt, log' ++ [f k x])) log
  = (tt, log ++ imap (λ k x, f (i + k)%nat x) l).
Proof.
  revert i log. induction l as [|x l IH]; intros i log.
  - simpl. by rewrite app_nil_r.
  - cbn [for_each]. unfold mbind, io_bind. rewrite IH.
    rewrite <- app_assoc. cbn [imap app]. rewrite Nat.add_0_r.
    do 3 f_equal. apply imap_ext. intros k y _. simpl. f_equal. lia.
Qed.

(** The calls of [connectToNodes], in order. *)
Lemma connectToNodes_calls (d : Decorator) (node : ConnectionParameters) :
  calls (connectToNodes d node)
  = [touch frame_source_ (frame_source_address_ d);
     connect frame_source_;
     parameters frame_source_]
    ++ imap (λ i pos, touch (position_source i) (fst pos)) (position_sources_ d)
    ++ imap (λ i pos, connect (position_source i)) (position_sources_ d)
    ++ [bind frame_sink_ (frame_sink_address_ d) (bytes node);
        retrieve frame_sink_ (rows node) (cols node) (type node)].
Proof.
  unfold calls, connectToNodes.
  unfold mbind, io_bind, mret, io_ret, emit. cbn [app].
  rewrite (for_each_emit (λ i pos, touch (position_source i) pos.1)).
  rewrite (for_each_emit (λ i (pos : string * Position2D),
                            connect (position_source i))).
  simpl. by rewrite <- !app_assoc.
Qed.

(** Where each call sits in the sequence. *)
Lemma connectToNodes_lookup (d : Decorator) (node : ConnectionParameters)
    (j : nat) (c : call) :
  let n := length (position_sources_ d) in
  calls (connectToNodes d node) !! j = Some c →
  (j < 3 ∧ endpoint_of c = frame_source_
   ∧ (j = 0 ↔ ∃ a, c = touch frame_source_ a)
   ∧ (j = 1 ↔ c = connect frame_source_))
  ∨ (∃ k a, j = 3 + k ∧ k < n ∧ c = touch (position_source k) a)
  ∨ (∃ k, j = 3 + n + k ∧ k < n ∧ c = connect (position_source k))
  ∨ (j = 3 + 2 * n
     ∧ c = bind frame_sink_ (frame_sink_address_ d) (bytes node))
  ∨ (j = 4 + 2 * n
     ∧ c = retrieve frame_sink_ (rows node) (cols node) (type node)).
Proof.
  intros n. rewrite connectToNodes_calls. intros H.
  apply lookup_app_Some in H as [H|[Hj H]].
  { left. destruct j as [|[|[|j]]]; simpl in H; try done;
      injection H as <-; (split; [lia|]); (split; [done|]);
      split; split; try done; try lia; try (intros [a Ha]; done); eauto. }
  cbn [length] in Hj, H. right.
  apply lookup_app_Some in H as [H|[Hj2 H]].
  { left. rewrite list_lookup_imap in H.
    apply fmap_Some in H as (pos & Hp & ->). apply lookup_lt_Some in Hp.
    exists (j - 3), (fst pos). split; [lia|]. split; [done|].
    do 2 f_equal. }
  rewrite length_imap in Hj2, H. right.
  apply lookup_app_Some in H as [H|[Hj3 H]].
  { left. rewrite list_lookup_imap in H.
    apply fmap_Some in H as (pos & Hp & ->). apply lookup_lt_Some in Hp.
    exists (j - 3 - n). fold n in Hj2, Hp. split; [lia|]. split; [lia|].
    done. }
  rewrite length_imap in Hj3, H. right. fold n in Hj2, Hj3, H.
  destruct (j - 3 - n - n) as [|[|m]] eqn:Hm; simpl in H; [| |done].
  - left. injection H as <-. split; [lia|done].
  - right. injection H as <-. split; [lia|done].
Qed.

(** C7. [connectToNodes] sets up its endpoints in a fixed order: the
    frame source is touched and connected and its parameters are read,
    then every position source is touched, then every position source is
    connected, and only then the frame sink is bound, with the size read
    from the frame source, and the shared frame is retrieved. So every
    call on a source comes before the [bind] of the sink, each source is
    touched before it is connected, and the sink is bound before the
    frame is retrieved. *)
Theorem connectToNodes_sources_first_sinks_last
    (d : Decorator) (node : ConnectionParameters) :
  let trace := calls (connectToNodes d node) in
  trace
  = [touch frame_source_ (frame_source_address_ d);
     connect frame_source_;
     parameters frame_source_]
    ++ imap (λ i pos, touch (position_source i) (fst pos)) (position_sources_ d)
    ++ imap (λ i pos, connect (position_source i)) (position_sources_ d)
    ++ [bind frame_sink_ (frame_sink_address_ d) (bytes node);
        retrieve frame_sink_ (rows node) (cols node) (type node)]
  ∧ (∀ i j a nbytes c,
       trace !! i = Some (bind frame_sink_ a nbytes) →
       trace !! j = Some c → is_source (endpoint_of c) = true → j < i)
  ∧ (∀ i j ep a,
       trace !! i = Some (touch ep a) → trace !! j = Some (connect ep) →
       i < j)
  ∧ (∀ i j a nbytes r c t,
       trace !! i = Some (bind frame_sink_ a nbytes) →
       trace !! j = Some (retrieve frame_sink_ r c t) → i < j)
  ∧ (∀ k pos, position_sources_ d !! k = Some pos →
       trace !! (3 + k) = Some (touch (position_source k) (fst pos))
       ∧ trace !! (3 + length (position_sources_ d) + k)
         = Some (connect (position_source k))).
Proof.
  intros trace. split; [apply connectToNodes_calls|].
  split_and!.
  - intros i j a nbytes c Hi Hj Hc.
    apply connectToNodes_lookup in Hi, Hj. cbv zeta in Hi, Hj.
    destruct Hi as [(_ & He & _)|[(k & b & _ & _ & E)|[(k & _ & _ & E)
                   |[[-> _]|[_ E]]]]]; try done.
    destruct Hj as [(Hj & _)|[(k & b & -> & Hk & _)|[(k & -> & Hk & _)
                   |[[_ ->]|[_ ->]]]]]; try done; lia.
  - intros i j ep a Hi Hj.
    apply connectToNodes_lookup in Hi, Hj. cbv zeta in Hi, Hj.
    destruct Hi as [(Hi3 & He & Hi0 & _)|[(k & b & -> & Hk & E)
                   |[(k & _ & _ & E)|[[_ E]|[_ E]]]]]; try done.
    + destruct Hj as [(Hj3 & _ & _ & Hj1)|[(k & b & _ & _ & E)
                     |[(k & -> & Hk & E)|[[_ E]|[_ E]]]]]; try done.
      * simpl in He. subst ep.
        assert (i = 0) by (apply Hi0; eauto).
        assert (j = 1) by (by apply Hj1). lia.
      * lia.
    + injection E as -> ->.
      destruct Hj as [(_ & He & _)|[(k' & b' & _ & _ & E)
                     |[(k' & -> & Hk' & E)|[[_ E]|[_ E]]]]]; try done.
      injection E as ->. lia.
  - intros i j a nbytes r c t Hi Hj.
    apply connectToNodes_lookup in Hi, Hj. cbv zeta in Hi, Hj.
    destruct Hi as [(_ & He & _)|[(k & b & _ & _ & E)|[(k & _ & _ & E)
                   |[[-> _]|[_ E]]]]]; try done.
    destruct Hj as [(_ & He & _)|[(k & b & _ & _ & E)|[(k & _ & _ & E)
                   |[[_ E]|[-> _]]]]]; try done. lia.
  - intros k pos Hk. subst trace. rewrite connectToNodes_calls.
    pose proof (lookup_lt_Some _ _ _ Hk) as Hlt. split.
    + rewrite lookup_app_r by (simpl; lia).
      rewrite lookup_app_l by (rewrite length_imap; simpl; lia).
      replace (3 + k - length [touch frame_source_ (frame_source_address_ d);
        connect frame_source_; parameters frame_source_]) with k by (simpl; lia).
      by rewrite list_lookup_imap, Hk.
    + rewrite lookup_app_r by (simpl; lia).
      rewrite lookup_app_r by (rewrite length_imap; simpl; lia).
      rewrite lookup_app_l by (rewrite !length_imap; simpl; lia).
      rewrite length_imap.
      replace (_ - _ - _) with k by (simpl; lia).
      by rewrite list_lookup_imap, Hk.
Qed.

#[local] Open Scope Z_scope.

(** ** Properties of the color-index counter *)

(** Below the number of sources the counter is incremented, never
    reset. *)
Lemma next_color_index_below (size i : Z) :
  0 <= i < size → size < 2 ^ 64 → next_color_index size i = i + 1.
Proof.
  intros Hi Hsize. unfold next_color_index.
  rewrite (wrap_small 64 (size - 1)) by lia.
  rewrite (wrap_small 64 (i + 1)) by lia.
  destruct (Z.gtb_spec i (size - 1)); [lia|reflexivity].
Qed.

Lemma color_loop_counts {A} (size i : Z) (l : list A) :
  0 <= i → i + Z.of_nat (length l) <= size → size < 2 ^ 64 →
  color_loop size i l = imap (λ k x, (i + Z.of_nat k, x)) l.
Proof.
  revert i. induction l as [|x l IH]; intros i Hi Hlen Hsize; [done|].
  cbn [color_loop imap]. cbn [length] in Hlen.
  rewrite next_color_index_below by lia. rewrite IH by lia.
  rewrite Z.add_0_r. f_equal. apply imap_ext. intros k y _. simpl.
  f_equal. lia.
Qed.

(** C9. In one pass of [drawPosition] or [drawVelocity] over [n] position
    sources the counter takes the values 0, 1, ..., n-1, one per source:
    at every index below [n], the last one included, the counter is
    incremented and not reset to 0. So source number [k] is drawn with
    color index [k]. *)
Theorem color_index_counts_up (d : Decorator) :
  let n := length (position_sources_ d) in
  Z.of_nat n < 2 ^ 64 →
  map fst (color_loop (Z.of_nat n) 0 (position_sources_ d))
  = map Z.of_nat (seq 0 n)
  ∧ (∀ k, 0 <= k < Z.of_nat n →
       (k >? wrap 64 (Z.of_nat n - 1)) = false
       ∧ next_color_index (Z.of_nat n) k = k + 1)
  ∧ drawPosition d
    = flat_map
        (λ '(i, pos),
           if position_valid (snd pos)
           then [circle (position (snd pos)) (position_circle_radius_ d) i
                   (line_thickness_ d)]
           else [])
        (imap (λ k pos, (Z.of_nat k, pos)) (position_sources_ d))
  ∧ drawVelocity d
    = flat_map
        (λ '(i, pos),
           if velocity_valid (snd pos) && position_valid (snd pos)
           then [line (position (snd pos))
                   (point_add (position (snd pos))
                      (point_scale (velocity_scale_factor_ d)
                         (velocity (snd pos))))
                   i (line_thickness_ d)]
           else [])
        (imap (λ k pos, (Z.of_nat k, pos)) (position_sources_ d)).
Proof.
  intros n Hn.
  assert (Hloop : color_loop (Z.of_nat n) 0 (position_sources_ d)
                  = imap (λ k pos, (Z.of_nat k, pos)) (position_sources_ d)).
  { rewrite color_loop_counts by (subst n; lia).
    apply imap_ext. intros k pos _. simpl. f_equal. }
  split_and!.
  - rewrite Hloop. subst n. generalize (position_sources_ d) as l. intros l.
    apply list_eq. intros k.
    rewrite !list_lookup_fmap, list_lookup_imap.
    destruct (l !! k) as [x|] eqn:Hk; simpl.
    + apply lookup_lt_Some in Hk. by rewrite lookup_seq_lt.
    + apply lookup_ge_None in Hk. by rewrite lookup_seq_ge.
  - intros k Hk. split.
    + rewrite wrap_small by lia. destruct (Z.gtb_spec k (Z.of_nat n - 1)); lia.
    + by apply next_color_index_below.
  - unfold drawPosition. fold n. by rewrite Hloop.
  - unfold drawVelocity. fold n. by rewrite Hloop.
Qed.

(** ** drawVelocity against drawPosition *)

#[local] Open Scope nat_scope.

(** Every velocity line starts at the centre of a circle that
    [drawPosition] draws for the same source, in the same colour and with
    the same thickness: the two loops step their colour index alike, and a
    velocity is drawn only for a valid position. *)
Theorem velocity_line_starts_at_drawn_position (d : Decorator)
    (from to : Point2d) (color thickness : Z) :
  line from to color thickness ∈ drawVelocity d →
  circle from (position_circle_radius_ d) color thickness ∈ drawPosition d.
Proof.
  unfold drawVelocity, drawPosition. cbv zeta.
  generalize (color_loop (Z.of_nat (length (position_sources_ d))) 0
                (position_sources_ d)).
  intros l H. apply list_elem_of_In, in_flat_map in H as ([i pos] & Hin & H).
  apply list_elem_of_In, in_flat_map. exists (i, pos). split; [done|].
  destruct (velocity_valid pos.2); simpl in H; [|done].
  destruct (position_valid pos.2); simpl in H; [|done].
  destruct H as [H|[]]. injection H as <- _ <- <-. by left.
Qed.

(** ** decorateFrame *)

(** What [wait()] returns on a node; the code tells only [END] apart. *)
Variable NodeState : Type.
Variable END : NodeState.
Context `{!EqDecision NodeState}.

(** The steps of the exchange with the nodes, in the order they are made:
    [copy_in] is [frame_source_.copyTo(internal_frame_)], [clone i] the
    read of position source [i], [copy_out] is
    [internal_frame_.copyTo(shared_frame_)]. *)
Inductive sync :=
| wait (ep : endpoint)
| copy_in
| clone (i : nat)
| post (ep : endpoint)
| drawSymbols
| copy_out.

(** What the nodes hold during one call: [state ep] is what [wait()]
    returns on [ep], [fresh i] the position that source [i] offers. *)
Variable state : endpoint → NodeState.
Variable fresh : nat → Position2D.

(** The loop "2. Get positions" from entry [i] on: whether it has returned
    [true] to the caller, the entries as it leaves them, and its steps. *)
Fixpoint get_positions (i : nat) (l : list (string * Position2D))
  : bool * list (string * Position2D) * list sync :=
  match l with
  | [] => (false, [], [])
  | pos :: rest =>
      if decide (state (position_source i) = END)
      then (true, pos :: rest, [wait (position_source i)])
      else
        let '(ended, rest', log) := get_positions (S i) rest in
        (ended, (pos.1, fresh i) :: rest',
         wait (position_source i) :: clone i :: post (position_source i)
           :: log)
  end.

(** [Decorator::decorateFrame] when [drawSymbols] completes: the value
    returned, the decorator afterwards and the steps made. The value of
    [frame_sink_.wait()] is not looked at. [decorateFrame_or_throw]
    below adds the exceptions that [drawSymbols] lets through. *)
Definition decorateFrame (d : Decorator) : bool * Decorator * list sync :=
  (* Wait for sink to write to node *)
  if decide (state frame_source_ = END)
  then (true, d, [wait frame_source_])
  else
    let '(ended, ps, log) := get_positions 0 (position_sources_ d) in
    let d' :=
      Deco (frame_source_address_ d) (frame_sink_address_ d) ps
        (position_circle_radius_ d) (line_thickness_ d)
        (velocity_scale_factor_ d) in
    let got := [wait frame_source_; copy_in; post frame_source_] ++ log in
    if ended then (true, d', got)
    else
      (false, d',
       got ++ [drawSymbols; wait frame_sink_; copy_out; post frame_sink_]).

(** The steps of one complete exchange with position source [i]. *)
Definition exchange (i : nat) : list sync :=
  [wait (position_source i); clone i; post (position_source i)].

Lemma get_positions_spec (i : nat) (l : list (string * Position2D)) :
  let '(ended, l', log) := get_positions i l in
  if ended
  then ∃ k, k < length l
       ∧ state (position_source (i + k)) = END
       ∧ (∀ j, j < k → state (position_source (i + j)) ≠ END)
       ∧ l' = imap (λ j pos, (pos.1, fresh (i + j))) (take k l) ++ drop k l
       ∧ log = flat_map exchange (seq i k) ++ [wait (position_source (i + k))]
  else (∀ j, j < length l → state (position_source (i + j)) ≠ END)
       ∧ l' = imap (λ j pos, (pos.1, fresh (i + j))) l
       ∧ log = flat_map exchange (seq i (length l)).
Proof.
  revert i. induction l as [|pos rest IH]; intros i.
  - simpl. split_and!; try done. intros j Hj. lia.
  - cbn [get_positions].
    destruct (decide (state (position_source i) = END)) as [He|Hne].
    + exists 0. rewrite Nat.add_0_r. simpl. split_and!; try done; try lia.
    + specialize (IH (S i)).
      destruct (get_positions (S i) rest) as [[ended rest'] log].
      destruct ended.
      * destruct IH as (k & Hk & Hend & Hbefore & -> & ->).
        exists (S k). simpl. split_and!.
        -- lia.
        -- by rewrite Nat.add_succ_r.
        -- intros [|j] Hj; [by rewrite Nat.add_0_r|].
           rewrite Nat.add_succ_r. apply Hbefore. lia.
        -- rewrite Nat.add_0_r. f_equal. f_equal.
           apply imap_ext. intros j x _. simpl. by rewrite Nat.add_succ_r.
        -- by rewrite Nat.add_succ_r.
      * destruct IH as (Hall & -> & ->). simpl. split_and!.
        -- intros [|j] Hj; [by rewrite Nat.add_0_r|].
           rewrite Nat.add_succ_r. apply Hall. lia.
        -- rewrite Nat.add_0_r. f_equal.
           apply imap_ext. intros j x _. simpl. by rewrite Nat.add_succ_r.
        -- done.
Qed.

Lemma elem_of_exchanges (c : sync) (i k : nat) :
  c ∈ flat_map exchange (seq i k) →
  ∃ j, i ≤ j < i + k
    ∧ (c = wait (position_source j) ∨ c = clone j
       ∨ c = post (position_source j)).
Proof.
  intros H. apply list_elem_of_In, in_flat_map in H as (j & Hj & H).
  apply in_seq in Hj. exists j. split; [lia|].
  unfold exchange in H. simpl in H.
  destruct H as [<-|[<-|[<-|[]]]]; tauto.
Qed.

(** A node at [END] ends the call. [decorateFrame] returns [true] exactly
    when the frame source or one of the position sources is at [END]. The
    call then stops at its [wait] on the first such node: that node is not
    posted, no symbol is drawn, and the frame sink is neither waited for,
    written nor posted. *)
Theorem decorateFrame_stops_at_END (d : Decorator) :
  ((decorateFrame d).1.1 = true
   ↔ state frame_source_ = END
     ∨ ∃ i, i < length (position_sources_ d)
         ∧ state (position_source i) = END)
  ∧ ((decorateFrame d).1.1 = true →
     ∃ ep, last (decorateFrame d).2 = Some (wait ep)
       ∧ state ep = END
       ∧ ep ≠ frame_sink_
       ∧ (post ep ∉ (decorateFrame d).2)
       ∧ (drawSymbols ∉ (decorateFrame d).2)
       ∧ (copy_out ∉ (decorateFrame d).2)
       ∧ (wait frame_sink_ ∉ (decorateFrame d).2)
       ∧ (post frame_sink_ ∉ (decorateFrame d).2)).
Proof.
  unfold decorateFrame.
  destruct (decide (state frame_source_ = END)) as [He|Hne].
  - simpl. split; [split; [by left|done]|]. intros _.
    exists frame_source_. split_and!; try done;
      intros H%list_elem_of_singleton; done.
  - pose proof (get_positions_spec 0 (position_sources_ d)) as Hspec.
    destruct (get_positions 0 (position_sources_ d)) as [[ended ps] log].
    destruct ended; cbn [fst snd].
    + destruct Hspec as (k & Hk & Hend & Hbefore & _ & ->).
      simpl in Hend, Hbefore.
      split; [split; [intros _; right; by exists k|done]|]. intros _.
      exists (position_source k).
      assert (Hin : ∀ c,
                c ∈ [wait frame_source_; copy_in; post frame_source_]
                    ++ flat_map exchange (seq 0 k)
                    ++ [wait (position_source k)] →
                c = wait frame_source_ ∨ c = copy_in ∨ c = post frame_source_
                ∨ (∃ j, j < k ∧ (c = wait (position_source j) ∨ c = clone j
                                 ∨ c = post (position_source j)))
                ∨ c = wait (position_source k)).
      { intros c [H|[H|H]%elem_of_app]%elem_of_app.
        - repeat (apply elem_of_cons in H as [->|H]; [tauto|]).
          by apply elem_of_nil in H.
        - apply elem_of_exchanges in H as (j & Hj & H).
          right; right; right; left. exists j. split; [lia|done].
        - apply list_elem_of_singleton in H. tauto. }
      split_and!; try done.
      * rewrite !app_assoc. apply last_snoc.
      * intros H%Hin. destruct H as [?|[?|[?|[(j & Hj & H)|?]]]]; try done.
        destruct H as [?|[?|[= <-]]]; try done. lia.
      * intros H%Hin.
        destruct H as [?|[?|[?|[(j & Hj & [?|[?|?]])|?]]]]; done.
      * intros H%Hin.
        destruct H as [?|[?|[?|[(j & Hj & [?|[?|?]])|?]]]]; done.
      * intros H%Hin.
        destruct H as [?|[?|[?|[(j & Hj & [?|[?|?]])|?]]]]; done.
      * intros H%Hin.
        destruct H as [?|[?|[?|[(j & Hj & [?|[?|?]])|?]]]]; done.
    + destruct Hspec as (Hall & _ & _). split; [|done].
      split; [done|]. intros [?|(i & Hi & Hend)]; [done|].
      by destruct (Hall i Hi).
Qed.

End Decorator.

(** ** encodeSampleNumber *)

Section Encode.

(** [Pixel] is an element of the frame; [white] is [CV_RGB(255, 255, 255)]
    and [black] is zero in the frame's type. *)
Variable Pixel : Type.
Variable white black : Pixel.

(** [oat::Frame]: a [cv::Mat] with a sample count ([uint64_t]); [at_ r c]
    is the pixel in row [r] and column [c]. *)
Record Frame := Mat {
  f_rows : Z;
  f_cols : Z;
  f_sample_count : Z;
  at_ : Z → Z → Pixel
}.

(** How a call ends: normally, with the [std::runtime_error] thrown by
    [encodeSampleNumber] itself, or with the [cv::Exception] of a failed
    range assertion of [cv::Mat]. *)
Inductive outcome :=
| done_ (fr : Frame)
| runtime_error (what : string)
| cv_exception.

(** The assertions behind [fr.colRange(c0, c1).rowRange(r0, r1)]: each
    range has to lie within the matrix. *)
Definition ranges_ok (fr : Frame) (c0 c1 r0 r1 : Z) : bool :=
  (0 <=? c0) && (c0 <=? c1) && (c1 <=? f_cols fr)
  && (0 <=? r0) && (r0 <=? r1) && (r1 <=? f_rows fr).

(** [m.copyTo(sub_square)] for a matrix [m] filled with [v]: the pixels of
    the rows [0 .. r1) and the columns [c0 .. c1) become [v]. *)
Definition fill (fr : Frame) (c0 c1 r1 : Z) (v : Pixel) : Frame :=
  {| f_rows := f_rows fr;
     f_cols := f_cols fr;
     f_sample_count := f_sample_count fr;
     at_ := λ r c,
       if (0 <=? r) && (r <? r1) && (c0 <=? c) && (c <? c1) then v
       else at_ fr r c |}.

(** [n] passes of the [for] loop over [shift]. *)
Fixpoint encode_bits (n : nat) (encode_bit_size_ sample_count column : Z)
    (fr : Frame) : outcome :=
  match n with
  | O => done_ fr
  | S m =>
      if ranges_ok fr column (column + encode_bit_size_) 0 encode_bit_size_
      then
        let v := if negb (Z.land sample_count 1 =? 0) then white else black in
        encode_bits m encode_bit_size_ (Z.shiftr sample_count 1)
          (column + encode_bit_size_)
          (fill fr column (column + encode_bit_size_) encode_bit_size_ v)
      else cv_exception
  end.

(** [Decorator::encodeSampleNumber] *)
Definition encodeSampleNumber (encode_bit_size_ : Z) (internal_frame_ : Frame)
  : outcome :=
  let sample_count := f_sample_count internal_frame_ in
  let column := f_cols internal_frame_ - 64 * encode_bit_size_ in
  if column <? 0
  then runtime_error "Binary counter bar is too large for frame."
  else encode_bits 64 encode_bit_size_ sample_count column internal_frame_.

(** ** Properties *)

Definition bit_color (b : bool) : Pixel := if b then white else black.

Lemma land_1_testbit (s : Z) :
  negb (Z.land s 1 =? 0) = Z.testbit s 0.
Proof.
  change 1 with (Z.ones 1). rewrite Z.land_ones by lia.
  change (2 ^ 1) with 2. rewrite <- Z.bit0_mod.
  by destruct (Z.testbit s 0).
Qed.

Lemma encode_bits_no_runtime_error (n : nat) (bit s col : Z) (fr : Frame)
    (what : string) :
  encode_bits n bit s col fr ≠ runtime_error what.
Proof.
  revert s col fr. induction n as [|m IH]; intros s col fr; [done|].
  simpl. destruct (ranges_ok _ _ _ _ _); [apply IH|done].
Qed.

(** The loop when the bar fits: square number [k], counted from column
    [col], shows bit [k] of the sample count, and nothing else changes. *)
Lemma encode_bits_fits (n : nat) (bit s col : Z) (fr : Frame) :
  0 <= col → 0 <= bit <= f_rows fr → col + Z.of_nat n * bit <= f_cols fr →
  ∃ fr', encode_bits n bit s col fr = done_ fr'
    ∧ f_rows fr' = f_rows fr ∧ f_cols fr' = f_cols fr
    ∧ f_sample_count fr' = f_sample_count fr
    ∧ (∀ k r c, 0 <= k < Z.of_nat n → 0 <= r < bit →
         col + k * bit <= c < col + (k + 1) * bit →
         at_ fr' r c = bit_color (Z.testbit s k))
    ∧ (∀ r c, ¬ (0 <= r < bit ∧ col <= c < col + Z.of_nat n * bit) →
         at_ fr' r c = at_ fr r c).
Proof.
  revert s col fr. induction n as [|m IH]; intros s col fr Hcol Hbit Hfit.
  - exists fr. split_and!; try done. intros k r c Hk. lia.
  - rewrite Nat2Z.inj_succ in Hfit.
    assert (HP : 0 <= Z.of_nat m * bit) by (apply Z.mul_nonneg_nonneg; lia).
    replace (Z.succ (Z.of_nat m) * bit) with (bit + Z.of_nat m * bit)
      in Hfit by ring.
    cbn [encode_bits]. unfold ranges_ok.
    repeat (rewrite (proj2 (Z.leb_le _ _)) by lia). cbn [andb].
    rewrite land_1_testbit.
    set (fr1 := fill fr col (col + bit) bit _).
    destruct (IH (Z.shiftr s 1) (col + bit) fr1)
      as (fr' & -> & Hr & Hc & Hs & Hsq & Hout); [lia|done|simpl; lia|].
    exists fr'. split_and!; try done.
    + intros k r c Hk Hrr Hcc.
      destruct (decide (k = 0)) as [->|Hk0].
      * rewrite Hout by lia. subst fr1; simpl.
        rewrite (proj2 (Z.leb_le 0 r)), (proj2 (Z.ltb_lt r bit)),
          (proj2 (Z.leb_le col c)), (proj2 (Z.ltb_lt c (col + bit)))
          by lia. done.
      * rewrite (Hsq (k - 1)); [|lia|lia|].
        -- rewrite Z.shiftr_spec by lia. do 2 f_equal. lia.
        -- replace (col + bit + (k - 1) * bit) with (col + k * bit) by ring.
           replace (col + bit + (k - 1 + 1) * bit) with (col + (k + 1) * bit)
             by ring. done.
    + intros r c Hnot. rewrite Nat2Z.inj_succ in Hnot.
      replace (Z.succ (Z.of_nat m) * bit) with (bit + Z.of_nat m * bit)
        in Hnot by ring.
      rewrite Hout by lia. subst fr1; simpl.
      destruct (0 <=? r) eqn:E1; [|done].
      destruct (r <? bit) eqn:E2; [|done].
      destruct (col <=? c) eqn:E3; [|done].
      destruct (c <? col + bit) eqn:E4; [|done].
      apply Z.leb_le in E1, E3. apply Z.ltb_lt in E2, E4. lia.
Qed.

(** C6 (as amended). [encodeSampleNumber] throws its [runtime_error]
    exactly when [cols - 64 * encode_bit_size_] is negative. When that
    number is not negative and the frame has at least [encode_bit_size_]
    rows, the call does not throw: square number [shift] of the bar, whose
    first column is [cols - 64 * encode_bit_size_], is white when bit
    [shift] of the sample count is set and black otherwise, and no other
    pixel changes. *)
Theorem encodeSampleNumber_counter_bar (bit : Z) (fr : Frame) :
  ((∃ what, encodeSampleNumber bit fr = runtime_error what)
   ↔ f_cols fr - 64 * bit < 0)
  ∧ (0 <= f_cols fr - 64 * bit → 0 <= bit <= f_rows fr →
     ∃ fr', encodeSampleNumber bit fr = done_ fr'
       ∧ f_rows fr' = f_rows fr ∧ f_cols fr' = f_cols fr
       ∧ f_sample_count fr' = f_sample_count fr
       ∧ (∀ shift r c, 0 <= shift < 64 → 0 <= r < bit →
            f_cols fr - 64 * bit + shift * bit <= c
              < f_cols fr - 64 * bit + (shift + 1) * bit →
            at_ fr' r c = bit_color (Z.testbit (f_sample_count fr) shift))
       ∧ (∀ r c, ¬ (0 <= r < bit ∧ f_cols fr - 64 * bit <= c < f_cols fr) →
            at_ fr' r c = at_ fr r c)).
Proof.
  split.
  - unfold encodeSampleNumber.
    destruct (Z.ltb_spec (f_cols fr - 64 * bit) 0) as [Hlt|Hge].
    + split; [done|]. intros _. by eexists.
    + split; [|lia]. intros [what H].
      by apply encode_bits_no_runtime_error in H.
  - intros Hcol Hbit. unfold encodeSampleNumber.
    rewrite (proj2 (Z.ltb_ge _ _)) by lia.
    destruct (encode_bits_fits 64 bit (f_sample_count fr)
                (f_cols fr - 64 * bit) fr)
      as (fr' & Hrun & Hr & Hc & Hs & Hsq & Hout); [lia|done|lia|].
    exists fr'. split_and!; try done.
    intros r c Hnot. apply Hout. lia.
Qed.

(** The first pass of the loop fails when a square cannot have
    [encode_bit_size_] rows and columns. *)
Lemma encode_bits_range_failure (n : nat) (bit s col : Z) (fr : Frame) :
  ¬ (0 <= bit <= f_rows fr) →
  encode_bits (S n) bit s col fr = cv_exception.
Proof.
  intros Hbit. cbn [encode_bits]. unfold ranges_ok.
  destruct (Z.leb_spec 0 col); [|done].
  destruct (Z.leb_spec col (col + bit)); [|done].
  destruct (Z.leb_spec (col + bit) (f_cols fr)); [|done].
  destruct (Z.leb_spec 0 0); [|done].
  destruct (Z.leb_spec 0 bit); [|done].
  destruct (Z.leb_spec bit (f_rows fr)); [|done].
  lia.
Qed.

(** The frame that a call leaves behind; the frame itself when the call
    throws. *)
Definition encoded (bit : Z) (fr : Frame) : Frame :=
  match encodeSampleNumber bit fr with
  | done_ fr' => fr'
  | _ => fr
  end.

Lemma encodeSampleNumber_encoded (bit : Z) (fr : Frame) :
  0 <= f_cols fr - 64 * bit → 0 <= bit <= f_rows fr →
  encodeSampleNumber bit fr = done_ (encoded bit fr)
  ∧ ∀ k c, 0 <= k < 64 → 0 < bit →
      f_cols fr - 64 * bit + k * bit <= c
        < f_cols fr - 64 * bit + (k + 1) * bit →
      at_ (encoded bit fr) 0 c
      = bit_color (Z.testbit (f_sample_count fr) k).
Proof.
  intros Hcol Hbit. unfold encoded, encodeSampleNumber.
  rewrite (proj2 (Z.ltb_ge _ _)) by lia.
  destruct (encode_bits_fits 64 bit (f_sample_count fr)
              (f_cols fr - 64 * bit) fr)
    as (fr' & -> & _ & _ & _ & Hsq & _); [lia|done|lia|].
  split; [done|]. intros k c Hk Hpos Hc. apply Hsq; [lia|lia|done].
Qed.

(** The range assertion. [encodeSampleNumber] ends with a [cv::Exception]
    exactly when its own test passes, [cols - 64 * encode_bit_size_] being
    not negative, but [encode_bit_size_] is negative or larger than the
    number of rows of the frame. *)
Theorem encodeSampleNumber_range_assertion (bit : Z) (fr : Frame) :
  encodeSampleNumber bit fr = cv_exception
  ↔ 0 <= f_cols fr - 64 * bit ∧ ¬ (0 <= bit <= f_rows fr).
Proof.
  unfold encodeSampleNumber.
  destruct (Z.ltb_spec (f_cols fr - 64 * bit) 0) as [Hlt|Hge].
  - split; [done|lia].
  - destruct (decide (0 <= bit <= f_rows fr)) as [Hbit|Hbit].
    + destruct (encode_bits_fits 64 bit (f_sample_count fr)
                  (f_cols fr - 64 * bit) fr) as (fr' & -> & _);
        [lia|done|lia|].
      split; [done|]. intros [_ H]. done.
    + rewrite encode_bits_range_failure by done. done.
Qed.

(** The bar can be read back. Two frames of the same width whose bars,
    drawn with squares of at least one pixel in distinguishable colours,
    agree on the columns of the bar in the top row carry the same sample
    number modulo [2 ^ 64]. *)
Theorem counter_bar_determines_sample_number (bit : Z)
    (fr1 fr2 fr1' fr2' : Frame) :
  white ≠ black →
  1 <= bit →
  f_cols fr1 = f_cols fr2 →
  encodeSampleNumber bit fr1 = done_ fr1' →
  encodeSampleNumber bit fr2 = done_ fr2' →
  (∀ c, f_cols fr1 - 64 * bit <= c < f_cols fr1 →
        at_ fr1' 0 c = at_ fr2' 0 c) →
  f_sample_count fr1 mod 2 ^ 64 = f_sample_count fr2 mod 2 ^ 64.
Proof.
  intros Hwb Hbit Hcols H1 H2 Hrow.
  assert (Hread : ∀ fr fr', encodeSampleNumber bit fr = done_ fr' →
            0 <= f_cols fr - 64 * bit
            ∧ ∀ k, 0 <= k < 64 →
                at_ fr' 0 (f_cols fr - 64 * bit + k * bit)
                = bit_color (Z.testbit (f_sample_count fr) k)).
  { intros fr fr'. unfold encodeSampleNumber.
    destruct (Z.ltb_spec (f_cols fr - 64 * bit) 0) as [Hlt|Hge]; [done|].
    destruct (decide (0 <= bit <= f_rows fr)) as [Hb|Hb];
      [|by rewrite encode_bits_range_failure].
    destruct (encode_bits_fits 64 bit (f_sample_count fr)
                (f_cols fr - 64 * bit) fr)
      as (fr'' & -> & _ & _ & _ & Hsq & _); [lia|done|lia|].
    intros [= <-]. split; [done|]. intros k Hk.
    apply Hsq; [lia|lia|nia]. }
  destruct (Hread _ _ H1) as [_ Hb1]. destruct (Hread _ _ H2) as [_ Hb2].
  apply Z.bits_inj'. intros k Hk.
  destruct (Z.lt_ge_cases k 64) as [Hlt|Hge].
  - rewrite !Z.mod_pow2_bits_low by lia.
    specialize (Hb1 k (conj Hk Hlt)). specialize (Hb2 k (conj Hk Hlt)).
    rewrite Hrow, Hcols, Hb2 in Hb1 by nia.
    destruct (Z.testbit (f_sample_count fr1) k),
      (Z.testbit (f_sample_count fr2) k); simpl in Hb1; congruence.
  - rewrite !Z.mod_pow2_bits_high by lia. done.
Qed.

End Encode.

(** ** decorateFrame with its drawing *)

Section Publish.

Variables Point2d Scalar : Type.
Variable NodeState : Type.
Variable END : NodeState.
Context `{!EqDecision NodeState}.
Variable state : endpoint → NodeState.
Variable fresh : nat → Position2D Point2d.
Variable Pixel : Type.
Variables white black : Pixel.

(** What leaves a call by way of an exception. *)
Inductive exception :=
| std_runtime_error (what : string)
| cv_Exception.

(** How a call of [decorateFrame] ends. *)
Inductive ending :=
| returns (b : bool)
| throws (e : exception).

(** [Decorator::drawSymbols] as far as it can fail. The drawing and
    printing calls before it are taken to complete; they change neither
    the size nor the sample count of [internal_frame_].
    [encodeSampleNumber] runs when [encode_sample_number_] is set, and
    what it throws is caught nowhere. *)
Definition drawSymbols_throws (encode_sample_number_ : bool)
    (encode_bit_size_ : Z) (internal_frame_ : Frame Pixel)
  : option exception :=
  if encode_sample_number_ then
    match encodeSampleNumber Pixel white black encode_bit_size_
            internal_frame_ with
    | done_ _ _ => None
    | runtime_error _ what => Some (std_runtime_error what)
    | cv_exception _ => Some cv_Exception
    end
  else None.

(** [Decorator::decorateFrame]: how the call ends, the decorator
    afterwards and the steps made. [internal_frame_] is the frame cloned
    from the frame source. An exception of [drawSymbols] leaves the call
    at once: the frame sink is not reached. *)
Definition decorateFrame_or_throw (encode_sample_number_ : bool)
    (encode_bit_size_ : Z) (internal_frame_ : Frame Pixel)
    (d : Decorator Point2d Scalar)
  : ending * Decorator Point2d Scalar * list sync :=
  (* Wait for sink to write to node *)
  if decide (state frame_source_ = END)
  then (returns true, d, [wait frame_source_])
  else
    let '(ended, ps, log) :=
      get_positions Point2d NodeState END state fresh 0
        (position_sources_ Point2d Scalar d) in
    let d' :=
      Deco Point2d Scalar (frame_source_address_ Point2d Scalar d)
        (frame_sink_address_ Point2d Scalar d) ps
        (position_circle_radius_ Point2d Scalar d)
        (line_thickness_ Point2d Scalar d)
        (velocity_scale_factor_ Point2d Scalar d) in
    let got := [wait frame_source_; copy_in; post frame_source_] ++ log in
    if ended then (returns true, d', got)
    else
      (* Decorate frame *)
      match drawSymbols_throws encode_sample_number_ encode_bit_size_
              internal_frame_ with
      | Some e => (throws e, d', got ++ [drawSymbols])
      | None =>
          (returns false, d',
           got ++ [drawSymbols; wait frame_sink_; copy_out; post frame_sink_])
      end.

(** When [drawSymbols] completes, this is [decorateFrame]. *)
Lemma decorateFrame_or_throw_completes (encode : bool) (bit : Z)
    (fr : Frame Pixel) (d : Decorator Point2d Scalar) :
  drawSymbols_throws encode bit fr = None →
  decorateFrame_or_throw encode bit fr d
  = (returns (decorateFrame Point2d Scalar NodeState END state fresh d).1.1,
     (decorateFrame Point2d Scalar NodeState END state fresh d).1.2,
     (decorateFrame Point2d Scalar NodeState END state fresh d).2).
Proof.
  intros Hdraw. unfold decorateFrame_or_throw, decorateFrame.
  destruct (decide (state frame_source_ = END)); [done|].
  destruct (get_positions _ _ _ _ _ _ _) as [[ended ps] log].
  destruct ended; [done|]. by rewrite Hdraw.
Qed.

(** What [drawSymbols] throws, by the size of the frame. *)
Lemma drawSymbols_throws_cases (encode : bool) (bit : Z) (fr : Frame Pixel) :
  drawSymbols_throws encode bit fr
  = if encode then
      if f_cols Pixel fr - 64 * bit <? 0
      then Some (std_runtime_error
                   "Binary counter bar is too large for frame.")
      else if (0 <=? bit) && (bit <=? f_rows Pixel fr) then None
           else Some cv_Exception
    else None.
Proof.
  unfold drawSymbols_throws, encodeSampleNumber. destruct encode; [|done].
  destruct (Z.ltb_spec (f_cols Pixel fr - 64 * bit) 0) as [Hlt|Hge]; [done|].
  destruct (Z.leb_spec 0 bit) as [H0|H0];
    destruct (Z.leb_spec bit (f_rows Pixel fr)) as [H1|H1]; cbn [andb];
    try (rewrite encode_bits_range_failure by lia; reflexivity).
  destruct (encode_bits_fits Pixel white black 64 bit
              (f_sample_count Pixel fr) (f_cols Pixel fr - 64 * bit) fr)
    as (fr' & -> & _); [lia|lia|lia|reflexivity].
Qed.

(** The normal exchange, and how drawing can cut it short. When no source
    is at [END], every position source is waited for, read and posted in
    turn after the frame source, every entry then holds the position read
    from its source under its old address, and [drawSymbols] is called.
    When the sample number is not encoded, or the bar fits the frame,
    [decorateFrame] then waits for the frame sink, writes the frame,
    posts and returns [false], after these steps and no others. When the
    bar does not fit, the exception of [encodeSampleNumber] leaves
    [decorateFrame]: the frame sink is neither waited for, written nor
    posted. *)
Theorem decorateFrame_exchange_order (encode : bool) (bit : Z)
    (fr : Frame Pixel) (d : Decorator Point2d Scalar) :
  state frame_source_ ≠ END →
  (∀ i, (i < length (position_sources_ Point2d Scalar d))%nat →
        state (position_source i) ≠ END) →
  let exchanges :=
    [wait frame_source_; copy_in; post frame_source_]
    ++ flat_map exchange
         (seq 0 (length (position_sources_ Point2d Scalar d))) in
  let d' :=
    Deco Point2d Scalar (frame_source_address_ Point2d Scalar d)
      (frame_sink_address_ Point2d Scalar d)
      (imap (λ i pos, (pos.1, fresh i)) (position_sources_ Point2d Scalar d))
      (position_circle_radius_ Point2d Scalar d)
      (line_thickness_ Point2d Scalar d)
      (velocity_scale_factor_ Point2d Scalar d) in
  (encode = false
   ∨ (0 <= f_cols Pixel fr - 64 * bit ∧ 0 <= bit <= f_rows Pixel fr)%Z →
   decorateFrame_or_throw encode bit fr d
   = (returns false, d',
      exchanges
        ++ [drawSymbols; wait frame_sink_; copy_out; post frame_sink_]))
  ∧ (encode = true → (f_cols Pixel fr - 64 * bit < 0)%Z →
     decorateFrame_or_throw encode bit fr d
     = (throws (std_runtime_error
                  "Binary counter bar is too large for frame."),
        d', exchanges ++ [drawSymbols]))
  ∧ (encode = true → (0 <= f_cols Pixel fr - 64 * bit)%Z →
     ¬ (0 <= bit <= f_rows Pixel fr)%Z →
     decorateFrame_or_throw encode bit fr d
     = (throws cv_Exception, d', exchanges ++ [drawSymbols])).
Proof.
  intros Hfs Hps exchanges d'.
  assert (Hrun : decorateFrame_or_throw encode bit fr d
                 = match drawSymbols_throws encode bit fr with
                   | Some e => (throws e, d', exchanges ++ [drawSymbols])
                   | None =>
                       (returns false, d',
                        exchanges ++ [drawSymbols; wait frame_sink_;
                                      copy_out; post frame_sink_])
                   end).
  { unfold decorateFrame_or_throw. rewrite decide_False by done.
    pose proof (get_positions_spec Point2d NodeState END state fresh 0
                  (position_sources_ Point2d Scalar d)) as Hspec.
    destruct (get_positions _ _ _ _ _ _ _) as [[ended ps] log].
    destruct ended.
    - destruct Hspec as (k & Hk & Hend & _). by destruct (Hps k Hk).
    - destruct Hspec as (_ & -> & ->). done. }
  rewrite Hrun, drawSymbols_throws_cases. split_and!.
  - intros [->|[Hcol Hbit]]; [done|]. destruct encode; [|done].
    destruct (Z.ltb_spec (f_cols Pixel fr - 64 * bit) 0); [lia|].
    destruct (Z.leb_spec 0 bit); [|lia].
    destruct (Z.leb_spec bit (f_rows Pixel fr)); [done|lia].
  - intros -> Hcol.
    by destruct (Z.ltb_spec (f_cols Pixel fr - 64 * bit) 0); [|lia].
  - intros -> Hcol Hbit.
    destruct (Z.ltb_spec (f_cols Pixel fr - 64 * bit) 0); [lia|].
    destruct (Z.leb_spec 0 bit); destruct (Z.leb_spec bit (f_rows Pixel fr));
      cbn [andb]; try reflexivity. lia.
Qed.

End Publish.

(** ** Concrete decorators: points and scalars are integers, pixels are
    booleans *)

Definition three_sources : Decorator Z Z :=
  Deco Z Z "raw" "dec"
    [("a", Pos2D Z "a" true 10 true 1);
     ("b", Pos2D Z "b" false 20 false 2);
     ("c", Pos2D Z "c" true 30 false 3)]
    5 2 4.

Lemma color_index_counts_up_witness :
  Z.of_nat (length (position_sources_ Z Z three_sources)) < 2 ^ 64
  ∧ map fst (color_loop 3 0 (position_sources_ Z Z three_sources)) = [0; 1; 2]
  ∧ drawPosition Z Z three_sources = [circle Z 10 5 0 2; circle Z 30 5 2 2]
  ∧ drawVelocity Z Z Z.add Z.mul three_sources = [line Z 10 14 0 2].
Proof.
  assert (H : Z.of_nat (length (position_sources_ Z Z three_sources)) < 2 ^ 64)
    by (simpl; lia).
  split; [exact H|].
  pose proof (color_index_counts_up Z Z Z.add Z.mul three_sources H)
    as (H1 & _ & H3 & H4).
  split; [exact H1|]. split; [exact H3|exact H4].
Defined.

Lemma velocity_line_starts_at_drawn_position_witness :
  circle Z 10 5 0 2 ∈ drawPosition Z Z three_sources.
Proof.
  apply (velocity_line_starts_at_drawn_position Z Z Z.add Z.mul three_sources
           10 14 0 2).
  vm_compute. left.
Defined.

(** Nodes none of which is at [END] ([NodeState] is [bool], [END] is
    [true]); source [i] offers the valid position [i]. *)
Definition all_running (ep : endpoint) : bool := false.

Definition offered (i : nat) : Position2D Z :=
  Pos2D Z "n" true (Z.of_nat i) false 0.

Lemma decorateFrame_exchange_order_witness :
  decorateFrame_or_throw Z Z bool true all_running offered bool true false
    true 2 (Mat bool 4 130 5 (λ _ _, false)) three_sources
  = (returns false,
     Deco Z Z "raw" "dec"
       [("a", offered 0); ("b", offered 1); ("c", offered 2)] 5 2 4,
     [wait frame_source_; copy_in; post frame_source_;
      wait (position_source 0); clone 0; post (position_source 0);
      wait (position_source 1); clone 1; post (position_source 1);
      wait (position_source 2); clone 2; post (position_source 2);
      drawSymbols; wait frame_sink_; copy_out; post frame_sink_]).
Proof.
  refine (proj1 (decorateFrame_exchange_order Z Z bool true all_running
                   offered bool true false true 2
                   (Mat bool 4 130 5 (λ _ _, false)) three_sources _ _) _).
  - discriminate.
  - intros i _. discriminate.
  - right. simpl. lia.
Defined.

(** A frame of 480 rows and 319 columns with squares of 5 pixels: no
    source is at [END], every source is read and posted, and then the
    [runtime_error] of [encodeSampleNumber] leaves [decorateFrame] before
    the frame sink is reached. *)
Example decorateFrame_throws_on_narrow_frame :
  decorateFrame_or_throw Z Z bool true all_running offered bool true false
    true 5 (Mat bool 480 319 0 (λ _ _, false)) three_sources
  = (throws (std_runtime_error "Binary counter bar is too large for frame."),
     Deco Z Z "raw" "dec"
       [("a", offered 0); ("b", offered 1); ("c", offered 2)] 5 2 4,
     [wait frame_source_; copy_in; post frame_source_;
      wait (position_source 0); clone 0; post (position_source 0);
      wait (position_source 1); clone 1; post (position_source 1);
      wait (position_source 2); clone 2; post (position_source 2);
      drawSymbols]).
Proof. reflexivity. Qed.

(** A frame of 3 rows and 640 columns, all black, with sample count 5. *)
Definition low_frame : Frame bool := Mat bool 3 640 5 (λ _ _, false).

(** C6 (counterexample). With squares of 5 pixels the bar is 320 columns
    wide and fits into the 640 columns of the frame, so the test of
    [encodeSampleNumber] passes; but the frame has only 3 rows, and taking
    the first square fails: the call throws although
    [cols - 64 * encode_bit_size_] is not negative. *)
Lemma encodeSampleNumber_throws_on_low_frame :
  0 <= f_cols bool low_frame - 64 * 5
  ∧ encodeSampleNumber bool true false 5 low_frame = cv_exception bool
  ∧ ∀ fr', encodeSampleNumber bool true false 5 low_frame ≠ done_ bool fr'.
Proof.
  split; [simpl; lia|]. split; [reflexivity|]. intros fr' H. discriminate H.
Qed.

(** A frame of 4 rows and 130 columns with sample count 5 and squares of
    2 pixels: the bar starts in column 2 and shows the bits 1, 0, 1, 0,
    ... *)
Example encodeSampleNumber_fits :
  match encodeSampleNumber bool true false 2 (Mat bool 4 130 5 (λ _ _, false))
  with
  | done_ _ fr' =>
      map (at_ bool fr' 0) [0; 1; 2; 3; 4; 5; 6; 7; 8; 9]
      = [false; false; true; true; false; false; true; true; false; false]
      ∧ at_ bool fr' 2 2 = false
  | _ => False
  end.
Proof. vm_compute. split; reflexivity. Qed.

(** Two frames of 130 columns with sample count 5: one black with 4 rows,
    one white with 6 rows. *)
Definition dark_frame : Frame bool := Mat bool 4 130 5 (λ _ _, false).

Definition bright_frame : Frame bool := Mat bool 6 130 5 (λ _ _, true).

Lemma counter_bar_determines_sample_number_witness :
  f_sample_count bool dark_frame mod 2 ^ 64
  = f_sample_count bool bright_frame mod 2 ^ 64.
Proof.
  destruct (encodeSampleNumber_encoded bool true false 2 dark_frame)
    as [Hd Hdark]; [simpl; lia|simpl; lia|].
  destruct (encodeSampleNumber_encoded bool true false 2 bright_frame)
    as [Hb Hbright]; [simpl; lia|simpl; lia|].
  apply (counter_bar_determines_sample_number bool true false 2
           dark_frame bright_frame (encoded bool true false 2 dark_frame)
           (encoded bool true false 2 bright_frame)).
  - discriminate.
  - lia.
  - reflexivity.
  - exact Hd.
  - exact Hb.
  - intros c Hc. change (f_cols bool dark_frame) with 130 in Hc.
    rewrite (Hdark ((c - 2) / 2) c), (Hbright ((c - 2) / 2) c).
    + reflexivity.
    + Z.div_mod_to_equations. lia.
    + lia.
    + change (f_cols bool bright_frame) with 130.
      Z.div_mod_to_equations. lia.
    + Z.div_mod_to_equations. lia.
    + lia.
    + change (f_cols bool dark_frame) with 130.
      Z.div_mod_to_equations. lia.
Defined.

End Decorator.

(* ===================================================================== *)
(** * src/buffer/Buffer.h *)

Module Buffer.

(** [static constexpr size_t PROGRESS_BAR_WIDTH{80}] *)
Definition PROGRESS_BAR_WIDTH : Z := 80.

(** Conversion of a [size_t] to [int]: the low 32 bits, read as a signed
    number. *)
Definition to_int (x : Z) : Z := (x + 2 ^ 31) mod 2 ^ 32 - 2 ^ 31.

(** [for (int i = 0; i < n; ++i) std::cout << c;] *)
Fixpoint cells (n : nat) (c : string) : string :=
  match n with
  | O => ""
  | S m => c +:+ cells m c
  end.

(** [showBufferState(buffer, buffer_size)], what it writes to
    [std::cout]; [read_available] is [buffer.read_available()]. The
    arithmetic is that of [size_t], and [None] is the division by zero. *)
Definition showBufferState (read_available buffer_size : Z)
  : option string :=
  if buffer_size =? 0 then None
  else
    let progress :=
      to_int (wrap 64 (PROGRESS_BAR_WIDTH * read_available) / buffer_size) in
    let remaining := to_int (wrap 64 (PROGRESS_BAR_WIDTH - progress)) in
    Some ("["
          +:+ cells (Z.to_nat progress) "="
          +:+ cells (Z.to_nat remaining) " "
          +:+ (("] " +:+ pretty read_available +:+ "/" +:+ pretty buffer_size)
               +:+ String (ascii_of_nat 10) "")).

Lemma to_int_small (x : Z) : - 2 ^ 31 <= x < 2 ^ 31 → to_int x = x.
Proof. intros H. unfold to_int. rewrite Z.mod_small; lia. Qed.

Lemma string_length_app (a b : string) :
  String.length (a +:+ b) = (String.length a + String.length b)%nat.
Proof. induction a as [|ch a IH]; [done|]. simpl. by rewrite IH. Qed.

Lemma cells_length (n : nat) (c : string) :
  String.length (cells n c) = (n * String.length c)%nat.
Proof.
  induction n as [|n IH]; [done|]. cbn [cells].
  rewrite string_length_app, IH. done.
Qed.

(** The progress bar. For a buffer that holds no more than its size, the
    bar is [80 * read_available / buffer_size] cells of "=" followed by
    blanks up to 80 cells in all, between brackets and before the two
    numbers; it is full exactly when the buffer is. *)
Theorem showBufferState_bar (read_available buffer_size : Z) :
  0 < buffer_size < 2 ^ 64 →
  0 <= read_available <= buffer_size →
  80 * read_available < 2 ^ 64 →
  let k := 80 * read_available / buffer_size in
  0 <= k <= 80
  ∧ showBufferState read_available buffer_size
    = Some ("["
            +:+ cells (Z.to_nat k) "="
            +:+ cells (Z.to_nat (80 - k)) " "
            +:+ (("] " +:+ pretty read_available +:+ "/"
                  +:+ pretty buffer_size)
                 +:+ String (ascii_of_nat 10) ""))
  ∧ String.length (cells (Z.to_nat k) "=" +:+ cells (Z.to_nat (80 - k)) " ")
    = 80%nat
  ∧ (k = 80 ↔ read_available = buffer_size).
Proof.
  intros Hsize Havail Hmul k.
  assert (Hk : 0 <= k <= 80).
  { subst k. split; [apply Z.div_pos; lia|].
    apply Z.div_le_upper_bound; lia. }
  split; [done|]. split; [|split].
  - unfold showBufferState, PROGRESS_BAR_WIDTH.
    destruct (Z.eqb_spec buffer_size 0) as [?|_]; [lia|].
    rewrite (wrap_small 64 (80 * read_available)) by lia. fold k.
    rewrite (to_int_small k) by lia.
    rewrite (wrap_small 64 (80 - k)) by lia.
    rewrite (to_int_small (80 - k)) by lia. done.
  - rewrite string_length_app, !cells_length. simpl. lia.
  - subst k. split.
    + intros H.
      assert (80 * buffer_size <= 80 * read_available); [|lia].
      pose proof (Z.mul_div_le (80 * read_available) buffer_size) as Hle.
      rewrite H in Hle. lia.
    + intros ->. apply Z.div_mul. lia.
Qed.

Lemma showBufferState_bar_witness :
  showBufferState 250 1000
  = Some ("[" +:+ cells 20 "=" +:+ cells 60 " "
          +:+ ("] 250/1000" +:+ String (ascii_of_nat 10) "")).
Proof.
  refine (proj1 (proj2 (showBufferState_bar 250 1000 _ _ _))); lia.
Defined.

End Buffer.
